(** * Glicko-2 rating calculator

    A shallow embedding of [glicko2.h] / [glicko2.cpp] and the properties of
    the rating update proved about it.

    The C++ class [Glicko2] owns a private [Glicko2_impl] through [pimpl];
    every constructor allocates a fresh one, the copy operations copy its five
    fields and the destructor frees it, so an object is exactly the value of
    those five fields.  The record below is that value.  The opponents vector
    stores [Glicko2] objects by value: each entry carries its own (copied)
    vectors, which makes the type recursive.  That a stored opponent is a
    copy and not a reference is itself a property of the code; it is proved
    on a second model, in which objects are cells of the free store and
    [pimpl] is an address (section "Objects in the free store").

    [double] arithmetic is kept abstract behind the class [Double]: the code
    is written once over the operations of the class, and read several ways.
    Properties that only depend on the control structure are proved for
    every instance.  Properties of the mathematics are proved for the
    instance over the real numbers, where no operation rounds or overflows;
    the real numbers have no infinity and no NaN, so a theorem about a run of
    [Update] over them is stated for the runs that take no logarithm of zero
    and divide by no zero ([within_reals]).  The effect of rounding on the
    scale conversions is bounded for the instance in which every operation
    is followed by a rounding of bounded relative error ([rounded]).  What
    the machine does where the real numbers give out is proved for the
    instance over IEEE 754 binary64 ([binary64]).  [main.cpp] only prints
    one example and is not modelled. *)

From Stdlib Require Import Reals Lra Lia QArith Qreals.
From stdpp Require Import base option list gmap.
From Stdlib Require Floats.

Set Warnings "-register-all".

(** ** The arithmetic of [double] *)

(** The operations the source applies to [double] values.  [dabs] stands for
    the unqualified call [abs(x - x_new)] of the loop guard: with only
    [<cmath>] included, whether that call reaches the [double] overload or
    [::abs(int)] is the choice of the C++ implementation, so the class leaves
    it open; the instance over the real numbers takes the absolute value. *)
Class Double (D : Type) : Type := {
  lit   : Q -> D;          (* a decimal literal of the source text *)
  dadd  : D -> D -> D;
  dsub  : D -> D -> D;
  dmul  : D -> D -> D;
  ddiv  : D -> D -> D;
  dneg  : D -> D;
  dsqrt : D -> D;          (* sqrt of <cmath> *)
  dexp  : D -> D;          (* exp  of <cmath> *)
  dlog  : D -> D;          (* log  of <cmath> *)
  dabs  : D -> D;          (* abs, as the guard of the while loop calls it *)
  dgt   : D -> D -> bool;  (* >  *)
  dlt   : D -> D -> bool   (* <  *)
}.

Arguments lit {D _} _%_Q.

Declare Scope dbl_scope.
Delimit Scope dbl_scope with dbl.
Infix "+" := dadd : dbl_scope.
Infix "-" := dsub : dbl_scope.
Infix "*" := dmul : dbl_scope.
Infix "/" := ddiv : dbl_scope.
Notation "- x" := (dneg x) : dbl_scope.
Infix ">?" := dgt (at level 70, no associativity) : dbl_scope.
Infix "<?" := dlt (at level 70, no associativity) : dbl_scope.

(** ** What a call can do

    [Update] contains a [while] loop without a counter.  The embedding runs it
    with a budget of iterations: [Timeout] says that the loop is still running
    when the budget is used up, it is not a value the C++ caller ever sees.
    [OutOfBounds] marks a read [v[i]] with [i >= v.size()], which the C++
    standard leaves undefined. *)

Inductive outcome (A : Type) : Type :=
| Ret (a : A)
| Timeout
| OutOfBounds.

Arguments Ret {A} a.
Arguments Timeout {A}.
Arguments OutOfBounds {A}.

#[export] Instance outcome_bind : MBind outcome := fun A B k m =>
  match m with
  | Ret a => k a
  | Timeout => Timeout
  | OutOfBounds => OutOfBounds
  end.

(** [v[i]] on a [std::vector]. *)
Definition at_index {A : Type} (v : list A) (i : nat) : outcome A :=
  match v !! i with
  | Some a => Ret a
  | None => OutOfBounds
  end.

(** [for (unsigned int i = first; i < first + n; i++) acc = body i acc].
    The index is taken as a natural number: vectors of [2^32] entries or more
    are not considered. *)
Fixpoint for_loop {A : Type} (body : nat -> A -> outcome A)
    (first n : nat) (acc : A) : outcome A :=
  match n with
  | O => Ret acc
  | S n' => acc' ← body first acc; for_loop body (S first) n' acc'
  end.

(** ** The class [Glicko2] *)

Inductive RESULT : Type := WIN | LOSS | DRAW.

Inductive Glicko2 (D : Type) : Type := mkGlicko2 {
  rating     : D;
  deviation  : D;
  volatility : D;
  opponents  : list (Glicko2 D);
  results    : list D
}.

Arguments mkGlicko2 {D} _ _ _ _ _.
Arguments rating {D} _.
Arguments deviation {D} _.
Arguments volatility {D} _.
Arguments opponents {D} _.
Arguments results {D} _.

Section Glicko2.

Context {D : Type} `{Double D}.
Local Open Scope dbl_scope.

(** [const double Glicko2_impl::dvolatility = 0.3] *)
Definition dvolatility : D := lit 0.3.

(** [#define PI_SQUARED (9.86960440108935861883)] *)
Definition PI_SQUARED : D := lit 9.86960440108935861883.

(** [Glicko2_impl::g] *)
Definition g (deviation : D) : D :=
  lit 1.0 / (dsqrt (lit 1.0 + lit 3.0 * deviation * deviation / PI_SQUARED)).

(** [Glicko2_impl::E] *)
Definition E (rating rating_opponent deviation_opponent : D) : D :=
  lit 1.0 / (lit 1.0 + dexp (- g deviation_opponent * (rating - rating_opponent))).

(** [Glicko2_impl::Glicko2_impl()] *)
Definition Glicko2_impl_new : Glicko2 D :=
  mkGlicko2 (lit 0.0) (lit 0.0) (lit 0.0) [] [].

(** [Glicko2::GetRating], [GetDeviation], [GetVolatility] *)
Definition GetRating (s : Glicko2 D) : D :=
  rating s * lit 173.7178 + lit 1500.0.

Definition GetDeviation (s : Glicko2 D) : D :=
  deviation s * lit 173.7178.

Definition GetVolatility (s : Glicko2 D) : D :=
  volatility s.

(** [Glicko2::SetRating], [SetDeviation], [SetVolatility] *)
Definition SetRating (s : Glicko2 D) (rating : D) : Glicko2 D :=
  mkGlicko2 ((rating - lit 1500.0) / lit 173.7178)
            (deviation s) (volatility s) (opponents s) (results s).

Definition SetDeviation (s : Glicko2 D) (deviation : D) : Glicko2 D :=
  mkGlicko2 (rating s) (deviation / lit 173.7178)
            (volatility s) (opponents s) (results s).

Definition SetVolatility (s : Glicko2 D) (volatility : D) : Glicko2 D :=
  mkGlicko2 (rating s) (deviation s) volatility (opponents s) (results s).

(** [Glicko2::Glicko2()] *)
Definition Glicko2_default : Glicko2 D :=
  SetVolatility (SetDeviation (SetRating Glicko2_impl_new (lit 1500.0))
                              (lit 350.0))
                (lit 0.06).

(** [Glicko2::Glicko2(double rating, double deviation, double volatility)] *)
Definition Glicko2_new (rating deviation volatility : D) : Glicko2 D :=
  SetVolatility (SetDeviation (SetRating Glicko2_impl_new rating) deviation)
                volatility.

(** [Glicko2::Glicko2(const Glicko2& rhs)]: a new [Glicko2_impl] built from
    [*rhs.pimpl], field by field. *)
Definition Glicko2_copy (rhs : Glicko2 D) : Glicko2 D :=
  mkGlicko2 (rating rhs) (deviation rhs) (volatility rhs)
            (opponents rhs) (results rhs).

(** [Glicko2::operator<] *)
Definition less_than (s rhs : Glicko2 D) : bool :=
  rating s <? rating rhs.

(** [Glicko2::ClearResults] *)
Definition ClearResults (s : Glicko2 D) : Glicko2 D :=
  mkGlicko2 (rating s) (deviation s) (volatility s) [] [].

(** The value the [switch] of [AddResult] pushes on [results]. *)
Definition score (result : RESULT) : D :=
  match result with
  | WIN => lit 1.0
  | LOSS => lit 0.0
  | DRAW => lit 0.5
  end.

(** [Glicko2::AddResult]: [push_back] copies the opponent into the vector. *)
Definition AddResult (s opponent : Glicko2 D) (result : RESULT) : Glicko2 D :=
  mkGlicko2 (rating s) (deviation s) (volatility s)
            (opponents s ++ [Glicko2_copy opponent])
            (results s ++ [score result]).

Definition AddWin (s opponent : Glicko2 D) : Glicko2 D := AddResult s opponent WIN.
Definition AddLoss (s opponent : Glicko2 D) : Glicko2 D := AddResult s opponent LOSS.
Definition AddDraw (s opponent : Glicko2 D) : Glicko2 D := AddResult s opponent DRAW.

(** *** [Glicko2::Update] *)

(** Body of the first loop: [variance += g_i * g_i * E_i * (1.0 - E_i)]. *)
Definition variance_body (s : Glicko2 D) (i : nat) (variance : D) : outcome D :=
  o ← at_index (opponents s) i;
  let g_i := g (deviation o) in
  let E_i := E (rating s) (rating o) (deviation o) in
  Ret (variance + g_i * g_i * E_i * (lit 1.0 - E_i)).

(** Body of the second and of the third loop:
    [acc += g(opponents[i].deviation) * (results[i] - E(...))]. *)
Definition delta_body (s : Glicko2 D) (i : nat) (acc : D) : outcome D :=
  o ← at_index (opponents s) i;
  r ← at_index (results s) i;
  Ret (acc + g (deviation o) * (r - E (rating s) (rating o) (deviation o))).

(** The locals [d], [h1], [h2] of the [while] body and the value it assigns to
    [x_new]. *)
Definition solver_d (deviation variance x : D) : D :=
  deviation * deviation + variance + dexp x.

Definition solver_h1 (deviation variance delta a x : D) : D :=
  let d := solver_d deviation variance x in
  - (x - a) / (dvolatility * dvolatility)
  - lit 0.5 * dexp x / d
  + lit 0.5 * dexp x * (delta / d) * (delta / d).

Definition solver_h2 (deviation variance delta x : D) : D :=
  let d := solver_d deviation variance x in
  - lit 1.0 / (dvolatility * dvolatility)
  - lit 0.5 * dexp x * (deviation * deviation + variance) / (d * d)
  + lit 0.5 * (delta * delta) * dexp x
      * ((deviation * deviation) + variance - dexp x) / (d * d * d).

Definition newton_step (deviation variance delta a x : D) : D :=
  x - solver_h1 deviation variance delta a x / solver_h2 deviation variance delta x.

(** [while ( abs(x - x_new) > 0.0000001 ) { x = x_new; ...; x_new = x - h1/h2; }]
    run for at most [fuel] iterations; the result is [x_new] at the exit. *)
Fixpoint solve_loop (fuel : nat) (deviation variance delta a x x_new : D)
    : outcome D :=
  if dabs (x - x_new) >? lit 0.0000001 then
    match fuel with
    | O => Timeout
    | S fuel' =>
        solve_loop fuel' deviation variance delta a
                   x_new (newton_step deviation variance delta a x_new)
    end
  else Ret x_new.

Definition Update (fuel : nat) (s : Glicko2 D) : outcome (Glicko2 D) :=
  if Nat.eqb (length (opponents s)) 0 then Ret s else
  variance ← for_loop (variance_body s) 0 (length (opponents s)) (lit 0.0);
  let variance := lit 1.0 / variance in
  delta ← for_loop (delta_body s) 0 (length (opponents s)) (lit 0.0);
  let delta := delta * variance in
  let a := dlog (volatility s * volatility s) in
  x_new ← solve_loop fuel (deviation s) variance delta a (lit 0.0) a;
  let new_volatility := dexp (x_new / lit 2.0) in
  let pre_deviation :=
    dsqrt (deviation s * deviation s + new_volatility * new_volatility) in
  let new_deviation :=
    lit 1.0 / (dsqrt (lit 1.0 / (pre_deviation * pre_deviation)
                      + lit 1.0 / variance)) in
  new_rating ← for_loop (delta_body s) 0 (length (opponents s)) (lit 0.0);
  let new_rating := new_rating * new_deviation * new_deviation in
  let new_rating := new_rating + rating s in
  Ret (ClearResults
         (mkGlicko2 new_rating new_deviation new_volatility
                    (opponents s) (results s))).

End Glicko2.

(** ** Programs over several objects

    Objects live in a heap indexed by their names.  A statement is a
    declaration or a call of a public member on a named object; arguments of
    type [const Glicko2&] are names as well, and are read from the heap when
    the statement runs.  A statement that names an object that was never
    declared is not a C++ program; [exec] leaves the heap as it is. *)

Inductive stmt (D : Type) : Type :=
| New_default (self : nat)                (* Glicko2 self;          *)
| New_with (self : nat) (r d v : D)      (* Glicko2 self(r, d, v); *)
| New_copy (self rhs : nat)              (* Glicko2 self(rhs);     *)
| Assign (self rhs : nat)                (* self = rhs;            *)
| Call_SetRating (self : nat) (x : D)
| Call_SetDeviation (self : nat) (x : D)
| Call_SetVolatility (self : nat) (x : D)
| Call_ClearResults (self : nat)
| Call_AddResult (self opponent : nat) (result : RESULT)
| Call_AddWin (self opponent : nat)
| Call_AddLoss (self opponent : nat)
| Call_AddDraw (self opponent : nat)
| Call_Update (self : nat).

Arguments New_default {D} _.
Arguments New_with {D} _ _ _ _.
Arguments New_copy {D} _ _.
Arguments Assign {D} _ _.
Arguments Call_SetRating {D} _ _.
Arguments Call_SetDeviation {D} _ _.
Arguments Call_SetVolatility {D} _ _.
Arguments Call_ClearResults {D} _.
Arguments Call_AddResult {D} _ _ _.
Arguments Call_AddWin {D} _ _.
Arguments Call_AddLoss {D} _ _.
Arguments Call_AddDraw {D} _ _.
Arguments Call_Update {D} _.

(** The object a statement writes to. *)
Definition receiver {D : Type} (c : stmt D) : nat :=
  match c with
  | New_default self | New_with self _ _ _ | New_copy self _
  | Assign self _
  | Call_SetRating self _ | Call_SetDeviation self _ | Call_SetVolatility self _
  | Call_ClearResults self
  | Call_AddResult self _ _ | Call_AddWin self _ | Call_AddLoss self _
  | Call_AddDraw self _
  | Call_Update self => self
  end.

Section Programs.

Context {D : Type} `{Double D}.

(** A member call [self.f(opponent)] with a reference argument. *)
Definition call_with (f : Glicko2 D -> Glicko2 D -> Glicko2 D)
    (self opponent : nat) (h : gmap nat (Glicko2 D)) : gmap nat (Glicko2 D) :=
  match h !! opponent with
  | Some o => alter (fun s => f s o) self h
  | None => h
  end.

Definition exec (fuel : nat) (c : stmt D) (h : gmap nat (Glicko2 D))
    : outcome (gmap nat (Glicko2 D)) :=
  match c with
  | New_default self => Ret (<[self := Glicko2_default]> h)
  | New_with self r d v => Ret (<[self := Glicko2_new r d v]> h)
  | New_copy self rhs =>
      match h !! rhs with
      | Some o => Ret (<[self := Glicko2_copy o]> h)
      | None => Ret h
      end
  | Assign self rhs =>
      (* [operator=] returns at once when [this == &rhs], and copies the
         five fields otherwise *)
      if Nat.eqb self rhs then Ret h
      else Ret (call_with (fun _ o => Glicko2_copy o) self rhs h)
  | Call_SetRating self x => Ret (alter (fun s => SetRating s x) self h)
  | Call_SetDeviation self x => Ret (alter (fun s => SetDeviation s x) self h)
  | Call_SetVolatility self x => Ret (alter (fun s => SetVolatility s x) self h)
  | Call_ClearResults self => Ret (alter ClearResults self h)
  | Call_AddResult self opponent result =>
      Ret (call_with (fun s o => AddResult s o result) self opponent h)
  | Call_AddWin self opponent => Ret (call_with AddWin self opponent h)
  | Call_AddLoss self opponent => Ret (call_with AddLoss self opponent h)
  | Call_AddDraw self opponent => Ret (call_with AddDraw self opponent h)
  | Call_Update self =>
      match h !! self with
      | Some s => s' ← Update fuel s; Ret (<[self := s']> h)
      | None => Ret h
      end
  end.

Fixpoint run (fuel : nat) (p : list (stmt D)) (h : gmap nat (Glicko2 D))
    : outcome (gmap nat (Glicko2 D)) :=
  match p with
  | [] => Ret h
  | c :: p' => h' ← exec fuel c h; run fuel p' h'
  end.

(** The two vectors of an object have the same size. *)
Definition paired (s : Glicko2 D) : Prop :=
  length (opponents s) = length (results s).

(** The vectors of every object of the heap have the same size. *)
Definition paired_heap (h : gmap nat (Glicko2 D)) : Prop :=
  forall k s, h !! k = Some s -> paired s.

End Programs.

(** ** The loops of [Update] in closed form

    For an object whose two vectors have the same size the three [for] loops
    are left folds over the recorded games, and [Update] is the [while] loop
    followed by the assignments.  The lemmas [for_loop_variance],
    [for_loop_delta] and [Update_unfold] below prove that these definitions
    are what [Update] computes. *)

Section Closed_form.

Context {D : Type} `{Double D}.
Local Open Scope dbl_scope.

(** The recorded games: [opponents[i]] next to [results[i]]. *)
Definition games (s : Glicko2 D) : list (Glicko2 D * D) :=
  zip (opponents s) (results s).

(** [variance] when the first loop is left. *)
Definition variance_sum (s : Glicko2 D) : D :=
  fold_left (fun variance o =>
               let g_i := g (deviation o) in
               let E_i := E (rating s) (rating o) (deviation o) in
               variance + g_i * g_i * E_i * (lit 1.0 - E_i))
            (opponents s) (lit 0.0).

(** [delta] when the second loop is left, [new_rating] when the third is. *)
Definition score_sum (s : Glicko2 D) : D :=
  fold_left (fun acc j =>
               acc + g (deviation j.1)
                     * (j.2 - E (rating s) (rating j.1) (deviation j.1)))
            (games s) (lit 0.0).

(** [variance], [delta] and [a] when the [while] loop is entered. *)
Definition Update_variance (s : Glicko2 D) : D := lit 1.0 / variance_sum s.
Definition Update_delta (s : Glicko2 D) : D := score_sum s * Update_variance s.
Definition Update_a (s : Glicko2 D) : D := dlog (volatility s * volatility s).

(** The [while] loop of [Update] on the object [s]. *)
Definition Update_solve (fuel : nat) (s : Glicko2 D) : outcome D :=
  solve_loop fuel (deviation s) (Update_variance s) (Update_delta s)
             (Update_a s) (lit 0.0) (Update_a s).

(** The statements after the [while] loop, for the value [x_new] it left. *)
Definition Update_commit (s : Glicko2 D) (x_new : D) : Glicko2 D :=
  let variance := Update_variance s in
  let new_volatility := dexp (x_new / lit 2.0) in
  let pre_deviation :=
    dsqrt (deviation s * deviation s + new_volatility * new_volatility) in
  let new_deviation :=
    lit 1.0 / (dsqrt (lit 1.0 / (pre_deviation * pre_deviation)
                      + lit 1.0 / variance)) in
  let new_rating := score_sum s * new_deviation * new_deviation + rating s in
  mkGlicko2 new_rating new_deviation new_volatility [] [].

(** The successive values of [x_new]: [a], then one [newton_step] after
    another; and the value [x] holds when the guard is tested for the
    [k]-th time ([0.0] the first time, the previous [x_new] afterwards). *)
Fixpoint x_new_at (s : Glicko2 D) (k : nat) : D :=
  match k with
  | O => Update_a s
  | S k' => newton_step (deviation s) (Update_variance s) (Update_delta s)
                        (Update_a s) (x_new_at s k')
  end.

Definition x_at (s : Glicko2 D) (k : nat) : D :=
  match k with
  | O => lit 0.0
  | S k' => x_new_at s k'
  end.

(** The guard of the [while] loop is false at its [k]-th test. *)
Definition guard_fails (s : Glicko2 D) (k : nat) : Prop :=
  (dabs (x_at s k - x_new_at s k) >? lit 0.0000001) = false.

(** The loop, seen from the [k]-th test of its guard. *)
Definition loop_from (fuel : nat) (s : Glicko2 D) (k : nat) : outcome D :=
  solve_loop fuel (deviation s) (Update_variance s) (Update_delta s)
             (Update_a s) (x_at s k) (x_new_at s k).

End Closed_form.

(** ** Real arithmetic

    The ideal reading of the code: literals are the rationals they denote,
    the operations are exact, [abs] is the absolute value.  Division and
    logarithm are the total functions of the library ([x / 0 = 0],
    [ln 0 = 0]), where the machine gives an infinity or a NaN: a run that
    meets one of these is not a run of the code, and [within_reals] below
    excludes it. *)

#[export] Instance R_double : Double R := {|
  lit := Q2R;
  dadd := Rplus;
  dsub := Rminus;
  dmul := Rmult;
  ddiv := Rdiv;
  dneg := Ropp;
  dsqrt := sqrt;
  dexp := exp;
  dlog := ln;
  dabs := Rabs;
  dgt := fun x y => if Rgt_dec x y then true else false;
  dlt := fun x y => if Rlt_dec x y then true else false
|}.

(** A run of [Update] on [s] that stays within the real numbers.  [Update]
    takes one logarithm, of [volatility * volatility], and divides by
    [variance] (the sum of the first loop), by [dvolatility * dvolatility],
    by [d], by [h2], by [pre_deviation * pre_deviation] and by a square
    root.  For an object with recorded games all of these but two are
    positive real numbers (lemmas [variance_sum_pos] and
    [Update_commit_positive]); the two are the argument of the logarithm,
    zero when the volatility is, and [h2], which the body of the [while] loop
    computes at [x = x_new_at s j] when it runs for the [j]-th time, that is
    when the guard held at its tests 0 to [j]. *)
Definition within_reals (s : Glicko2 R) : Prop :=
  volatility s <> 0%R
  /\ forall j, (forall i, (i <= j)%nat -> ~ guard_fails s i) ->
       solver_h2 (deviation s) (Update_variance s) (Update_delta s)
                 (x_new_at s j) <> 0%R.

(** *** The other reading of the guard

    Where the call [abs(x - x_new)] reaches [::abs(int)], its argument is
    converted to [int], toward zero, and the [int] it returns goes back to
    [double] for the comparison.  [to_int] is that conversion for arguments
    within the range of [int] (beyond it C++ leaves the conversion
    undefined).  The instance differs from [R_double] in [dabs] only; it is
    not registered for instance search and is named where it is used. *)

Definition to_int (x : R) : Z :=
  if Rle_dec 0 x then Int_part x else (- Int_part (- x))%Z.

Definition int_abs (x : R) : R := IZR (Z.abs (to_int x)).

Definition R_double_int_abs : Double R := {|
  lit := Q2R;
  dadd := Rplus;
  dsub := Rminus;
  dmul := Rmult;
  ddiv := Rdiv;
  dneg := Ropp;
  dsqrt := sqrt;
  dexp := exp;
  dlog := ln;
  dabs := int_abs;
  dgt := fun x y => if Rgt_dec x y then true else false;
  dlt := fun x y => if Rlt_dec x y then true else false
|}.

(** ** The update as the specification words it *)

Module Spec.

Local Open Scope R_scope.

(** [Σ_j f j], over the recorded games. *)
Definition big_sum {A : Type} (f : A -> R) (l : list A) : R :=
  foldr (fun j acc => f j + acc) 0 l.

Definition g_j (j : Glicko2 R * R) : R := g (deviation j.1).
Definition E_j (s : Glicko2 R) (j : Glicko2 R * R) : R :=
  E (rating s) (rating j.1) (deviation j.1).
Definition score_j (j : Glicko2 R * R) : R := j.2.

(** [Σ_j g_j * (score_j - E_j)] *)
Definition surprise (s : Glicko2 R) : R :=
  big_sum (fun j => g_j j * (score_j j - E_j s j)) (games s).

(** [v = ( Σ_j g_j^2 * E_j * (1-E_j) )^-1] *)
Definition v (s : Glicko2 R) : R :=
  / big_sum (fun j => g_j j ^ 2 * E_j s j * (1 - E_j s j)) (games s).

(** [Δ = v * Σ_j g_j * (score_j - E_j)] *)
Definition Delta (s : Glicko2 R) : R := v s * surprise s.

(** [phi_star = sqrt(subject.deviation^2 + sigma'^2)] *)
Definition phi_star (s : Glicko2 R) (sigma' : R) : R :=
  sqrt (deviation s ^ 2 + sigma' ^ 2).

(** [phi' = 1 / sqrt(1/phi_star^2 + 1/v)] *)
Definition phi' (s : Glicko2 R) (sigma' : R) : R :=
  1 / sqrt (1 / phi_star s sigma' ^ 2 + 1 / v s).

(** [mu' = subject.rating + phi'^2 * Σ_j g_j * (score_j - E_j)] *)
Definition mu' (s : Glicko2 R) (sigma' : R) : R :=
  rating s + phi' s sigma' ^ 2 * surprise s.

(** The volatility solver of section 4.4, with [tau = 0.3]. *)
Definition tau : R := 0.3.

Definition d (phi v x : R) : R := phi ^ 2 + v + exp x.

Definition h1 (phi v Delta a x : R) : R :=
  - (x - a) / tau ^ 2 - 0.5 * exp x / d phi v x
  + 0.5 * exp x * (Delta / d phi v x) ^ 2.

Definition h2 (phi v Delta x : R) : R :=
  - 1 / tau ^ 2 - 0.5 * exp x * (phi ^ 2 + v) / d phi v x ^ 2
  + 0.5 * Delta ^ 2 * exp x * (phi ^ 2 + v - exp x) / d phi v x ^ 3.

Definition x_next (phi v Delta a x : R) : R :=
  x - h1 phi v Delta a x / h2 phi v Delta x.

(** "Repeat ... [x_next = x - h1/h2].  Stop when [|x_next - x| ≤ 1e-7]",
    for at most [fuel] rounds, from [x]. *)
Fixpoint newton (fuel : nat) (phi v Delta a x : R) : outcome R :=
  match fuel with
  | O => Timeout
  | S fuel' =>
      let x' := x_next phi v Delta a x in
      if Rle_dec (Rabs (x' - x)) 1e-7 then Ret x'
      else newton fuel' phi v Delta a x'
  end.

(** "[a = ln(sigma^2)]; initialize [x = a]. ...
    Return [sigma' = exp(x_next / 2)]." *)
Definition solver (fuel : nat) (phi v Delta sigma : R) : outcome R :=
  let a := ln (sigma ^ 2) in
  x' ← newton fuel phi v Delta a a; Ret (exp (x' / 2)).

End Spec.

(** ** Three rating periods

    Every opponent is [Glicko2 B(1500.0, 0.0, 0.06)], as strong as the
    player and of known strength. *)

Section Scenarios.

Local Open Scope R_scope.

Definition opponent_B : Glicko2 R := Glicko2_new 1500 0 0.06.

(** [Glicko2 A(1500.0, 173.7178, 1.0); A.AddDraw(B);] *)
Definition unit_volatility_A : Glicko2 R :=
  AddDraw (Glicko2_new 1500 173.7178 1) opponent_B.

(** [Glicko2 A(1500.0, 277.94848, 0.8);] and five times [A.AddWin(B);] *)
Definition steady_A : Glicko2 R :=
  Nat.iter 5 (fun s => AddWin s opponent_B) (Glicko2_new 1500 277.94848 0.8).

(** [Glicko2 A(1500.0, 17.37178, 0.06);] and 600 times [A.AddWin(B);] *)
Definition cycling_A : Glicko2 R :=
  Nat.iter 600 (fun s => AddWin s opponent_B) (Glicko2_new 1500 17.37178 0.06).

(** For [cycling_A] the [while] loop is entered with [deviation = 1/10],
    [variance = 1/150], [delta = 2] and [a = ln(0.06 * 0.06)] (lemma
    [cycling_A_aggregates]); this is its [a] and the [x_new] its body
    assigns. *)
Definition cycling_a : R := ln (9 / 2500).

Definition cycling_step (x : R) : R :=
  newton_step (1 / 10) (1 / 150) 2 cycling_a x.

End Scenarios.

(** ** Rounded real arithmetic

    The usual model of floating-point arithmetic away from overflow and
    underflow: a literal is the rounding of the rational it denotes, and an
    operation returns the rounding of its exact result.  The rounding [rnd]
    is any function within a relative error [u] of its argument; rounding to
    the nearest binary64 number has [u = 2^-53] on the numbers whose
    magnitude lies between the least positive normal [double] and
    [DBL_MAX], which is a fact of IEEE 754 and not shown here.  Negation
    and the absolute value are exact. *)

Definition rounded (rnd : R -> R) : Double R := {|
  lit := fun q => rnd (Q2R q);
  dadd := fun x y => rnd (x + y)%R;
  dsub := fun x y => rnd (x - y)%R;
  dmul := fun x y => rnd (x * y)%R;
  ddiv := fun x y => rnd (x / y)%R;
  dneg := Ropp;
  dsqrt := fun x => rnd (sqrt x);
  dexp := fun x => rnd (exp x);
  dlog := fun x => rnd (ln x);
  dabs := Rabs;
  dgt := fun x y => if Rgt_dec x y then true else false;
  dlt := fun x y => if Rlt_dec x y then true else false
|}.

Definition relative_error (u : R) (rnd : R -> R) : Prop :=
  forall x, (Rabs (rnd x - x) <= u * Rabs x)%R.

(** A rounding that is off by the full [2^-53] everywhere. *)
Definition rounding_away (x : R) : R := (x * (1 + / 2 ^ 53))%R.

(** ** Notions used to state further properties *)

(** Applying a function to what a call returns. *)
#[export] Instance outcome_fmap : FMap outcome := fun A B f m =>
  match m with
  | Ret a => Ret (f a)
  | Timeout => Timeout
  | OutOfBounds => OutOfBounds
  end.

(** Two stored opponents that [Update] cannot tell apart: it reads
    [opponents[i].pimpl->rating] and [opponents[i].pimpl->deviation] and
    nothing else of an entry. *)
Definition same_snapshot {D : Type} (o o' : Glicko2 D) : Prop :=
  rating o = rating o' /\ deviation o = deviation o'.

(** The object [s] with [c] added to its internal rating and to the rating
    of every stored opponent. *)
Definition shift_opponent (c : R) (o : Glicko2 R) : Glicko2 R :=
  mkGlicko2 (rating o + c)%R (deviation o) (volatility o)
            (opponents o) (results o).

Definition shift_ratings (c : R) (s : Glicko2 R) : Glicko2 R :=
  mkGlicko2 (rating s + c)%R (deviation s) (volatility s)
            (shift_opponent c <$> opponents s) (results s).

(** Every recorded score is the one [AddWin] pushes, or the one [AddLoss]
    pushes. *)
Definition all_wins (s : Glicko2 R) : Prop :=
  Forall (fun r => r = 1.0%R) (results s).

Definition all_losses (s : Glicko2 R) : Prop :=
  Forall (fun r => r = 0.0%R) (results s).

(** ** IEEE 754 binary64

    The reading of the code on the machine: a [double] is a binary64 number,
    every operation rounds to nearest, ties to even, and overflows to an
    infinity; these are the primitive floating-point numbers of the kernel.
    [abs] is the overload on [double].

    A decimal literal of the source text denotes the binary64 number nearest
    to it.  [Q_to_binary64] computes it from the quotient of the literal: the
    quotient is scaled by [2^1200], truncated, and given one more bit that
    says whether the truncation dropped anything, which is all the rounding
    to 53 bits needs to know. *)

Definition Q_to_binary64 (q : Q) : PrimFloat.float :=
  let n := Z.abs (Qnum q) in
  let d := Zpos (Qden q) in
  let m := Z.shiftl n 1200 in
  let sticky := if Z.eqb (m mod d) 0 then 0%Z else 1%Z in
  let m' := (2 * (m / d) + sticky)%Z in
  FloatOps.SF2Prim
    (SpecFloat.binary_normalize FloatOps.prec FloatOps.emax
       (if Z.ltb (Qnum q) 0 then - m' else m')%Z (-1201) false).

(** [exp] and [log] come from [<cmath>]; their code is not part of the
    repository, so they are parameters of the instance. *)
Definition binary64 (exp64 log64 : PrimFloat.float -> PrimFloat.float)
    : Double PrimFloat.float := {|
  lit := Q_to_binary64;
  dadd := PrimFloat.add;
  dsub := PrimFloat.sub;
  dmul := PrimFloat.mul;
  ddiv := PrimFloat.div;
  dneg := PrimFloat.opp;
  dsqrt := PrimFloat.sqrt;
  dexp := exp64;
  dlog := log64;
  dabs := PrimFloat.abs;
  dgt := fun x y => PrimFloat.ltb y x;
  dlt := PrimFloat.ltb
|}.

(** What is assumed of [exp] and [log]: the values that Annex F of the C
    standard fixes (F.10.3.1 and F.10.3.7, and a NaN for a NaN), and nothing
    about their accuracy. *)
Definition annex_F (exp64 log64 : PrimFloat.float -> PrimFloat.float) : Prop :=
  (exp64 PrimFloat.zero = PrimFloat.one
   /\ exp64 PrimFloat.neg_zero = PrimFloat.one
   /\ exp64 PrimFloat.neg_infinity = PrimFloat.zero
   /\ exp64 PrimFloat.infinity = PrimFloat.infinity
   /\ exp64 PrimFloat.nan = PrimFloat.nan)
  /\ (log64 PrimFloat.zero = PrimFloat.neg_infinity
      /\ log64 PrimFloat.neg_zero = PrimFloat.neg_infinity
      /\ log64 PrimFloat.one = PrimFloat.zero
      /\ log64 PrimFloat.infinity = PrimFloat.infinity
      /\ log64 PrimFloat.nan = PrimFloat.nan
      /\ forall x, PrimFloat.ltb x PrimFloat.zero = true ->
                   log64 x = PrimFloat.nan).

(** Two functions with these values and no others, which shows that the
    assumption can be met: a NaN wherever Annex F fixes nothing. *)
Definition exp_special_values (x : PrimFloat.float) : PrimFloat.float :=
  if PrimFloat.is_zero x then PrimFloat.one
  else if PrimFloat.Leibniz.eqb x PrimFloat.neg_infinity then PrimFloat.zero
  else if PrimFloat.Leibniz.eqb x PrimFloat.infinity then PrimFloat.infinity
  else PrimFloat.nan.

Definition log_special_values (x : PrimFloat.float) : PrimFloat.float :=
  if PrimFloat.is_zero x then PrimFloat.neg_infinity
  else if PrimFloat.Leibniz.eqb x PrimFloat.one then PrimFloat.zero
  else if PrimFloat.Leibniz.eqb x PrimFloat.infinity then PrimFloat.infinity
  else PrimFloat.nan.

(** [DBL_MAX], the largest finite [double]: [(2^53 - 1) * 2^971]. *)
Definition DBL_MAX : PrimFloat.float :=
  FloatOps.SF2Prim (SpecFloat.S754_finite false (2 ^ 53 - 1) 971).

(** [Glicko2 A(1500.0, 200.0, 0.0), B(1500.0, 30.0, 0.06); A.AddWin(B);] *)
Definition zero_volatility_A
    (exp64 log64 : PrimFloat.float -> PrimFloat.float)
    : Glicko2 PrimFloat.float :=
  AddWin (H := binary64 exp64 log64)
         (Glicko2_new (H := binary64 exp64 log64)
            (Q_to_binary64 1500) (Q_to_binary64 200) (Q_to_binary64 0))
         (Glicko2_new (H := binary64 exp64 log64)
            (Q_to_binary64 1500) (Q_to_binary64 30) (Q_to_binary64 0.06)).

(** The least positive [double], [2^-1074]. *)
Definition DBL_TRUE_MIN : PrimFloat.float :=
  FloatOps.SF2Prim (SpecFloat.S754_finite false 1 (-1074)).

(** Two assumptions on the accuracy of [exp] and [log], for the runs that
    need more than the special values.  Below [-746] the exponential is less
    than a quarter of [2^-1074]: an [exp] that returns one of the two
    doubles around the exact value returns [+0] or [2^-1074] there.  And the
    logarithm of the square of the default volatility [0.06], which is about
    [-5.63], is further than [0.0000001] from zero. *)
Definition exp_underflows (exp64 : PrimFloat.float -> PrimFloat.float)
    : Prop :=
  forall x, PrimFloat.leb x (Q_to_binary64 (-746)) = true ->
            exp64 x = PrimFloat.zero \/ exp64 x = DBL_TRUE_MIN.

Definition log_of_default_volatility
    (log64 : PrimFloat.float -> PrimFloat.float) : Prop :=
  PrimFloat.ltb (Q_to_binary64 0.0000001)
    (PrimFloat.abs
       (PrimFloat.sub (Q_to_binary64 0)
          (log64 (PrimFloat.mul (Q_to_binary64 0.06) (Q_to_binary64 0.06)))))
  = true.

(** Two functions that meet Annex F and both assumptions: [exp] flushes to
    zero below [-746], [log] is [x - 1] where Annex F fixes nothing. *)
Definition exp_flushing (x : PrimFloat.float) : PrimFloat.float :=
  if PrimFloat.leb x (Q_to_binary64 (-746)) then PrimFloat.zero
  else if PrimFloat.is_zero x then PrimFloat.one
  else if PrimFloat.Leibniz.eqb x PrimFloat.infinity then PrimFloat.infinity
  else PrimFloat.nan.

Definition log_linear (x : PrimFloat.float) : PrimFloat.float :=
  if PrimFloat.is_zero x then PrimFloat.neg_infinity
  else if PrimFloat.Leibniz.eqb x PrimFloat.infinity then PrimFloat.infinity
  else if PrimFloat.ltb x PrimFloat.zero then PrimFloat.nan
  else PrimFloat.sub x PrimFloat.one.

(** [Glicko2 A(200000.0, 200.0, 0.06), B(1500.0, 30.0, 0.06); A.AddWin(B);] *)
Definition outclassing_A
    (exp64 log64 : PrimFloat.float -> PrimFloat.float)
    : Glicko2 PrimFloat.float :=
  AddWin (H := binary64 exp64 log64)
         (Glicko2_new (H := binary64 exp64 log64)
            (Q_to_binary64 200000) (Q_to_binary64 200) (Q_to_binary64 0.06))
         (Glicko2_new (H := binary64 exp64 log64)
            (Q_to_binary64 1500) (Q_to_binary64 30) (Q_to_binary64 0.06)).

(** ** Objects in the free store

    The heap of named values above has no pointers in it, so it cannot tell
    a stored copy from a stored reference.  Where that difference is the
    question, the objects are modelled as the code lays them out: a
    [Glicko2] is its pointer [pimpl], a [Glicko2_impl] is a cell of the free
    store, and the vector [opponents] of a cell holds the [pimpl] of each
    [Glicko2] stored in it.  [new] hands out the addresses 0, 1, 2, ... in
    the order of the calls; [delete] is not modelled, a cell that the code
    has freed stays where it is and is never reached again. *)

Record Glicko2_impl (D : Type) : Type := mkImpl {
  impl_rating     : D;
  impl_deviation  : D;
  impl_volatility : D;
  impl_opponents  : list nat;   (* [opponents[i].pimpl] *)
  impl_results    : list D
}.

Arguments mkImpl {D} _ _ _ _ _.
Arguments impl_rating {D} _.
Arguments impl_deviation {D} _.
Arguments impl_volatility {D} _.
Arguments impl_opponents {D} _.
Arguments impl_results {D} _.

Record memory (D : Type) : Type := mkMemory {
  cells   : gmap nat (Glicko2_impl D);  (* the cells [new] has made *)
  objects : gmap nat nat;               (* [pimpl] of each named object *)
  next    : nat                         (* the address [new] returns next *)
}.

Arguments mkMemory {D} _ _ _.
Arguments cells {D} _.
Arguments objects {D} _.
Arguments next {D} _.

Section Pointers.

Context {D : Type} `{Double D}.

Definition empty_memory : memory D := mkMemory ∅ ∅ 0.

(** [new Glicko2_impl(...)], [*l = c] and the declaration of a name. *)
Definition new_impl (c : Glicko2_impl D) (m : memory D) : nat * memory D :=
  (next m, mkMemory (<[next m := c]> (cells m)) (objects m) (S (next m))).

Definition write (l : nat) (c : Glicko2_impl D) (m : memory D) : memory D :=
  mkMemory (<[l := c]> (cells m)) (objects m) (next m).

Definition declare (self l : nat) (m : memory D) : memory D :=
  mkMemory (cells m) (<[self := l]> (objects m)) (next m).

(** The copy constructor of [std::vector<Glicko2>]: every element is built
    by the copy constructor of [Glicko2], in order. *)
Fixpoint copy_vector (copy : nat -> memory D -> option (nat * memory D))
    (v : list nat) (m : memory D) : option (list nat * memory D) :=
  match v with
  | [] => Some ([], m)
  | l :: v' =>
      '(p, m1) ← copy l m;
      '(ps, m2) ← copy_vector copy v' m1;
      Some (p :: ps, m2)
  end.

(** [Glicko2::Glicko2(const Glicko2& rhs)] is
    [pimpl = new Glicko2_impl( *rhs.pimpl )], and the copy constructor of
    [Glicko2_impl] copies the three numbers and the two vectors, the vector
    of opponents element by element with the constructor it is called
    from.  [depth] bounds the nesting of the recursion; [copy_object] gives
    it a bound that no memory built by the statements exceeds (lemma
    [copy_object_returns]).  [None] is a read at an address that holds no
    cell. *)
Fixpoint copy_impl (depth : nat) (src : nat) (m : memory D)
    : option (nat * memory D) :=
  match depth with
  | O => None
  | S depth' =>
      c ← cells m !! src;
      '(ps, m') ← copy_vector (copy_impl depth') (impl_opponents c) m;
      Some (new_impl (mkImpl (impl_rating c) (impl_deviation c)
                             (impl_volatility c) ps (impl_results c)) m')
  end.

Definition copy_object (src : nat) (m : memory D) : option (nat * memory D) :=
  copy_impl (S (next m)) src m.

(** The three numbers of a cell as an object without results, and a cell
    with its numbers replaced: the members that only touch the numbers are
    the functions of the class [Glicko2] above, applied to them. *)
Definition impl_numbers (c : Glicko2_impl D) : Glicko2 D :=
  mkGlicko2 (impl_rating c) (impl_deviation c) (impl_volatility c) [] [].

Definition with_numbers (s : Glicko2 D) (c : Glicko2_impl D) : Glicko2_impl D :=
  mkImpl (rating s) (deviation s) (volatility s)
         (impl_opponents c) (impl_results c).

(** What [Update] reads through [pimpl] at address [l]: the cell, and of
    each [opponents[i].pimpl] the numbers. *)
Definition view (m : memory D) (l : nat) : option (Glicko2 D) :=
  c ← cells m !! l;
  snapshots ← mapM (fun l' => impl_numbers <$> cells m !! l') (impl_opponents c);
  Some (mkGlicko2 (impl_rating c) (impl_deviation c) (impl_volatility c)
                  snapshots (impl_results c)).

(** A member that assigns to the cell of [self]. *)
Definition modify (self : nat) (f : Glicko2_impl D -> Glicko2_impl D)
    (m : memory D) : memory D :=
  match objects m !! self with
  | Some l =>
      match cells m !! l with
      | Some c => write l (f c) m
      | None => m
      end
  | None => m
  end.

(** A constructor: [pimpl = new Glicko2_impl()], then the three setters. *)
Definition construct (self : nat) (s : Glicko2 D) (m : memory D) : memory D :=
  let '(l, m') := new_impl (with_numbers s (mkImpl (lit 0.0) (lit 0.0) (lit 0.0) [] [])) m in
  declare self l m'.

(** [self.AddResult(opponent, result)]: [push_back(opponent)] builds the new
    element with the copy constructor, then the score is pushed.  (When the
    vector has to grow, the library copies the elements it holds into a
    larger buffer and frees the old ones; the model leaves them where they
    are.) *)
Definition push_result (self opponent : nat) (result : RESULT) (m : memory D)
    : outcome (memory D) :=
  match objects m !! self, objects m !! opponent with
  | Some _, Some lo =>
      match copy_object lo m with
      | Some (p, m') =>
          Ret (modify self
                 (fun c => mkImpl (impl_rating c) (impl_deviation c)
                                  (impl_volatility c)
                                  (impl_opponents c ++ [p])
                                  (impl_results c ++ [score result])) m')
      | None => OutOfBounds
      end
  | _, _ => Ret m
  end.

Definition p_exec (fuel : nat) (c : stmt D) (m : memory D)
    : outcome (memory D) :=
  match c with
  | New_default self => Ret (construct self Glicko2_default m)
  | New_with self r d v => Ret (construct self (Glicko2_new r d v) m)
  | New_copy self rhs =>
      match objects m !! rhs with
      | Some lr =>
          match copy_object lr m with
          | Some (p, m') => Ret (declare self p m')
          | None => OutOfBounds
          end
      | None => Ret m
      end
  | Assign self rhs =>
      (* [*pimpl = *rhs.pimpl] unless [this == &rhs].  Whether the vector
         assigns to the elements it holds or frees them and builds new ones
         is the choice of the library; the model builds new ones. *)
      if Nat.eqb self rhs then Ret m else
      match objects m !! self, objects m !! rhs with
      | Some l, Some lr =>
          match cells m !! lr with
          | Some cr =>
              match copy_vector (copy_impl (next m)) (impl_opponents cr) m with
              | Some (ps, m') =>
                  Ret (write l (mkImpl (impl_rating cr) (impl_deviation cr)
                                       (impl_volatility cr) ps
                                       (impl_results cr)) m')
              | None => OutOfBounds
              end
          | None => OutOfBounds
          end
      | _, _ => Ret m
      end
  | Call_SetRating self x =>
      Ret (modify self (fun c => with_numbers (SetRating (impl_numbers c) x) c) m)
  | Call_SetDeviation self x =>
      Ret (modify self (fun c => with_numbers (SetDeviation (impl_numbers c) x) c) m)
  | Call_SetVolatility self x =>
      Ret (modify self (fun c => with_numbers (SetVolatility (impl_numbers c) x) c) m)
  | Call_ClearResults self =>
      Ret (modify self (fun c => mkImpl (impl_rating c) (impl_deviation c)
                                        (impl_volatility c) [] []) m)
  | Call_AddResult self opponent result => push_result self opponent result m
  | Call_AddWin self opponent => push_result self opponent WIN m
  | Call_AddLoss self opponent => push_result self opponent LOSS m
  | Call_AddDraw self opponent => push_result self opponent DRAW m
  | Call_Update self =>
      match objects m !! self with
      | Some l =>
          match view m l with
          | Some s =>
              if Nat.eqb (length (opponents s)) 0 then Ret m else
              s' ← Update fuel s;
              Ret (write l (mkImpl (rating s') (deviation s') (volatility s')
                                   [] []) m)
          | None => OutOfBounds
          end
      | None => Ret m
      end
  end.

Fixpoint p_run (fuel : nat) (p : list (stmt D)) (m : memory D)
    : outcome (memory D) :=
  match p with
  | [] => Ret m
  | c :: p' => m' ← p_exec fuel c m; p_run fuel p' m'
  end.

(** What the caller finds through [k.pimpl] once the call has returned. *)
Definition p_observe (k : nat) (o : outcome (memory D))
    : outcome (option (Glicko2 D)) :=
  m ← o; Ret (l ← objects m !! k; view m l).

(** The memories the statements build: every cell lies below [next]; every
    named object has a cell of its own; and the elements of a vector
    are cells that were made for it, not the cell of a named object.  The
    last clause bounds the nesting: an element was made after the elements
    of its own vector were. *)
Definition well_formed (m : memory D) : Prop :=
  (forall l c, cells m !! l = Some c -> (l < next m)%nat)
  /\ (forall k l, objects m !! k = Some l -> is_Some (cells m !! l))
  /\ (forall k k' l, objects m !! k = Some l -> objects m !! k' = Some l -> k = k')
  /\ (forall l c l', cells m !! l = Some c -> l' ∈ impl_opponents c ->
        is_Some (cells m !! l')
        /\ (forall k, objects m !! k <> Some l')
        /\ (forall c' l'', cells m !! l' = Some c' -> l'' ∈ impl_opponents c' ->
              (l'' < l')%nat)).

(** [m'] is [m] with more cells. *)
Definition extends (m m' : memory D) : Prop :=
  (next m <= next m')%nat
  /\ objects m' = objects m
  /\ (forall l, (l < next m)%nat -> cells m' !! l = cells m !! l).

(** What a copy leaves: a well-formed memory with more cells, and at the
    address returned a new cell that is no named object and whose vector
    holds cells below it. *)
Definition copied (m m' : memory D) (p : nat) : Prop :=
  well_formed m' /\ extends m m'
  /\ (next m <= p < next m')%nat
  /\ (forall k, objects m' !! k <> Some p)
  /\ exists cp, cells m' !! p = Some cp
                /\ forall l'', l'' ∈ impl_opponents cp -> (l'' < p)%nat.

(** What a statement leaves alone: the names other than its receiver, and
    every cell but the one of its receiver. *)
Definition frames (self : nat) (m m' : memory D) : Prop :=
  (forall k, k <> self -> objects m' !! k = objects m !! k)
  /\ (forall l c, cells m !! l = Some c -> objects m !! self <> Some l ->
        cells m' !! l = Some c).

End Pointers.

(** * Properties *)

(** [real_ops] unfolds the operations of [Double] at the instance over the
    real numbers; [literals] turns the decimal literals into quotients of
    integers, which [field] needs. *)
Ltac real_ops :=
  cbn [lit dadd dsub dmul ddiv dneg dsqrt dexp dlog dabs dgt dlt R_double] in *.

Ltac literals := unfold Q2R in *; cbn [Qnum Qden] in *.

(** ** The [for] loops *)

Section Loops.

Context {D : Type} `{Double D}.
Local Open Scope dbl_scope.

Lemma for_loop_fold_from {A B : Type} (body : nat -> A -> outcome A)
    (f : A -> B -> A) (l : list B) :
  forall first acc,
    (forall i b acc', l !! i = Some b -> body (first + i)%nat acc' = Ret (f acc' b)) ->
    for_loop body first (length l) acc = Ret (fold_left f l acc).
Proof.
  induction l as [|b l IH]; intros first acc Hbody; simpl.
  - reflexivity.
  - rewrite <- (Nat.add_0_r first) at 1.
    rewrite (Hbody 0%nat b acc eq_refl). simpl.
    apply IH. intros i b' acc' Hi.
    replace (S first + i)%nat with (first + S i)%nat by lia.
    apply Hbody. exact Hi.
Qed.

Lemma for_loop_fold {A B : Type} (body : nat -> A -> outcome A)
    (f : A -> B -> A) (l : list B) (acc : A) :
  (forall i b acc', l !! i = Some b -> body i acc' = Ret (f acc' b)) ->
  for_loop body 0 (length l) acc = Ret (fold_left f l acc).
Proof.
  intros Hbody. apply for_loop_fold_from. intros i b acc' Hi.
  simpl. apply Hbody. exact Hi.
Qed.

Lemma at_index_Some {A : Type} (v : list A) (i : nat) (a : A) :
  v !! i = Some a -> at_index v i = Ret a.
Proof. intros Hi. unfold at_index. rewrite Hi. reflexivity. Qed.

Lemma games_length (s : Glicko2 D) :
  paired s -> length (games s) = length (opponents s).
Proof.
  unfold paired, games. intros Hp.
  rewrite length_zip_with. lia.
Qed.

Lemma games_lookup (s : Glicko2 D) (i : nat) (j : Glicko2 D * D) :
  games s !! i = Some j ->
  opponents s !! i = Some j.1 /\ results s !! i = Some j.2.
Proof.
  unfold games. intros Hj.
  apply lookup_zip_with_Some in Hj as (o & r & -> & Ho & Hr).
  simpl. split; assumption.
Qed.

(** The first loop of [Update]. *)
Lemma for_loop_variance (s : Glicko2 D) :
  for_loop (variance_body s) 0 (length (opponents s)) (lit 0.0)
  = Ret (variance_sum s).
Proof.
  unfold variance_sum. apply for_loop_fold.
  intros i o acc Hi. unfold variance_body.
  rewrite (at_index_Some _ _ _ Hi). reflexivity.
Qed.

(** The second and the third loop of [Update]. *)
Lemma for_loop_delta (s : Glicko2 D) :
  paired s ->
  for_loop (delta_body s) 0 (length (opponents s)) (lit 0.0)
  = Ret (score_sum s).
Proof.
  intros Hp. rewrite <- (games_length s Hp).
  unfold score_sum. apply for_loop_fold.
  intros i j acc Hi. apply games_lookup in Hi as [Ho Hr].
  unfold delta_body.
  rewrite (at_index_Some _ _ _ Ho). simpl.
  rewrite (at_index_Some _ _ _ Hr). reflexivity.
Qed.

(** [Update] on an object with recorded games: the [while] loop, then the
    assignments. *)
Lemma Update_unfold (fuel : nat) (s : Glicko2 D) :
  paired s -> opponents s <> [] ->
  Update fuel s = (x_new ← Update_solve fuel s; Ret (Update_commit s x_new)).
Proof.
  intros Hp Hne. unfold Update.
  destruct (opponents s) as [|o os] eqn:Hos; [congruence|].
  change (Nat.eqb (length (o :: os)) 0) with false. cbv iota.
  rewrite <- Hos.
  rewrite for_loop_variance. simpl.
  rewrite (for_loop_delta s Hp). simpl.
  unfold Update_solve, Update_variance, Update_delta, Update_a.
  destruct (solve_loop _ _ _ _ _ _ _) as [x_new| |]; simpl; reflexivity.
Qed.

(** An [Update] that leaves the [while] loop returns. *)
Lemma Update_returns (fuel : nat) (s : Glicko2 D) (x_new : D) :
  paired s -> opponents s <> [] ->
  Update_solve fuel s = Ret x_new ->
  Update fuel s = Ret (Update_commit s x_new).
Proof.
  intros Hp Hne Hx. rewrite (Update_unfold fuel s Hp Hne), Hx. reflexivity.
Qed.

End Loops.

(** ** The [while] loop *)

Section Solver.

Context {D : Type} `{Double D}.
Local Open Scope dbl_scope.

Lemma loop_from_0 (fuel : nat) (s : Glicko2 D) :
  loop_from fuel s 0 = Update_solve fuel s.
Proof. reflexivity. Qed.

Lemma loop_from_exit (fuel : nat) (s : Glicko2 D) (k : nat) :
  guard_fails s k -> loop_from fuel s k = Ret (x_new_at s k).
Proof.
  unfold guard_fails, loop_from. intros Hg.
  destruct fuel; simpl; rewrite Hg; reflexivity.
Qed.

Lemma loop_from_step (fuel : nat) (s : Glicko2 D) (k : nat) :
  ~ guard_fails s k -> loop_from (S fuel) s k = loop_from fuel s (S k).
Proof.
  unfold guard_fails, loop_from. intros Hg.
  apply not_false_is_true in Hg. simpl. rewrite Hg. reflexivity.
Qed.

Lemma loop_from_timeout (s : Glicko2 D) (k : nat) :
  ~ guard_fails s k -> loop_from 0 s k = Timeout.
Proof.
  unfold guard_fails, loop_from. intros Hg.
  apply not_false_is_true in Hg. simpl. rewrite Hg. reflexivity.
Qed.

Lemma guard_fails_dec (s : Glicko2 D) (k : nat) :
  guard_fails s k \/ ~ guard_fails s k.
Proof.
  unfold guard_fails.
  destruct (dabs (x_at s k - x_new_at s k) >? lit 0.0000001); auto.
Qed.

(** A guard that fails [n] tests ahead ends the loop within [n] iterations. *)
Lemma loop_from_converges (s : Glicko2 D) (n : nat) :
  forall k, guard_fails s (k + n) -> exists x_new, loop_from n s k = Ret x_new.
Proof.
  induction n as [|n IH]; intros k Hg.
  - rewrite Nat.add_0_r in Hg. eexists. apply loop_from_exit. exact Hg.
  - destruct (guard_fails_dec s k) as [Hk|Hk].
    + eexists. apply loop_from_exit. exact Hk.
    + rewrite (loop_from_step n s k Hk). apply IH.
      replace (S k + n)%nat with (k + S n)%nat by lia. exact Hg.
Qed.

(** A loop that ends has met a failing guard, and returns the [x_new] of
    that test. *)
Lemma loop_from_Ret (s : Glicko2 D) (fuel : nat) :
  forall k x_new, loop_from fuel s k = Ret x_new ->
    exists n, (n <= fuel)%nat /\ guard_fails s (k + n) /\ x_new = x_new_at s (k + n).
Proof.
  induction fuel as [|fuel IH]; intros k x_new Hr.
  - destruct (guard_fails_dec s k) as [Hk|Hk].
    + exists 0%nat. rewrite Nat.add_0_r. rewrite (loop_from_exit 0 s k Hk) in Hr.
      split; [lia|]. split; [exact Hk|]. congruence.
    + rewrite (loop_from_timeout s k Hk) in Hr. discriminate.
  - destruct (guard_fails_dec s k) as [Hk|Hk].
    + exists 0%nat. rewrite Nat.add_0_r.
      rewrite (loop_from_exit (S fuel) s k Hk) in Hr.
      split; [lia|]. split; [exact Hk|]. congruence.
    + rewrite (loop_from_step fuel s k Hk) in Hr.
      destruct (IH (S k) x_new Hr) as (n & Hn & Hg & Hx).
      exists (S n). replace (k + S n)%nat with (S k + n)%nat by lia.
      split; [lia|]. split; assumption.
Qed.

(** While every guard holds the loop keeps running, whatever the budget. *)
Lemma loop_from_runs (s : Glicko2 D) (fuel : nat) :
  forall k, (forall n, ~ guard_fails s (k + n)) -> loop_from fuel s k = Timeout.
Proof.
  induction fuel as [|fuel IH]; intros k Hall.
  - apply loop_from_timeout. specialize (Hall 0%nat).
    rewrite Nat.add_0_r in Hall. exact Hall.
  - rewrite loop_from_step.
    + apply IH. intros n. specialize (Hall (S n)).
      replace (k + S n)%nat with (S k + n)%nat in Hall by lia. exact Hall.
    + specialize (Hall 0%nat). rewrite Nat.add_0_r in Hall. exact Hall.
Qed.

Lemma solve_loop_in_bounds (fuel : nat) (dev var delta a : D) :
  forall x x_new, solve_loop fuel dev var delta a x x_new <> OutOfBounds.
Proof.
  induction fuel as [|fuel IH]; intros x x_new; simpl;
    destruct (dabs (x - x_new) >? lit 0.0000001); try discriminate.
  apply IH.
Qed.

(** More budget does not change a result. *)
Lemma solve_loop_mono (fuel fuel' : nat) (dev var delta a : D) :
  (fuel <= fuel')%nat ->
  forall x x_new r,
    solve_loop fuel dev var delta a x x_new = Ret r ->
    solve_loop fuel' dev var delta a x x_new = Ret r.
Proof.
  revert fuel'. induction fuel as [|fuel IH]; intros fuel' Hle x x_new r; simpl.
  - destruct (dabs (x - x_new) >? lit 0.0000001) eqn:Hg; [discriminate|].
    intros Hr. destruct fuel'; simpl; rewrite Hg; exact Hr.
  - destruct (dabs (x - x_new) >? lit 0.0000001) eqn:Hg.
    + destruct fuel' as [|fuel']; [lia|]. simpl. rewrite Hg.
      apply IH. lia.
    + intros Hr. destruct fuel'; simpl; rewrite Hg; exact Hr.
Qed.

End Solver.

(** ** [Update] *)

Section Update_facts.

Context {D : Type} `{Double D}.
Local Open Scope dbl_scope.

(** [if ( pimpl->opponents.size() == 0 ) return;] *)
Lemma Update_bail (fuel : nat) (s : Glicko2 D) :
  opponents s = [] -> Update fuel s = Ret s.
Proof.
  intros Hs. unfold Update. rewrite Hs. reflexivity.
Qed.

(** C3.  On an object without recorded games [Update] returns at once, for
    every budget and every arithmetic, and the object it leaves is the object
    it found: rating, deviation and volatility are the very same values, and
    both vectors are as they were, the opponents vector empty. *)
Theorem Update_without_results (fuel : nat) (s : Glicko2 D) :
  opponents s = [] ->
  Update fuel s = Ret s
  /\ (forall s', Update fuel s = Ret s' ->
        rating s' = rating s /\ deviation s' = deviation s
        /\ volatility s' = volatility s
        /\ opponents s' = [] /\ results s' = results s).
Proof.
  intros Hs. split; [apply Update_bail; exact Hs|].
  intros s'. rewrite (Update_bail fuel s Hs). intros [= <-].
  repeat split; try reflexivity. exact Hs.
Qed.

Lemma Update_in_bounds (fuel : nat) (s : Glicko2 D) :
  paired s -> Update fuel s <> OutOfBounds.
Proof.
  intros Hp. destruct (opponents s) as [|o os] eqn:Hos.
  - rewrite (Update_bail fuel s Hos). discriminate.
  - rewrite (Update_unfold fuel s Hp) by (rewrite Hos; discriminate).
    unfold Update_solve.
    pose proof (solve_loop_in_bounds fuel (deviation s) (Update_variance s)
                  (Update_delta s) (Update_a s) (lit 0.0) (Update_a s)) as Hb.
    destruct (solve_loop _ _ _ _ _ _ _); simpl; congruence.
Qed.

Lemma Update_paired (fuel : nat) (s s' : Glicko2 D) :
  paired s -> Update fuel s = Ret s' -> paired s'.
Proof.
  intros Hp. destruct (opponents s) as [|o os] eqn:Hos.
  - rewrite (Update_bail fuel s Hos). intros [= <-]. exact Hp.
  - rewrite (Update_unfold fuel s Hp) by (rewrite Hos; discriminate).
    destruct (Update_solve fuel s); simpl; try discriminate.
    intros [= <-]. reflexivity.
Qed.

(** C5, as the code has it.  The [while] loop has no counter.  On an object
    with recorded games [Update] returns, given budget enough, exactly when
    the guard [abs(x - x_new) > 0.0000001] is false at one of its tests,
    where [x] and [x_new] run through [0.0], [a], and the Newton iterates
    that follow; when the guard never fails the loop never ends. *)
Theorem Update_terminates_iff (s : Glicko2 D) :
  paired s -> opponents s <> [] ->
  (exists fuel s', Update fuel s = Ret s') <-> (exists k, guard_fails s k).
Proof.
  intros Hp Hne. split.
  - intros (fuel & s' & Hu).
    rewrite (Update_unfold fuel s Hp Hne) in Hu.
    destruct (Update_solve fuel s) as [x_new| |] eqn:Hx; simpl in Hu;
      try discriminate.
    rewrite <- loop_from_0 in Hx.
    destruct (loop_from_Ret s fuel 0 x_new Hx) as (n & _ & Hg & _).
    exists n. exact Hg.
  - intros (k & Hg).
    destruct (loop_from_converges s k 0 Hg) as (x_new & Hx).
    rewrite loop_from_0 in Hx.
    exists k, (Update_commit s x_new).
    apply Update_returns; assumption.
Qed.

(** C6, as the code has it.  [Update] has no failure to report and makes no
    partial commit.  On an object with recorded games: as long as the
    [while] loop is running the call has produced nothing (the assignments
    to the object come after the loop); once the loop has ended the call
    returns the object with the three new values assigned and both vectors
    cleared; and no read falls outside a vector. *)
Theorem Update_all_or_nothing (fuel : nat) (s : Glicko2 D) :
  paired s -> opponents s <> [] ->
  (Update_solve fuel s = Timeout -> Update fuel s = Timeout)
  /\ (forall x_new, Update_solve fuel s = Ret x_new ->
        Update fuel s = Ret (Update_commit s x_new)
        /\ opponents (Update_commit s x_new) = []
        /\ results (Update_commit s x_new) = [])
  /\ Update fuel s <> OutOfBounds.
Proof.
  intros Hp Hne. split; [|split].
  - intros Hx. rewrite (Update_unfold fuel s Hp Hne), Hx. reflexivity.
  - intros x_new Hx. split; [|split; reflexivity].
    apply Update_returns; assumption.
  - apply Update_in_bounds. exact Hp.
Qed.

Lemma Glicko2_copy_same (rhs : Glicko2 D) : Glicko2_copy rhs = rhs.
Proof. destruct rhs. reflexivity. Qed.

Lemma for_loop_ext {A : Type} (body body' : nat -> A -> outcome A) (n : nat) :
  forall first acc,
    (forall i acc', (first <= i < first + n)%nat -> body i acc' = body' i acc') ->
    for_loop body first n acc = for_loop body' first n acc.
Proof.
  induction n as [|n IH]; intros first acc Hb; simpl; [reflexivity|].
  rewrite (Hb first acc) by lia.
  destruct (body' first acc) as [acc'| |]; simpl; try reflexivity.
  apply IH. intros i acc'' Hi. apply Hb. lia.
Qed.

Lemma same_snapshot_lookup (l l' : list (Glicko2 D)) (i : nat) :
  Forall2 same_snapshot l l' ->
  match l !! i, l' !! i with
  | Some o, Some o' => same_snapshot o o'
  | None, None => True
  | _, _ => False
  end.
Proof.
  intros Hl. revert i. induction Hl as [|o o' l l' Ho _ IH]; intros i.
  - reflexivity.
  - destruct i as [|i]; simpl; [exact Ho|apply IH].
Qed.

(** Two objects that differ in their stored opponents only, and there in
    nothing that [Update] reads, are updated alike. *)
Lemma Update_same_snapshots (fuel : nat) (s s' : Glicko2 D) :
  rating s = rating s' -> deviation s = deviation s' ->
  volatility s = volatility s' -> results s = results s' ->
  Forall2 same_snapshot (opponents s) (opponents s') ->
  Update fuel s = Update fuel s'.
Proof.
  intros Hr Hd Hv Hres Hopp.
  pose proof (Forall2_length _ _ _ Hopp) as Hlen.
  assert (Hvar : forall i acc, variance_body s i acc = variance_body s' i acc).
  { intros i acc. unfold variance_body, at_index.
    pose proof (same_snapshot_lookup _ _ i Hopp) as Hi.
    destruct (opponents s !! i) as [o|], (opponents s' !! i) as [o'|];
      try contradiction; [|reflexivity].
    destruct Hi as [Hro Hdo]. simpl. rewrite Hr, Hro, Hdo. reflexivity. }
  assert (Hdel : forall i acc, delta_body s i acc = delta_body s' i acc).
  { intros i acc. unfold delta_body, at_index.
    pose proof (same_snapshot_lookup _ _ i Hopp) as Hi.
    destruct (opponents s !! i) as [o|], (opponents s' !! i) as [o'|];
      try contradiction; [|reflexivity].
    destruct Hi as [Hro Hdo]. simpl. rewrite Hr, Hres, Hro, Hdo. reflexivity. }
  unfold Update. rewrite <- Hlen.
  destruct (Nat.eqb (length (opponents s)) 0) eqn:Hempty.
  - apply Nat.eqb_eq in Hempty.
    destruct s as [r d v o rs], s' as [r' d' v' o' rs']; simpl in *.
    subst r' d' v' rs'.
    destruct o; [|discriminate]. destruct o'; [|discriminate]. reflexivity.
  - rewrite (for_loop_ext (variance_body s) (variance_body s'))
      by (intros; apply Hvar).
    rewrite (for_loop_ext (delta_body s) (delta_body s'))
      by (intros; apply Hdel).
    rewrite Hr, Hd, Hv.
    reflexivity.
Qed.

End Update_facts.

(** ** Programs *)

Section Program_facts.

Context {D : Type} `{Double D}.

Lemma paired_insert (h : gmap nat (Glicko2 D)) (k : nat) (s : Glicko2 D) :
  paired_heap h -> paired s -> paired_heap (<[k := s]> h).
Proof.
  intros Hh Hs k' s'. destruct (decide (k = k')) as [->|Hne].
  - rewrite lookup_insert_eq. intros [= <-]. exact Hs.
  - rewrite lookup_insert_ne by exact Hne. apply Hh.
Qed.

Lemma paired_alter (h : gmap nat (Glicko2 D)) (k : nat)
    (f : Glicko2 D -> Glicko2 D) :
  paired_heap h -> (forall s, paired s -> paired (f s)) ->
  paired_heap (alter f k h).
Proof.
  intros Hh Hf k' s'. destruct (decide (k = k')) as [->|Hne].
  - rewrite lookup_alter_eq. destruct (h !! k') as [s|] eqn:Hs; simpl; [|discriminate].
    intros [= <-]. apply Hf. apply (Hh k' s Hs).
  - rewrite lookup_alter_ne by exact Hne. apply Hh.
Qed.

Lemma paired_call_with (h : gmap nat (Glicko2 D)) (self opponent : nat)
    (f : Glicko2 D -> Glicko2 D -> Glicko2 D) :
  paired_heap h -> (forall s o, paired s -> paired o -> paired (f s o)) ->
  paired_heap (call_with f self opponent h).
Proof.
  intros Hh Hf. unfold call_with.
  destruct (h !! opponent) as [o|] eqn:Ho; [|exact Hh].
  apply paired_alter; [exact Hh|].
  intros s Hs. apply Hf; [exact Hs|]. apply (Hh opponent o Ho).
Qed.

(** Each [AddResult] appends one entry to both vectors. *)
Lemma AddResult_lengths (s o : Glicko2 D) (result : RESULT) :
  length (opponents (AddResult s o result)) = S (length (opponents s))
  /\ length (results (AddResult s o result)) = S (length (results s)).
Proof. simpl. rewrite !length_app. simpl. lia. Qed.

Lemma AddResult_paired (s o : Glicko2 D) (result : RESULT) :
  paired s -> paired (AddResult s o result).
Proof.
  unfold paired. intros Hp.
  destruct (AddResult_lengths s o result) as [-> ->]. lia.
Qed.

Lemma exec_paired (fuel : nat) (c : stmt D) (h h' : gmap nat (Glicko2 D)) :
  paired_heap h -> exec fuel c h = Ret h' -> paired_heap h'.
Proof.
  intros Hh.
  destruct c; simpl.
  - intros [= <-]. apply paired_insert; [exact Hh|reflexivity].
  - intros [= <-]. apply paired_insert; [exact Hh|reflexivity].
  - destruct (h !! rhs) as [o|] eqn:Ho; intros [= <-]; [|exact Hh].
    apply paired_insert; [exact Hh|]. apply (Hh rhs o Ho).
  - destruct (Nat.eqb self rhs); intros [= <-]; [exact Hh|].
    apply paired_call_with; [exact Hh|]. intros s o _ Ho. exact Ho.
  - intros [= <-]. apply paired_alter; [exact Hh|]. intros s Hs. exact Hs.
  - intros [= <-]. apply paired_alter; [exact Hh|]. intros s Hs. exact Hs.
  - intros [= <-]. apply paired_alter; [exact Hh|]. intros s Hs. exact Hs.
  - intros [= <-]. apply paired_alter; [exact Hh|]. intros s Hs. reflexivity.
  - intros [= <-]. apply paired_call_with; [exact Hh|].
    intros s o Hs _. apply AddResult_paired. exact Hs.
  - intros [= <-]. apply paired_call_with; [exact Hh|].
    intros s o Hs _. apply AddResult_paired. exact Hs.
  - intros [= <-]. apply paired_call_with; [exact Hh|].
    intros s o Hs _. apply AddResult_paired. exact Hs.
  - intros [= <-]. apply paired_call_with; [exact Hh|].
    intros s o Hs _. apply AddResult_paired. exact Hs.
  - destruct (h !! self) as [s|] eqn:Hs; [|intros [= <-]; exact Hh].
    destruct (Update fuel s) as [s'| |] eqn:Hu; simpl; try discriminate.
    intros [= <-]. apply paired_insert; [exact Hh|].
    apply (Update_paired fuel s s' (Hh self s Hs) Hu).
Qed.

Lemma run_paired (fuel : nat) (p : list (stmt D)) :
  forall h h', paired_heap h -> run fuel p h = Ret h' -> paired_heap h'.
Proof.
  induction p as [|c p IH]; intros h h' Hh; simpl.
  - intros [= <-]. exact Hh.
  - destruct (exec fuel c h) as [h1| |] eqn:He; simpl; try discriminate.
    apply IH. apply (exec_paired fuel c h h1 Hh He).
Qed.

(** C10.  Whatever program of declarations and public calls has run, from
    the first declaration on, every object it leaves has as many opponents
    as it has results; and [Update] on such an object, which reads
    [results[i]] for every index [i] of [opponents], reads inside the
    vector. *)
Theorem paired_log_invariant (fuel : nat) (p : list (stmt D))
    (h : gmap nat (Glicko2 D)) (k : nat) (s : Glicko2 D) :
  run fuel p ∅ = Ret h -> h !! k = Some s ->
  length (opponents s) = length (results s)
  /\ (forall i, (i < length (opponents s))%nat -> is_Some (results s !! i))
  /\ (forall fuel', Update fuel' s <> OutOfBounds).
Proof.
  intros Hrun Hk.
  assert (Hp : paired s).
  { apply (run_paired fuel p ∅ h) with (k := k); [|exact Hrun|exact Hk].
    intros k' s'. rewrite lookup_empty. discriminate. }
  split; [exact Hp|]. split.
  - intros i Hi. apply lookup_lt_is_Some. unfold paired in Hp. lia.
  - intros fuel'. apply Update_in_bounds. exact Hp.
Qed.

End Program_facts.

(** ** Real arithmetic *)

Section Real_facts.

Local Open Scope R_scope.

Lemma g_real (phi : R) :
  g phi = 1 / sqrt (1 + 3 * phi * phi / 9.86960440108935861883).
Proof.
  unfold g, PI_SQUARED. real_ops.
  f_equal; [lra|]. f_equal. lra.
Qed.

Lemma E_real (mu mu_j phi_j : R) :
  E mu mu_j phi_j = 1 / (1 + exp (- g phi_j * (mu - mu_j))).
Proof.
  unfold E. real_ops.
  f_equal; [lra|]. f_equal. lra.
Qed.

Lemma g_pos (phi : R) : 0 < g phi.
Proof.
  rewrite g_real. apply Rdiv_lt_0_compat; [lra|].
  apply sqrt_lt_R0.
  assert (0 <= 3 * phi * phi / 9.86960440108935861883).
  { apply Rmult_le_pos; [nra|]. apply Rlt_le, Rinv_0_lt_compat. lra. }
  lra.
Qed.

Lemma g_0 : g 0 = 1.
Proof.
  rewrite g_real.
  replace (1 + 3 * 0 * 0 / 9.86960440108935861883) with 1 by lra.
  rewrite sqrt_1. lra.
Qed.

Lemma E_bounds (mu mu_j phi_j : R) : 0 < E mu mu_j phi_j < 1.
Proof.
  rewrite E_real.
  pose proof (exp_pos (- g phi_j * (mu - mu_j))) as He.
  split.
  - apply Rdiv_lt_0_compat; lra.
  - apply (Rmult_lt_reg_r (1 + exp (- g phi_j * (mu - mu_j)))); [lra|].
    unfold Rdiv. rewrite Rmult_assoc, Rinv_l by lra. lra.
Qed.

Lemma E_equal_strength (mu : R) : E mu mu 0 = 0.5.
Proof.
  rewrite E_real.
  replace (- g 0 * (mu - mu)) with 0 by ring.
  rewrite exp_0. lra.
Qed.

(** *** The scale conversions under rounding

    Every rounding multiplies by some [1 + d] with [|d| <= u]; the error of
    a chain of operations is followed one factor at a time. *)

Section Rounded_facts.

Variable rnd : R -> R.
Variable u : R.
Hypothesis u_small : 0 <= u <= 1 / 16.
Hypothesis rnd_error : relative_error u rnd.

Lemma rnd_factor (x : R) : exists d, Rabs d <= u /\ rnd x = x * (1 + d).
Proof.
  destruct (Req_dec x 0) as [->|Hx].
  - exists 0. split; [rewrite Rabs_R0; lra|].
    pose proof (rnd_error 0) as H0.
    rewrite Rabs_R0, Rmult_0_r, Rminus_0_r in H0.
    pose proof (Rabs_pos (rnd 0)).
    destruct (Req_dec (rnd 0) 0) as [->|Hn]; [lra|].
    apply Rabs_no_R0 in Hn. lra.
  - exists ((rnd x - x) / x). split.
    + unfold Rdiv. rewrite Rabs_mult, Rabs_inv.
      pose proof (rnd_error x) as He.
      assert (0 < Rabs x) as Hpos by (apply Rabs_pos_lt; exact Hx).
      apply (Rmult_le_reg_r (Rabs x)); [exact Hpos|].
      rewrite Rmult_assoc, Rinv_l by lra. lra.
    + field. exact Hx.
Qed.

Lemma error_step (p d e : R) :
  Rabs (p - 1) <= e -> Rabs d <= u ->
  Rabs (p * (1 + d) - 1) <= e * (1 + u) + u.
Proof.
  intros Hp Hd.
  replace (p * (1 + d) - 1) with ((p - 1) * (1 + d) + d) by ring.
  eapply Rle_trans; [apply Rabs_triang|].
  rewrite Rabs_mult.
  assert (Rabs (1 + d) <= 1 + u) as H1.
  { eapply Rle_trans; [apply Rabs_triang|]. rewrite Rabs_R1. lra. }
  pose proof (Rabs_pos (p - 1)). pose proof (Rabs_pos (1 + d)).
  assert (Rabs (p - 1) * Rabs (1 + d) <= e * (1 + u)) by nra.
  lra.
Qed.

(** The rounded literal [173.7178] is not zero. *)
Lemma rounded_scale_nonzero : rnd (Q2R 173.7178) <> 0.
Proof.
  destruct (rnd_factor (Q2R 173.7178)) as (dK & HdK & ->).
  assert (- u <= dK <= u)
    by (unfold Rabs in HdK; destruct (Rcase_abs dK); lra).
  literals.
  apply Rmult_integral_contrapositive_currified; [|lra].
  apply Rmult_integral_contrapositive_currified; [lra|].
  apply Rinv_neq_0_compat. lra.
Qed.

(** [((r - 1500.0) / 173.7178) * 173.7178 + 1500.0] with its four roundings:
    the factor [173.7178] cancels, three roundings act on [r - 1500.0] and
    the last one on the sum. *)
Lemma rounded_rating_round_trip (s : Glicko2 R) (r : R) :
  Rabs (GetRating (H := rounded rnd) (SetRating (H := rounded rnd) s r) - r)
  <= u * (5 * Rabs r + 9600).
Proof.
  unfold GetRating, SetRating. cbn [rating dadd dsub dmul ddiv lit rounded].
  pose proof rounded_scale_nonzero as HK0.
  set (C := rnd (Q2R 1500.0)). set (K := rnd (Q2R 173.7178)) in *.
  destruct (rnd_factor (Q2R 1500.0)) as (dC & HdC & HC). fold C in HC.
  destruct (rnd_factor (r - C)) as (d1 & Hd1 & ->).
  destruct (rnd_factor ((r - C) * (1 + d1) / K)) as (d2 & Hd2 & ->).
  destruct (rnd_factor ((r - C) * (1 + d1) / K * (1 + d2) * K))
    as (d3 & Hd3 & ->).
  destruct (rnd_factor ((r - C) * (1 + d1) / K * (1 + d2) * K * (1 + d3) + C))
    as (d4 & Hd4 & ->).
  set (P := (1 + d1) * (1 + d2) * (1 + d3) * (1 + d4)).
  replace (((r - C) * (1 + d1) / K * (1 + d2) * K * (1 + d3) + C) * (1 + d4)
           - r)
    with ((r - C) * (P - 1) + C * d4) by (unfold P; field; exact HK0).
  assert (HP : Rabs (P - 1) <= 5 * u).
  { assert (E1 : Rabs ((1 + d1) - 1) <= u)
      by (replace (1 + d1 - 1) with d1 by ring; exact Hd1).
    pose proof (error_step _ _ _ E1 Hd2) as E2.
    pose proof (error_step _ _ _ E2 Hd3) as E3.
    pose proof (error_step _ _ _ E3 Hd4) as E4.
    fold P in E4. eapply Rle_trans; [exact E4|]. nra. }
  assert (HCb : Rabs C <= 1594).
  { rewrite HC, Rabs_mult.
    assert (Rabs (1 + dC) <= 1 + u).
    { eapply Rle_trans; [apply Rabs_triang|]. rewrite Rabs_R1. lra. }
    assert (Rabs (Q2R 1500.0) = 1500) as ->.
    { literals. rewrite Rabs_right; lra. }
    pose proof (Rabs_pos (1 + dC)). nra. }
  eapply Rle_trans; [apply Rabs_triang|]. rewrite !Rabs_mult.
  assert (Rabs (r - C) <= Rabs r + 1594).
  { eapply Rle_trans; [apply Rabs_triang|]. rewrite Rabs_Ropp. lra. }
  pose proof (Rabs_pos (r - C)). pose proof (Rabs_pos (P - 1)).
  pose proof (Rabs_pos C). pose proof (Rabs_pos d4). pose proof (Rabs_pos r).
  assert (Rabs (r - C) * Rabs (P - 1) <= (Rabs r + 1594) * (5 * u)) by nra.
  assert (Rabs C * Rabs d4 <= 1594 * u) by nra.
  nra.
Qed.

(** [(rd / 173.7178) * 173.7178] with its two roundings. *)
Lemma rounded_deviation_round_trip (s : Glicko2 R) (rd : R) :
  Rabs (GetDeviation (H := rounded rnd) (SetDeviation (H := rounded rnd) s rd)
        - rd)
  <= 3 * u * Rabs rd.
Proof.
  unfold GetDeviation, SetDeviation.
  cbn [deviation dadd dsub dmul ddiv lit rounded].
  pose proof rounded_scale_nonzero as HK0.
  set (K := rnd (Q2R 173.7178)) in *.
  destruct (rnd_factor (rd / K)) as (d1 & Hd1 & ->).
  destruct (rnd_factor (rd / K * (1 + d1) * K)) as (d2 & Hd2 & ->).
  replace (rd / K * (1 + d1) * K * (1 + d2) - rd)
    with (rd * ((1 + d1) * (1 + d2) - 1)) by (field; exact HK0).
  rewrite Rabs_mult.
  assert (E1 : Rabs ((1 + d1) - 1) <= u)
    by (replace (1 + d1 - 1) with d1 by ring; exact Hd1).
  pose proof (error_step _ _ _ E1 Hd2) as E2.
  pose proof (Rabs_pos rd). pose proof (Rabs_pos ((1 + d1) * (1 + d2) - 1)).
  assert (Rabs ((1 + d1) * (1 + d2) - 1) <= 3 * u) by nra.
  nra.
Qed.

End Rounded_facts.

Lemma rounding_away_error : relative_error (/ 2 ^ 53) rounding_away.
Proof.
  intros x. unfold rounding_away.
  replace (x * (1 + / 2 ^ 53) - x) with (/ 2 ^ 53 * x) by ring.
  rewrite Rabs_mult, (Rabs_right (/ 2 ^ 53)); [lra|].
  apply Rle_ge, Rlt_le, Rinv_0_lt_compat. lra.
Qed.

(** C8.  The setters and the getters are inverse affine maps: [SetRating]
    stores [(r - 1500) / 173.7178] and [GetRating] returns
    [mu * 173.7178 + 1500]; the deviation goes through [rd / 173.7178] and
    [phi * 173.7178].  Over the real numbers, reading back a rating or a
    deviation that was set gives exactly what was set.  When every literal
    and every operation is rounded with a relative error of at most [u]
    (and [u <= 1/16]), what is read back is within [u * (5 |r| + 9600)] of
    the rating [r] and within [3 u |rd|] of the deviation [rd].  In binary64
    the product can also overflow, which no tolerance covers
    ([binary64_round_trip_overflows]). *)
Theorem scale_round_trip :
  (forall (s : Glicko2 R) (r rd : R),
      (rating (SetRating s r) = (r - 1500) / 173.7178
       /\ GetRating s = rating s * 173.7178 + 1500
       /\ deviation (SetDeviation s rd) = rd / 173.7178
       /\ GetDeviation s = deviation s * 173.7178)
      /\ GetRating (SetRating s r) = r
      /\ GetDeviation (SetDeviation s rd) = rd)
  /\ (forall (rnd : R -> R) (u : R),
        0 <= u <= 1 / 16 ->
        relative_error u rnd ->
        forall (s : Glicko2 R) (r rd : R),
          Rabs (GetRating (H := rounded rnd)
                          (SetRating (H := rounded rnd) s r) - r)
          <= u * (5 * Rabs r + 9600)
          /\ Rabs (GetDeviation (H := rounded rnd)
                                (SetDeviation (H := rounded rnd) s rd) - rd)
             <= 3 * u * Rabs rd).
Proof.
  split.
  - intros s r rd.
    unfold GetRating, GetDeviation, SetRating, SetDeviation. simpl.
    real_ops. repeat split; lra.
  - intros rnd u Hu Hrnd s r rd. split.
    + apply (rounded_rating_round_trip rnd u Hu Hrnd s r).
    + apply (rounded_deviation_round_trip rnd u Hu Hrnd s rd).
Qed.

(** *** The sums *)

Lemma fold_left_big_sum {A : Type} (f : A -> R) (l : list A) (acc : R) :
  fold_left (fun acc j => acc + f j) l acc = acc + Spec.big_sum f l.
Proof.
  revert acc. induction l as [|j l IH]; intros acc; simpl.
  - lra.
  - rewrite IH. lra.
Qed.

Lemma big_sum_ext {A : Type} (f f' : A -> R) (l : list A) :
  (forall j, f j = f' j) -> Spec.big_sum f l = Spec.big_sum f' l.
Proof.
  intros Hf. induction l as [|j l IH]; simpl; [reflexivity|].
  rewrite Hf, IH. reflexivity.
Qed.

Lemma big_sum_fst {A B : Type} (f : A -> R) (l : list (A * B)) :
  Spec.big_sum (fun j => f j.1) l = Spec.big_sum f (l.*1).
Proof.
  induction l as [|j l IH]; simpl; [reflexivity|].
  rewrite IH. reflexivity.
Qed.

Lemma big_sum_pos {A : Type} (f : A -> R) (l : list A) :
  l <> [] -> (forall j, 0 < f j) -> 0 < Spec.big_sum f l.
Proof.
  intros Hl Hf. destruct l as [|j l]; [congruence|]. clear Hl. simpl.
  assert (0 <= Spec.big_sum f l).
  { induction l as [|j' l IH]; simpl; [lra|]. specialize (Hf j'). lra. }
  specialize (Hf j). lra.
Qed.

Lemma games_opponents (s : Glicko2 R) :
  paired s -> (games s).*1 = opponents s.
Proof.
  unfold paired, games. intros Hp. apply fst_zip. lia.
Qed.

(** The first loop computes the sum whose inverse is [v]. *)
Lemma variance_sum_real (s : Glicko2 R) :
  paired s ->
  variance_sum s
  = Spec.big_sum (fun j => Spec.g_j j ^ 2 * Spec.E_j s j * (1 - Spec.E_j s j))
                 (games s).
Proof.
  intros Hp. unfold variance_sum. real_ops.
  set (F := fun o : Glicko2 R =>
              g (deviation o) ^ 2 * E (rating s) (rating o) (deviation o)
              * (1 - E (rating s) (rating o) (deviation o))).
  rewrite (fold_left_big_sum
             (fun o => g (deviation o) * g (deviation o)
                       * E (rating s) (rating o) (deviation o)
                       * (Q2R 1.0 - E (rating s) (rating o) (deviation o)))).
  transitivity (Spec.big_sum F (opponents s)).
  - replace (Q2R 0.0) with 0 by lra. rewrite Rplus_0_l.
    apply big_sum_ext. intros o. unfold F. lra.
  - rewrite <- (games_opponents s Hp), <- (big_sum_fst F (games s)).
    apply big_sum_ext. intros j. reflexivity.
Qed.

(** The second and the third loop compute [Σ_j g_j * (score_j - E_j)]. *)
Lemma score_sum_real (s : Glicko2 R) : score_sum s = Spec.surprise s.
Proof.
  unfold score_sum, Spec.surprise. real_ops.
  rewrite (fold_left_big_sum
             (fun j => g (deviation j.1)
                       * (j.2 - E (rating s) (rating j.1) (deviation j.1)))).
  unfold Spec.g_j, Spec.E_j, Spec.score_j. lra.
Qed.

Lemma Update_variance_real (s : Glicko2 R) :
  paired s -> Update_variance s = Spec.v s.
Proof.
  intros Hp. unfold Update_variance, Spec.v. real_ops.
  rewrite (variance_sum_real s Hp). lra.
Qed.

Lemma Update_delta_real (s : Glicko2 R) :
  paired s -> Update_delta s = Spec.Delta s.
Proof.
  intros Hp. unfold Update_delta, Spec.Delta.
  rewrite (Update_variance_real s Hp), score_sum_real. real_ops. lra.
Qed.

Lemma variance_sum_pos (s : Glicko2 R) :
  opponents s <> [] -> 0 < variance_sum s.
Proof.
  intros Hne. unfold variance_sum. real_ops.
  rewrite (fold_left_big_sum
             (fun o => g (deviation o) * g (deviation o)
                       * E (rating s) (rating o) (deviation o)
                       * (Q2R 1.0 - E (rating s) (rating o) (deviation o)))).
  assert (0 < Spec.big_sum
            (fun o => g (deviation o) * g (deviation o)
                      * E (rating s) (rating o) (deviation o)
                      * (Q2R 1.0 - E (rating s) (rating o) (deviation o)))
            (opponents s)); [|lra].
  apply big_sum_pos; [exact Hne|]. intros o.
  pose proof (g_pos (deviation o)) as Hg.
  pose proof (E_bounds (rating s) (rating o) (deviation o)) as [HE0 HE1].
  apply Rmult_lt_0_compat; [|lra].
  apply Rmult_lt_0_compat; [|lra].
  apply Rmult_lt_0_compat; lra.
Qed.

Lemma Update_variance_pos (s : Glicko2 R) :
  opponents s <> [] -> 0 < Update_variance s.
Proof.
  intros Hne. unfold Update_variance. real_ops.
  apply Rdiv_lt_0_compat; [lra|]. apply variance_sum_pos. exact Hne.
Qed.

End Real_facts.

(** ** What [Update] commits *)

Section Commit.

Local Open Scope R_scope.

Lemma Update_commit_real (s : Glicko2 R) (x_new : R) :
  paired s ->
  Update_commit s x_new
  = mkGlicko2 (Spec.mu' s (exp (x_new / 2))) (Spec.phi' s (exp (x_new / 2)))
              (exp (x_new / 2)) [] [].
Proof.
  intros Hp. unfold Update_commit.
  rewrite (Update_variance_real s Hp), score_sum_real. real_ops.
  replace (x_new / Q2R 2.0) with (x_new / 2) by lra.
  set (sigma' := exp (x_new / 2)).
  assert (Hphi : Q2R 1.0 / sqrt (Q2R 1.0
                   / (sqrt (deviation s * deviation s + sigma' * sigma')
                      * sqrt (deviation s * deviation s + sigma' * sigma'))
                   + Q2R 1.0 / Spec.v s)
                 = Spec.phi' s sigma').
  { unfold Spec.phi', Spec.phi_star.
    replace (deviation s ^ 2 + sigma' ^ 2)
      with (deviation s * deviation s + sigma' * sigma') by ring.
    f_equal; [lra|]. f_equal. simpl pow. rewrite Rmult_1_r. lra. }
  rewrite Hphi. f_equal. unfold Spec.mu'. ring.
Qed.

(** C1.  Over the real numbers, on an object with recorded games whose
    run stays within the real numbers and whose [while] loop leaves [x_new]:
    the loop was entered with [variance = v = (Σ_j g_j^2 E_j (1-E_j))^-1] and
    [delta = Δ = v * Σ_j g_j (score_j - E_j)], and [Update] returns the
    object with volatility [sigma' = exp(x_new / 2)], deviation
    [phi' = 1/sqrt(1/phi_star^2 + 1/v)] for [phi_star = sqrt(deviation^2 +
    sigma'^2)], rating [mu' = rating + phi'^2 * Σ_j g_j (score_j - E_j)], and
    nothing else changed but the two vectors, which are empty.  Where the
    loop does not end nothing is committed ([cycling_A_commits_no_values]). *)
Theorem Update_commits_spec_values (fuel : nat) (s : Glicko2 R) (x_new : R) :
  paired s -> opponents s <> [] ->
  within_reals s ->
  Update_solve fuel s = Ret x_new ->
  Update_variance s = Spec.v s
  /\ Update_delta s = Spec.Delta s
  /\ Update fuel s
     = Ret (mkGlicko2 (Spec.mu' s (exp (x_new / 2)))
                      (Spec.phi' s (exp (x_new / 2)))
                      (exp (x_new / 2)) [] []).
Proof.
  intros Hp Hne _ Hx. split; [|split].
  - apply Update_variance_real. exact Hp.
  - apply Update_delta_real. exact Hp.
  - rewrite (Update_returns fuel s x_new Hp Hne Hx).
    rewrite (Update_commit_real s x_new Hp). reflexivity.
Qed.

Lemma Update_commit_positive (s : Glicko2 R) (x_new : R) :
  opponents s <> [] ->
  0 < deviation (Update_commit s x_new) /\ 0 < volatility (Update_commit s x_new).
Proof.
  intros Hne. unfold Update_commit. simpl. real_ops.
  pose proof (Update_variance_pos s Hne) as Hv. real_ops.
  set (sigma' := exp (x_new / Q2R 2.0)).
  assert (Hs : 0 < sigma') by apply exp_pos.
  split; [|exact Hs].
  set (pre := sqrt (deviation s * deviation s + sigma' * sigma')).
  assert (Hpre : 0 < pre).
  { apply sqrt_lt_R0. nra. }
  apply Rdiv_lt_0_compat; [lra|]. apply sqrt_lt_R0.
  apply Rplus_lt_0_compat; (apply Rdiv_lt_0_compat; [lra|]).
  - apply Rmult_lt_0_compat; exact Hpre.
  - exact Hv.
Qed.

(** C7.  Over the real numbers, on an object with recorded games: every
    term [E_j * (1 - E_j)] of the variance sum is strictly positive, so the
    sum that [1.0 / variance] divides by is strictly positive; and whenever
    the run stays within the real numbers and the [while] loop ends,
    [Update] returns an object whose deviation and volatility are strictly
    positive.  (A positive deviation before the call is not needed.)  On the
    machine the new deviation need not be finite
    ([binary64_Update_commits_NaN]). *)
Theorem Update_deviation_positive (fuel : nat) (s : Glicko2 R) (x_new : R) :
  paired s -> opponents s <> [] ->
  within_reals s ->
  Update_solve fuel s = Ret x_new ->
  (forall j, 0 < Spec.E_j s j * (1 - Spec.E_j s j))
  /\ 0 < variance_sum s
  /\ exists s', Update fuel s = Ret s' /\ 0 < deviation s' /\ 0 < volatility s'.
Proof.
  intros Hp Hne _ Hx. split; [|split].
  - intros j. unfold Spec.E_j.
    pose proof (E_bounds (rating s) (rating j.1) (deviation j.1)) as [H0 H1].
    apply Rmult_lt_0_compat; lra.
  - apply variance_sum_pos. exact Hne.
  - exists (Update_commit s x_new). split.
    + apply Update_returns; assumption.
    + apply Update_commit_positive. exact Hne.
Qed.

End Commit.

(** ** The [while] loop over the real numbers *)

Section Real_solver.

Local Open Scope R_scope.

Lemma solve_loop_enter (fuel : nat) (phi v Delta a x x_new : R) :
  Rabs (x - x_new) > 1e-7 ->
  solve_loop (S fuel) phi v Delta a x x_new
  = solve_loop fuel phi v Delta a x_new (newton_step phi v Delta a x_new).
Proof.
  intros Hg. simpl. real_ops.
  destruct (Rgt_dec (Rabs (x - x_new)) (Q2R 0.0000001)) as [_|Hn];
    [reflexivity|].
  exfalso. apply Hn. lra.
Qed.

Lemma solve_loop_running (phi v Delta a x x_new : R) :
  Rabs (x - x_new) > 1e-7 ->
  solve_loop 0 phi v Delta a x x_new = Timeout.
Proof.
  intros Hg. simpl. real_ops.
  destruct (Rgt_dec (Rabs (x - x_new)) (Q2R 0.0000001)) as [_|Hn];
    [reflexivity|].
  exfalso. apply Hn. lra.
Qed.

Lemma solve_loop_exit (fuel : nat) (phi v Delta a x x_new : R) :
  Rabs (x - x_new) <= 1e-7 ->
  solve_loop fuel phi v Delta a x x_new = Ret x_new.
Proof.
  intros Hg. destruct fuel; simpl; real_ops;
    (destruct (Rgt_dec (Rabs (x - x_new)) (Q2R 0.0000001)) as [Hn|_];
     [exfalso; lra|reflexivity]).
Qed.

Lemma guard_fails_real (s : Glicko2 R) (k : nat) :
  guard_fails s k <-> Rabs (x_at s k - x_new_at s k) <= 1e-7.
Proof.
  unfold guard_fails. real_ops.
  destruct (Rgt_dec (Rabs (x_at s k - x_new_at s k)) (Q2R 0.0000001)) as [Hg|Hg].
  - split; [discriminate|]. intros Hle. exfalso. lra.
  - split; [|reflexivity]. intros _. lra.
Qed.

(** The locals of the loop body are the [d], [h1], [h2] of the
    specification. *)
Lemma solver_d_real (phi v x : R) : solver_d phi v x = Spec.d phi v x.
Proof. unfold solver_d, Spec.d. real_ops. ring. Qed.

Lemma solver_h1_real (phi v Delta a x : R) :
  solver_h1 phi v Delta a x = Spec.h1 phi v Delta a x.
Proof.
  unfold solver_h1, Spec.h1, dvolatility, Spec.tau.
  rewrite solver_d_real. real_ops.
  replace (Q2R 0.3 * Q2R 0.3) with (0.3 ^ 2) by ring.
  ring.
Qed.

Lemma solver_h2_real (phi v Delta x : R) :
  solver_h2 phi v Delta x = Spec.h2 phi v Delta x.
Proof.
  unfold solver_h2, Spec.h2, dvolatility, Spec.tau.
  rewrite solver_d_real. real_ops.
  replace (Q2R 0.3 * Q2R 0.3) with (0.3 ^ 2) by ring.
  replace (Spec.d phi v x * Spec.d phi v x) with (Spec.d phi v x ^ 2) by ring.
  replace (Spec.d phi v x ^ 2 * Spec.d phi v x) with (Spec.d phi v x ^ 3) by ring.
  replace (Q2R 1.0) with 1 by lra.
  unfold Rdiv. ring.
Qed.

Lemma newton_step_real (phi v Delta a x : R) :
  newton_step phi v Delta a x = Spec.x_next phi v Delta a x.
Proof.
  unfold newton_step, Spec.x_next.
  rewrite solver_h1_real, solver_h2_real. reflexivity.
Qed.

(** Once the loop is entered it is the iteration of the specification. *)
Lemma solve_loop_newton (fuel : nat) (phi v Delta a : R) :
  forall x x_new,
    Rabs (x - x_new) > 1e-7 ->
    solve_loop fuel phi v Delta a x x_new = Spec.newton fuel phi v Delta a x_new.
Proof.
  induction fuel as [|fuel IH]; intros x x_new Hg.
  - apply solve_loop_running. exact Hg.
  - rewrite (solve_loop_enter fuel phi v Delta a x x_new Hg).
    simpl. rewrite <- newton_step_real.
    set (x' := newton_step phi v Delta a x_new).
    destruct (Rle_dec (Rabs (x' - x_new)) 1e-7) as [Hle|Hgt].
    + apply solve_loop_exit. rewrite Rabs_minus_sym. exact Hle.
    + apply IH. rewrite Rabs_minus_sym. lra.
Qed.

(** Where [ln(sigma^2)] is further than [1e-7] from [0.0], the loop of
    [Update] is the solver of the specification. *)
Lemma Update_solve_is_spec_solver (fuel : nat) (s : Glicko2 R) :
  paired s ->
  Rabs (ln (volatility s * volatility s)) > 1e-7 ->
  (x_new ← Update_solve fuel s; Ret (exp (x_new / 2)))
  = Spec.solver fuel (deviation s) (Spec.v s) (Spec.Delta s) (volatility s).
Proof.
  intros Hp Ha. unfold Update_solve, Spec.solver.
  rewrite (Update_variance_real s Hp), (Update_delta_real s Hp).
  unfold Update_a. real_ops.
  replace (volatility s ^ 2) with (volatility s * volatility s) by ring.
  rewrite solve_loop_newton; [reflexivity|].
  replace (Q2R 0.0 - ln (volatility s * volatility s))
    with (- ln (volatility s * volatility s)) by lra.
  rewrite Rabs_Ropp. exact Ha.
Qed.

(** Where [ln(sigma^2)] is within [1e-7] of [0.0], the guard is false at
    its first test: the loop body never runs and [x_new] is still [a]. *)
Lemma Update_solve_skipped (fuel : nat) (s : Glicko2 R) :
  Rabs (ln (volatility s * volatility s)) <= 1e-7 ->
  Update_solve fuel s = Ret (ln (volatility s * volatility s)).
Proof.
  intros Ha. unfold Update_solve, Update_a. real_ops.
  apply solve_loop_exit.
  replace (Q2R 0.0 - ln (volatility s * volatility s))
    with (- ln (volatility s * volatility s)) by lra.
  rewrite Rabs_Ropp. exact Ha.
Qed.

(** A value the iteration of the specification returns was produced by a
    step of at most [1e-7]. *)
Lemma newton_Ret (fuel : nat) (phi v Delta a : R) :
  forall x x', Spec.newton fuel phi v Delta a x = Ret x' ->
    exists x0, x' = Spec.x_next phi v Delta a x0 /\ Rabs (x' - x0) <= 1e-7.
Proof.
  induction fuel as [|fuel IH]; intros x x'; simpl; [discriminate|].
  destruct (Rle_dec (Rabs (Spec.x_next phi v Delta a x - x)) 1e-7) as [Hle|Hgt].
  - intros [= <-]. exists x. split; [reflexivity|exact Hle].
  - apply IH.
Qed.

End Real_solver.

(** ** Rating periods against opponents of equal strength *)

Section Even_matches.

Local Open Scope R_scope.

Lemma big_sum_replicate {A : Type} (f : A -> R) (n : nat) (x : A) :
  Spec.big_sum f (replicate n x) = INR n * f x.
Proof.
  induction n as [|n IH].
  - simpl. lra.
  - rewrite S_INR. simpl. rewrite IH. lra.
Qed.

Lemma opponent_B_rating : rating opponent_B = 0.
Proof. simpl. real_ops. lra. Qed.

Lemma opponent_B_deviation : deviation opponent_B = 0.
Proof. simpl. real_ops. lra. Qed.

Lemma iter_AddWin (n : nat) (A0 B : Glicko2 R) :
  rating (Nat.iter n (fun s => AddWin s B) A0) = rating A0
  /\ deviation (Nat.iter n (fun s => AddWin s B) A0) = deviation A0
  /\ volatility (Nat.iter n (fun s => AddWin s B) A0) = volatility A0
  /\ opponents (Nat.iter n (fun s => AddWin s B) A0)
     = opponents A0 ++ replicate n (Glicko2_copy B)
  /\ results (Nat.iter n (fun s => AddWin s B) A0)
     = results A0 ++ replicate n 1.0.
Proof.
  induction n as [|n (IHr & IHd & IHv & IHo & IHs)].
  - simpl. rewrite !app_nil_r. repeat split; reflexivity.
  - rewrite !replicate_S_end, !app_assoc, Nat.iter_succ.
    set (s := Nat.iter n (fun s => AddWin s B) A0) in *.
    unfold AddWin, AddResult.
    cbn [rating deviation volatility opponents results score].
    rewrite IHr, IHd, IHv, IHo, IHs.
    repeat split; reflexivity.
Qed.

(** [n] games, each with the outcome [r], against [B], by a player whose
    rating is that of [B]. *)
Lemma even_match_sums (s : Glicko2 R) (n : nat) (r : R) :
  opponents s = replicate n opponent_B ->
  results s = replicate n r ->
  rating s = 0 ->
  variance_sum s = INR n / 4 /\ score_sum s = INR n * (r - 1 / 2).
Proof.
  intros Ho Hr Hs. split.
  - unfold variance_sum. rewrite Ho, Hs. real_ops.
    rewrite (fold_left_big_sum
               (fun o => g (deviation o) * g (deviation o)
                         * E 0 (rating o) (deviation o)
                         * (Q2R 1.0 - E 0 (rating o) (deviation o)))).
    rewrite big_sum_replicate.
    rewrite opponent_B_rating, opponent_B_deviation, g_0, (E_equal_strength 0).
    lra.
  - unfold score_sum, games. rewrite Ho, Hr, Hs, zip_with_replicate. real_ops.
    rewrite (fold_left_big_sum
               (fun j => g (deviation j.1)
                         * (j.2 - E 0 (rating j.1) (deviation j.1)))).
    rewrite big_sum_replicate. cbn [fst snd].
    rewrite opponent_B_rating, opponent_B_deviation, g_0, (E_equal_strength 0).
    lra.
Qed.

(** *** One draw at volatility 1 *)

Lemma unit_volatility_A_paired : paired unit_volatility_A.
Proof. reflexivity. Qed.

Lemma unit_volatility_A_games : opponents unit_volatility_A <> [].
Proof. discriminate. Qed.

Lemma unit_volatility_A_state :
  rating unit_volatility_A = 0
  /\ deviation unit_volatility_A = 1
  /\ volatility unit_volatility_A = 1.
Proof. simpl. real_ops. repeat split; lra. Qed.

Lemma unit_volatility_A_aggregates :
  Spec.v unit_volatility_A = 4 /\ Spec.Delta unit_volatility_A = 0.
Proof.
  destruct unit_volatility_A_state as (Hr & _ & _).
  destruct (even_match_sums unit_volatility_A 1 0.5) as [Hv Hd];
    [reflexivity|reflexivity|exact Hr|].
  rewrite <- (Update_variance_real _ unit_volatility_A_paired).
  rewrite <- (Update_delta_real _ unit_volatility_A_paired).
  unfold Update_delta, Update_variance. rewrite Hv, Hd. real_ops. simpl INR.
  split; lra.
Qed.

Lemma unit_volatility_A_solve (fuel : nat) :
  Update_solve fuel unit_volatility_A = Ret 0.
Proof.
  destruct unit_volatility_A_state as (_ & _ & Hv).
  assert (Ha : ln (volatility unit_volatility_A * volatility unit_volatility_A) = 0).
  { rewrite Hv, Rmult_1_r. apply ln_1. }
  rewrite Update_solve_skipped.
  - rewrite Ha. reflexivity.
  - rewrite Ha, Rabs_R0. lra.
Qed.

(** *** Five wins at volatility 0.8 *)

Lemma steady_A_paired : paired steady_A.
Proof. reflexivity. Qed.

Lemma steady_A_games : opponents steady_A <> [].
Proof. discriminate. Qed.

Lemma steady_A_state :
  rating steady_A = 0 /\ deviation steady_A = 8 / 5 /\ volatility steady_A = 4 / 5.
Proof. simpl. real_ops. repeat split; lra. Qed.

Lemma steady_A_aggregates :
  Update_variance steady_A = 4 / 5 /\ Update_delta steady_A = 2.
Proof.
  destruct steady_A_state as (Hr & _ & _).
  destruct (even_match_sums steady_A 5 1.0) as [Hv Hd];
    [reflexivity|reflexivity|exact Hr|].
  unfold Update_delta, Update_variance. rewrite Hv, Hd. real_ops. simpl INR.
  split; lra.
Qed.

Lemma ln_le_minus_1 (x : R) : 0 < x -> ln x <= x - 1.
Proof.
  intros Hx. pose proof (exp_ineq1_le (ln x)) as He.
  rewrite (exp_ln x Hx) in He. lra.
Qed.

Lemma steady_A_a :
  Update_a steady_A = ln (16 / 25) /\ ln (16 / 25) <= - 9 / 25.
Proof.
  destruct steady_A_state as (_ & _ & Hv).
  unfold Update_a. real_ops. rewrite Hv.
  replace (4 / 5 * (4 / 5)) with (16 / 25) by lra.
  split; [reflexivity|].
  pose proof (ln_le_minus_1 (16 / 25)). lra.
Qed.

(** At [x = a] the derivative [h1] vanishes: [a] is the root, and the step
    from [a] stays at [a]. *)
Lemma steady_A_step :
  newton_step (deviation steady_A) (Update_variance steady_A)
              (Update_delta steady_A) (Update_a steady_A) (Update_a steady_A)
  = Update_a steady_A.
Proof.
  destruct steady_A_state as (_ & Hd & _).
  destruct steady_A_aggregates as [Hv HD].
  destruct steady_A_a as [Ha _].
  rewrite Hd, Hv, HD, Ha.
  unfold newton_step.
  assert (H1 : solver_h1 (8 / 5) (4 / 5) 2 (ln (16 / 25)) (ln (16 / 25)) = 0).
  { unfold solver_h1, solver_d, dvolatility. real_ops.
    rewrite exp_ln by lra. lra. }
  rewrite H1. real_ops. lra.
Qed.

(** The second derivative [h2] the step divides by is not zero there. *)
Lemma steady_A_h2 :
  solver_h2 (deviation steady_A) (Update_variance steady_A)
            (Update_delta steady_A) (Update_a steady_A)
  = - (62572 / 5625).
Proof.
  destruct steady_A_state as (_ & Hd & _).
  destruct steady_A_aggregates as [Hv HD].
  destruct steady_A_a as [Ha _].
  rewrite Hd, Hv, HD, Ha.
  unfold solver_h2, solver_d, dvolatility. real_ops.
  rewrite exp_ln by lra. lra.
Qed.

Lemma steady_A_solve : Update_solve 1 steady_A = Ret (Update_a steady_A).
Proof.
  destruct steady_A_a as [Ha Hle].
  unfold Update_solve.
  rewrite solve_loop_enter.
  - rewrite steady_A_step. apply solve_loop_exit.
    replace (Update_a steady_A - Update_a steady_A) with 0 by lra.
    rewrite Rabs_R0. lra.
  - rewrite Ha. real_ops.
    replace (Q2R 0.0 - ln (16 / 25)) with (- ln (16 / 25)) by lra.
    rewrite Rabs_Ropp, Rabs_left; lra.
Qed.

End Even_matches.

(** ** A rating period on which [Update] does not return

    [cycling_A] has won 600 games against [B].  The Newton iteration started
    at [a = ln(0.06^2)] finds a second derivative [h2] that is positive and
    small there; the step throws [x_new] more than 100 to the left, where
    [exp x] vanishes and the next step comes back next to [a]; and so on. *)

Section Cycling.

Local Open Scope R_scope.

Lemma exp_le_mono (x y : R) : x <= y -> exp x <= exp y.
Proof.
  intros [Hlt| ->]; [|lra]. apply Rlt_le, exp_increasing. exact Hlt.
Qed.

Lemma exp_opp_inv (x : R) : exp x * exp (- x) = 1.
Proof.
  rewrite <- exp_plus. replace (x + - x) with 0 by lra. apply exp_0.
Qed.

Lemma exp_nat_lower (n : nat) : 2 ^ n <= exp (INR n).
Proof.
  induction n as [|n IH].
  - simpl. rewrite exp_0. lra.
  - rewrite S_INR, exp_plus. pose proof (exp_ineq1_le 1) as H1.
    pose proof (exp_pos (INR n)) as Hp. simpl pow.
    assert (0 < 2 ^ n) by (apply pow_lt; lra). nra.
Qed.

Lemma exp_50_lower : 1000000000000000 <= exp 50.
Proof.
  pose proof (exp_nat_lower 50) as H.
  replace (INR 50) with 50 in H by (rewrite INR_IZR_INZ; reflexivity).
  simpl pow in H. lra.
Qed.

Lemma exp_far (x : R) :
  x <= -100 -> 0 < exp x /\ - x * exp x <= 2 / 1000000000000000.
Proof.
  intros Hx. split; [apply exp_pos|].
  replace x with (x / 2 + x / 2) at 2 by lra.
  rewrite exp_plus.
  pose proof (exp_pos (x / 2)) as Hw.
  pose proof (exp_opp_inv (x / 2)) as Hinv.
  pose proof (exp_ineq1_le (- (x / 2))) as H1.
  pose proof (exp_le_mono 50 (- (x / 2)) ltac:(lra)) as H50.
  pose proof exp_50_lower as HL.
  set (w := exp (x / 2)) in *. set (W := exp (- (x / 2))) in *.
  assert (Hw2 : - x * w <= 2).
  { assert (- x * w <= 2 * (W * w)) by nra. nra. }
  assert (Hw3 : w <= 1 / 1000000000000000).
  { assert (H : w * 1000000000000000 <= w * W) by nra.
    rewrite (Rmult_comm w W) in H. nra. }
  nra.
Qed.

Lemma cycling_a_bounds : -50 <= cycling_a <= -99 / 100.
Proof.
  unfold cycling_a. split.
  - replace (-50) with (- (50)) by lra.
    rewrite <- (ln_exp (- (50))).
    pose proof exp_50_lower as HL.
    pose proof (exp_opp_inv 50) as Hinv.
    pose proof (exp_pos (- (50))) as Hp.
    assert (Hlt : exp (- (50)) < 9 / 2500) by nra.
    apply Rlt_le, ln_increasing; [exact Hp|exact Hlt].
  - pose proof (ln_le_minus_1 (9 / 2500)). lra.
Qed.

(** The locals [h1] and [h2] of the loop body, over a common denominator. *)
Lemma cycling_h1_h2 (x : R) :
  let u := exp x in
  let d := 1 / 60 + u in
  solver_h1 (1 / 10) (1 / 150) 2 cycling_a x * (d * d)
  = - (x - cycling_a) * (100 / 9) * (d * d) - u * d / 2 + 2 * u
  /\ solver_h2 (1 / 10) (1 / 150) 2 x * (d * d * d)
     = - (100 / 9) * (d * d * d) - u * (1 / 60) * d / 2 + 2 * u * (1 / 60 - u).
Proof.
  intros u d. pose proof (exp_pos x) as Hu. fold u in Hu.
  assert (Hd : 0 < d) by (unfold d; lra).
  unfold solver_h1, solver_h2, solver_d, dvolatility. real_ops. literals.
  fold u.
  replace (1 / 10 * (1 / 10) + 1 / 150 + u) with d by (unfold d; lra).
  replace (1 / 10 * (1 / 10) + 1 / 150) with (1 / 60) by lra.
  split; field; lra.
Qed.

(** The sign of [h2] and the size of [h1 / h2] next to [a], as polynomial
    inequalities in [u = exp x] and [t = x - a]. *)
Lemma cycling_near_polynomials (u t : R) :
  9 / 2500 * (1 - 1 / 1000000) <= u <= 9 / 2500 * (1 + 2 / 1000000) ->
  - (1 / 1000000) <= t <= 1 / 1000000 ->
  let d := 1 / 60 + u in
  0 < - (100 / 9) * (d * d * d) - u * (1 / 60) * d / 2 + 2 * u * (1 / 60 - u)
  /\ 100 * (- (100 / 9) * (d * d * d) - u * (1 / 60) * d / 2
            + 2 * u * (1 / 60 - u))
     <= - t * (100 / 9) * (d * d * d) - u * (d * d) / 2 + 2 * u * d.
Proof.
  intros Hu Ht d. unfold d.
  split.
  - nra.
  - assert (Hd3 : 0 <= (1 / 60 + u) * (1 / 60 + u) * (1 / 60 + u) <= 1 / 100000)
      by nra.
    set (d3 := (1 / 60 + u) * (1 / 60 + u) * (1 / 60 + u)) in *.
    assert (Ht3 : - (1 / 1000000000) <= t * d3 <= 1 / 1000000000) by nra.
    set (td3 := t * d3) in *.
    replace (- t * (100 / 9) * d3) with (- (100 / 9) * td3)
      by (unfold td3; ring).
    unfold d3. nra.
Qed.

(** From far on the left the step lands next to [a]. *)
Lemma cycling_far_to_near (x : R) :
  x <= -100 -> 0 <= cycling_step x - cycling_a <= 1 / 1000000.
Proof.
  intros Hx.
  destruct (exp_far x Hx) as [Hu Hxu].
  destruct (cycling_h1_h2 x) as [H1 H2]. cbv zeta in H1, H2.
  destruct cycling_a_bounds as [Ha1 Ha2].
  unfold cycling_step, newton_step. real_ops.
  set (h1 := solver_h1 (1 / 10) (1 / 150) 2 cycling_a x) in *.
  set (h2 := solver_h2 (1 / 10) (1 / 150) 2 x) in *.
  set (u := exp x) in *.
  set (d := 1 / 60 + u) in *.
  assert (Hu' : u <= 2 / 1000000000000000) by nra.
  assert (Hd : 1 / 60 <= d <= 1 / 50) by (unfold d; lra).
  assert (Hd2 : 1 / 3600 <= d * d <= 1 / 2500) by nra.
  assert (Hd3 : 1 / 216000 <= d * d * d <= 1 / 125000) by nra.
  set (d3 := d * d * d) in *. set (d2 := d * d) in *.
  assert (HT : 0 <= h1 * d2 + (x - cycling_a) * (100 / 9) * d2 <= 2 * u).
  { rewrite H1. split; nra. }
  assert (HWp : 0 <= h2 * d3 + 100 / 9 * d3 <= 2 * u * (1 / 60)).
  { rewrite H2. split; nra. }
  assert (HT' : 0 <= h1 + (x - cycling_a) * (100 / 9) <= 7200 * u).
  { split; nra. }
  assert (HW' : 0 <= h2 + 100 / 9 <= 7200 * u).
  { split; nra. }
  assert (Hh2 : - (100 / 9) <= h2 <= - 11) by lra.
  assert (Hnum : (x - h1 / h2 - cycling_a) * h2 = (x - cycling_a) * h2 - h1)
    by (field; lra).
  set (T := h1 + (x - cycling_a) * (100 / 9)) in *.
  set (W := h2 + 100 / 9) in *.
  assert (Hnum' : (x - h1 / h2 - cycling_a) * h2 = (x - cycling_a) * W - T).
  { rewrite Hnum. unfold T, W. ring. }
  assert (HxW : - (7200 * (2 / 1000000000000000)) <= (x - cycling_a) * W <= 0).
  { split; [|nra].
    assert (- x * W <= 7200 * (- x * u)) by nra.
    nra. }
  set (n := x - h1 / h2 - cycling_a) in *.
  assert (Hn1 : - (14400 * (2 / 1000000000000000)) <= n * h2 <= 0).
  { rewrite Hnum'. split; nra. }
  split; nra.
Qed.

(** From next to [a] the step jumps far to the left. *)
Lemma cycling_near_to_far (x : R) :
  - (1 / 1000000) <= x - cycling_a <= 1 / 1000000 -> cycling_step x <= x - 100.
Proof.
  intros Ht.
  destruct (cycling_h1_h2 x) as [H1 H2]. cbv zeta in H1, H2.
  unfold cycling_step, newton_step. real_ops.
  set (h1 := solver_h1 (1 / 10) (1 / 150) 2 cycling_a x) in *.
  set (h2 := solver_h2 (1 / 10) (1 / 150) 2 x) in *.
  set (t := x - cycling_a) in *.
  assert (Hx : exp x = 9 / 2500 * exp t).
  { replace x with (cycling_a + t) by (unfold t; lra).
    rewrite exp_plus. unfold cycling_a. rewrite exp_ln by lra. reflexivity. }
  rewrite Hx in H1, H2.
  pose proof (exp_ineq1_le t) as Hlo.
  pose proof (exp_ineq1_le (- t)) as Hhi.
  pose proof (exp_opp_inv t) as Hinv.
  pose proof (exp_pos t) as Hp.
  assert (He : 1 - 1 / 1000000 <= exp t <= 1 + 2 / 1000000).
  { split; [lra|]. pose proof (exp_pos (- t)). nra. }
  set (u := 9 / 2500 * exp t) in *.
  assert (Hu : 9 / 2500 * (1 - 1 / 1000000) <= u <= 9 / 2500 * (1 + 2 / 1000000))
    by (unfold u; lra).
  destruct (cycling_near_polynomials u t Hu Ht) as [Hp2 Hp1].
  cbv zeta in Hp2, Hp1.
  set (d := 1 / 60 + u) in *.
  assert (Hd : 0 < d) by (unfold d; lra).
  assert (Hd3 : 0 < d * d * d).
  { apply Rmult_lt_0_compat; [apply Rmult_lt_0_compat|]; exact Hd. }
  assert (Hh2 : 0 < h2).
  { apply (Rmult_lt_reg_r (d * d * d)); [exact Hd3|]. rewrite H2. lra. }
  assert (Hh1 : 100 * h2 <= h1).
  { apply (Rmult_le_reg_r (d * d * d)); [exact Hd3|].
    replace (h1 * (d * d * d))
      with (- t * (100 / 9) * (d * d * d) - u * (d * d) / 2 + 2 * u * d)
      by (transitivity (h1 * (d * d) * d); [rewrite H1|]; unfold Rdiv; ring).
    rewrite Rmult_assoc, H2. exact Hp1. }
  assert (100 <= h1 / h2).
  { apply (Rmult_le_reg_r h2); [exact Hh2|].
    unfold Rdiv. rewrite Rmult_assoc, Rinv_l by lra. lra. }
  lra.
Qed.

(** The two regions are more than [1e-7] apart, so the guard holds at every
    test. *)
Lemma cycling_loop_runs (fuel : nat) :
  forall x x_new,
    Rabs (x - x_new) >= 1 / 2 ->
    x_new <= -100 \/ - (1 / 1000000) <= x_new - cycling_a <= 1 / 1000000 ->
    solve_loop fuel (1 / 10) (1 / 150) 2 cycling_a x x_new = Timeout.
Proof.
  destruct cycling_a_bounds as [Ha1 Ha2].
  induction fuel as [|fuel IH]; intros x x_new Hfar Hreg.
  - apply solve_loop_running. lra.
  - rewrite solve_loop_enter by lra.
    fold (cycling_step x_new).
    destruct Hreg as [Hleft|Hnear].
    + pose proof (cycling_far_to_near x_new Hleft) as Hn.
      apply IH.
      * rewrite Rabs_left; lra.
      * right. lra.
    + pose proof (cycling_near_to_far x_new Hnear) as Hf.
      apply IH.
      * rewrite Rabs_right; lra.
      * left. lra.
Qed.

Lemma cycling_A_lists :
  opponents cycling_A = replicate 600 opponent_B
  /\ results cycling_A = replicate 600 1.0.
Proof.
  destruct (iter_AddWin 600 (Glicko2_new 1500 17.37178 0.06) opponent_B)
    as (_ & _ & _ & Ho & Hr).
  split; [exact Ho|exact Hr].
Qed.

Lemma cycling_A_state :
  rating cycling_A = 0
  /\ deviation cycling_A = 1 / 10
  /\ volatility cycling_A = 6 / 100.
Proof.
  destruct (iter_AddWin 600 (Glicko2_new 1500 17.37178 0.06) opponent_B)
    as (Hr & Hd & Hv & _ & _).
  unfold cycling_A. rewrite Hr, Hd, Hv. simpl. real_ops.
  repeat split; lra.
Qed.

Lemma cycling_A_paired : paired cycling_A.
Proof.
  destruct cycling_A_lists as [Ho Hr]. unfold paired.
  rewrite Ho, Hr, !length_replicate. reflexivity.
Qed.

Lemma cycling_A_games : opponents cycling_A <> [].
Proof.
  destruct cycling_A_lists as [Ho _]. rewrite Ho. discriminate.
Qed.

Lemma cycling_A_aggregates :
  Update_variance cycling_A = 1 / 150
  /\ Update_delta cycling_A = 2
  /\ Update_a cycling_A = cycling_a.
Proof.
  destruct cycling_A_lists as [Ho Hr].
  destruct cycling_A_state as (Hrat & _ & Hvol).
  destruct (even_match_sums cycling_A 600 1.0 Ho Hr Hrat) as [Hv Hd].
  assert (H600 : INR 600 = 600) by (rewrite INR_IZR_INZ; reflexivity).
  unfold Update_delta, Update_variance, Update_a.
  rewrite Hv, Hd, Hvol, H600. real_ops.
  split; [lra|]. split; [lra|].
  unfold cycling_a. f_equal. lra.
Qed.

(** The [while] loop of [Update] on [cycling_A] is still running after any
    number of iterations. *)
Lemma cycling_A_loop_never_ends (fuel : nat) :
  Update_solve fuel cycling_A = Timeout.
Proof.
  destruct cycling_A_aggregates as (Hv & Hd & Ha).
  destruct cycling_A_state as (_ & Hdev & _).
  destruct cycling_a_bounds as [Ha1 Ha2].
  unfold Update_solve. rewrite Hv, Hd, Ha, Hdev. real_ops.
  apply cycling_loop_runs.
  - rewrite Rabs_right; lra.
  - right. lra.
Qed.

End Cycling.

(** ** The guard against the initial [x = 0.0] *)

Section Unit_volatility.

Local Open Scope R_scope.

(** With [phi = 1], [v = 4], [Δ = 0] and [a = 0] no Newton step from within
    [1e-7] of [0] lands on [0]: [x - h1/h2 = 0] forces [5 x = 5 + exp x]. *)
Lemma unit_volatility_step_not_0 (x0 : R) :
  Rabs x0 <= 1e-7 -> Spec.x_next 1 4 0 0 x0 <> 0.
Proof.
  intros Hx Hz. unfold Spec.x_next, Spec.h1, Spec.h2, Spec.d, Spec.tau in Hz.
  pose proof (exp_pos x0) as Hu.
  set (u := exp x0) in *.
  assert (Hd : 0 < 1 ^ 2 + 4 + u) by lra.
  set (d := 1 ^ 2 + 4 + u) in *.
  assert (Hd5 : d = 5 + u) by (unfold d; lra).
  literals.
  set (h1 := - (x0 - 0) / _ - _ / d + _ ) in *.
  set (h2 := -1 / _ - _ / d ^ 2 + _ / d ^ 3) in *.
  assert (Hh1 : h1 * d = - x0 * d * (100 / 9) - u / 2).
  { unfold h1. field. lra. }
  assert (Hh2 : h2 * (d * d) = - (d * d) * (100 / 9) - 5 * u / 2).
  { unfold h2. field. lra. }
  assert (Hh2neg : h2 < 0).
  { assert (h2 * (d * d) < 0) by (rewrite Hh2; nra). nra. }
  assert (Heq : x0 * h2 = h1).
  { assert (Hq : x0 = h1 / h2) by lra. rewrite Hq at 1. field. lra. }
  assert (Hmain : 5 * x0 = d).
  { assert (E1 : x0 * (h2 * (d * d)) = (h1 * d) * d) by (rewrite <- Heq; ring).
    rewrite Hh1, Hh2 in E1.
    assert (E2 : u * (5 * x0 - d) = 0) by (rewrite Hd5 in *; nra).
    nra. }
  unfold Rabs in Hx. destruct (Rcase_abs x0); lra.
Qed.

(** The first Newton step from [a = 0] moves [x] by [6/805]. *)
Lemma unit_volatility_first_step : Spec.x_next 1 4 0 0 0 = - (6 / 805).
Proof.
  unfold Spec.x_next, Spec.h1, Spec.h2, Spec.d, Spec.tau.
  rewrite exp_0. literals. field.
Qed.

(** C2, at [unit_volatility_A] (volatility 1, so [a = ln(1) = 0.0]).  The
    guard [abs(x - x_new) > 0.0000001] is first tested with [x = 0.0] and
    [x_new = a]; it is false, the body of the loop never runs, and [Update]
    returns for every budget, the budget 0 included, with the volatility
    [exp(a / 2) = 1] it started from.  The iteration the specification
    describes moves [x] by [6/805], more than [1e-7], in its first step from
    [a], and whatever it returns is not 1. *)
Theorem Update_skips_solver_at_unit_volatility :
  (forall fuel, exists s',
      Update fuel unit_volatility_A = Ret s'
      /\ volatility s' = volatility unit_volatility_A)
  /\ Rabs (Spec.x_next (deviation unit_volatility_A) (Spec.v unit_volatility_A)
             (Spec.Delta unit_volatility_A)
             (ln (volatility unit_volatility_A ^ 2))
             (ln (volatility unit_volatility_A ^ 2))
           - ln (volatility unit_volatility_A ^ 2)) > 1e-7
  /\ (forall fuel,
        Spec.solver fuel (deviation unit_volatility_A) (Spec.v unit_volatility_A)
                    (Spec.Delta unit_volatility_A) (volatility unit_volatility_A)
        <> Ret (volatility unit_volatility_A)).
Proof.
  destruct unit_volatility_A_state as (_ & Hd & Hv).
  destruct unit_volatility_A_aggregates as [Hvar Hdelta].
  rewrite Hd, Hv, Hvar, Hdelta.
  replace (ln (1 ^ 2)) with 0 by (rewrite pow1, ln_1; reflexivity).
  split; [|split].
  - intros fuel. exists (Update_commit unit_volatility_A 0). split.
    + apply Update_returns;
        [exact unit_volatility_A_paired|exact unit_volatility_A_games|].
      apply unit_volatility_A_solve.
    + simpl. real_ops. replace (0 / Q2R 2.0) with 0 by lra. apply exp_0.
  - rewrite unit_volatility_first_step.
    replace (- (6 / 805) - 0) with (- (6 / 805)) by lra.
    rewrite Rabs_Ropp, Rabs_right; lra.
  - intros fuel. unfold Spec.solver.
    replace (ln (1 ^ 2)) with 0 by (rewrite pow1, ln_1; reflexivity).
    destruct (Spec.newton fuel 1 4 0 0 0) as [x'| |] eqn:Hn; simpl;
      try discriminate.
    intros [= Hexp].
    destruct (newton_Ret fuel 1 4 0 0 0 x' Hn) as (x0 & Hx' & Hclose).
    assert (Hx0 : x' = 0).
    { rewrite <- exp_0 in Hexp. apply exp_inv in Hexp. lra. }
    rewrite Hx0 in Hx', Hclose.
    apply (unit_volatility_step_not_0 x0); [|congruence].
    rewrite <- Rabs_Ropp. replace (- x0) with (0 - x0) by lra. exact Hclose.
Qed.

(** *** The steady period, evaluated *)

Lemma steady_A_committed :
  Update_commit steady_A (Update_a steady_A)
  = mkGlicko2 (8 / 5) (4 / 5) (4 / 5) [] [].
Proof.
  destruct steady_A_state as (Hr & Hd & Hv).
  destruct steady_A_aggregates as [Hvar Hdelta].
  destruct steady_A_a as [Ha _].
  assert (Hscore : score_sum steady_A = 5 / 2).
  { unfold Update_delta in Hdelta. rewrite Hvar in Hdelta. real_ops. lra. }
  assert (Hsig : exp (ln (16 / 25) / 2) = 4 / 5).
  { replace (16 / 25) with (4 / 5 * (4 / 5)) by lra.
    rewrite ln_mult by lra.
    replace ((ln (4 / 5) + ln (4 / 5)) / 2) with (ln (4 / 5)) by lra.
    apply exp_ln. lra. }
  unfold Update_commit. rewrite Hvar, Hscore, Hr, Hd, Ha. real_ops.
  replace (ln (16 / 25) / Q2R 2.0) with (ln (16 / 25) / 2) by lra.
  rewrite Hsig.
  rewrite sqrt_sqrt by lra.
  replace (Q2R 1.0 / (8 / 5 * (8 / 5) + 4 / 5 * (4 / 5)) + Q2R 1.0 / (4 / 5))
    with (5 / 4 * (5 / 4)) by lra.
  rewrite sqrt_square by lra.
  f_equal; lra.
Qed.

(** [Update] on [steady_A]: one iteration of the loop, and the object comes
    back with rating [8/5] (public 1777.94848), deviation [4/5] (public
    138.97424) and the volatility [4/5] it had. *)
Lemma steady_A_Update :
  Update 1 steady_A = Ret (mkGlicko2 (8 / 5) (4 / 5) (4 / 5) [] []).
Proof.
  rewrite <- steady_A_committed.
  apply Update_returns;
    [exact steady_A_paired|exact steady_A_games|exact steady_A_solve].
Qed.

(** On [steady_A] the guard holds at its first test and fails at its
    second. *)
Lemma steady_A_guard_0 : forall j, (j < 1)%nat -> ~ guard_fails steady_A j.
Proof.
  intros j Hj. assert (j = 0%nat) as -> by lia.
  rewrite guard_fails_real. destruct steady_A_a as [Ha Hle].
  cbn [x_at x_new_at]. rewrite Ha. real_ops.
  replace (Q2R 0.0 - ln (16 / 25)) with (- ln (16 / 25)) by lra.
  rewrite Rabs_Ropp, Rabs_left by lra. lra.
Qed.

Lemma steady_A_guard_1 : guard_fails steady_A 1.
Proof.
  rewrite guard_fails_real. cbn [x_at x_new_at]. rewrite steady_A_step.
  replace (Update_a steady_A - Update_a steady_A) with 0 by lra.
  rewrite Rabs_R0. lra.
Qed.

(** The run of [Update] on [steady_A] stays within the real numbers: its
    volatility is [4/5], and the one iteration of the loop divides by
    [h2 = -62572/5625]. *)
Lemma steady_A_within_reals : within_reals steady_A.
Proof.
  split.
  - destruct steady_A_state as (_ & _ & Hv). rewrite Hv. lra.
  - intros j Hguard. destruct j as [|j].
    + cbn [x_new_at]. rewrite steady_A_h2. lra.
    + exfalso. apply (Hguard 1%nat); [lia|exact steady_A_guard_1].
Qed.

End Unit_volatility.

(** ** The guard read with [::abs(int)]

    The two findings about the [while] loop do not depend on the overload
    the guard calls: with [abs] on [int] the loop is skipped at volatility 1
    all the same, and on [cycling_A] it runs for ever all the same. *)

Section Int_abs.

Local Open Scope R_scope.

Ltac int_ops :=
  cbn [lit dadd dsub dmul ddiv dneg dsqrt dexp dlog dabs dgt dlt
       R_double_int_abs] in *.

Lemma int_abs_below_1 (x : R) : Rabs x < 1 -> int_abs x = 0.
Proof.
  intros Hx. unfold int_abs, to_int.
  assert (H1 : -1 < x < 1).
  { unfold Rabs in Hx. destruct (Rcase_abs x); lra. }
  destruct (Rle_dec 0 x) as [Hpos|Hneg].
  - rewrite <- (Int_part_spec x 0); [reflexivity|]. simpl. lra.
  - rewrite <- (Int_part_spec (- x) 0); [reflexivity|]. simpl. lra.
Qed.

Lemma int_abs_from_1 (x : R) : 1 <= Rabs x -> 1 <= int_abs x.
Proof.
  intros Hx. unfold int_abs, to_int.
  assert (Hpart : forall y, 1 <= y -> (1 <= Int_part y)%Z).
  { intros y Hy. destruct (base_Int_part y) as [_ Hlow].
    assert (Hz : 0 < IZR (Int_part y)) by lra.
    apply lt_0_IZR in Hz. lia. }
  apply IZR_le.
  destruct (Rle_dec 0 x) as [Hpos|Hneg].
  - rewrite Rabs_right in Hx by lra. specialize (Hpart x Hx). lia.
  - rewrite Rabs_left in Hx by lra. specialize (Hpart (- x) Hx). lia.
Qed.

Lemma solve_loop_int_enter (fuel : nat) (phi v Delta a x x_new : R) :
  1 <= Rabs (x - x_new) ->
  @solve_loop R R_double_int_abs (S fuel) phi v Delta a x x_new
  = @solve_loop R R_double_int_abs fuel phi v Delta a x_new
      (newton_step phi v Delta a x_new).
Proof.
  intros Hg. pose proof (int_abs_from_1 _ Hg) as Hi. simpl. int_ops.
  destruct (Rgt_dec (int_abs (x - x_new)) (Q2R 0.0000001)) as [_|Hn];
    [reflexivity|].
  exfalso. apply Hn. lra.
Qed.

Lemma solve_loop_int_running (phi v Delta a x x_new : R) :
  1 <= Rabs (x - x_new) ->
  @solve_loop R R_double_int_abs 0 phi v Delta a x x_new = Timeout.
Proof.
  intros Hg. pose proof (int_abs_from_1 _ Hg) as Hi. simpl. int_ops.
  destruct (Rgt_dec (int_abs (x - x_new)) (Q2R 0.0000001)) as [_|Hn];
    [reflexivity|].
  exfalso. apply Hn. lra.
Qed.

Lemma solve_loop_int_exit (fuel : nat) (phi v Delta a x x_new : R) :
  Rabs (x - x_new) < 1 ->
  @solve_loop R R_double_int_abs fuel phi v Delta a x x_new = Ret x_new.
Proof.
  intros Hg. pose proof (int_abs_below_1 _ Hg) as Hi.
  destruct fuel; simpl; int_ops; rewrite Hi;
    (destruct (Rgt_dec 0 (Q2R 0.0000001)) as [Hn|_];
     [exfalso; lra|reflexivity]).
Qed.

Lemma cycling_a_below : cycling_a <= -1.
Proof.
  unfold cycling_a.
  replace (-1) with (- (1)) by lra. rewrite <- (ln_exp (- (1))).
  pose proof exp_le_3 as H3.
  pose proof (exp_opp_inv 1) as Hinv.
  pose proof (exp_pos (- (1))) as Hp.
  apply Rlt_le, ln_increasing; [lra|nra].
Qed.

Lemma cycling_loop_runs_int (fuel : nat) :
  forall x x_new,
    1 <= Rabs (x - x_new) ->
    x_new <= -100 \/ - (1 / 1000000) <= x_new - cycling_a <= 1 / 1000000 ->
    @solve_loop R R_double_int_abs fuel (1 / 10) (1 / 150) 2 cycling_a x x_new
    = Timeout.
Proof.
  destruct cycling_a_bounds as [Ha1 _].
  pose proof cycling_a_below as Ha2.
  induction fuel as [|fuel IH]; intros x x_new Hfar Hreg.
  - apply solve_loop_int_running. exact Hfar.
  - rewrite solve_loop_int_enter by exact Hfar.
    fold (cycling_step x_new).
    destruct Hreg as [Hleft|Hnear].
    + pose proof (cycling_far_to_near x_new Hleft) as Hn.
      apply IH.
      * rewrite Rabs_left; lra.
      * right. lra.
    + pose proof (cycling_near_to_far x_new Hnear) as Hf.
      apply IH.
      * rewrite Rabs_right; lra.
      * left. lra.
Qed.

(** What enters the loop does not depend on [dabs]. *)
Lemma int_abs_same_inputs (s : Glicko2 R) :
  @Update_variance R R_double_int_abs s = @Update_variance R R_double s
  /\ @Update_delta R R_double_int_abs s = @Update_delta R R_double s
  /\ @Update_a R R_double_int_abs s = @Update_a R R_double s.
Proof. repeat split; reflexivity. Qed.

Lemma int_abs_same_commit (s : Glicko2 R) (x_new : R) :
  @Update_commit R R_double_int_abs s x_new = @Update_commit R R_double s x_new.
Proof. reflexivity. Qed.

(** On [cycling_A], [Update] with [::abs(int)] in the guard is still in the
    loop after every number of iterations. *)
Lemma cycling_A_never_returns_int_abs (fuel : nat) :
  @Update R R_double_int_abs fuel cycling_A = Timeout.
Proof.
  rewrite (@Update_unfold R R_double_int_abs fuel cycling_A
             cycling_A_paired cycling_A_games).
  destruct cycling_A_aggregates as (Hv & Hd & Ha).
  destruct cycling_A_state as (_ & Hdev & _).
  destruct (int_abs_same_inputs cycling_A) as (Ev & Ed & Ea).
  pose proof cycling_a_below as Ha2.
  unfold Update_solve.
  rewrite Ev, Ed, Ea, Hv, Hd, Ha, Hdev.
  rewrite cycling_loop_runs_int; [reflexivity| |right; lra].
  change (@lit R R_double_int_abs 0.0) with (Q2R 0.0).
  rewrite Rabs_right; lra.
Qed.

(** At volatility 1, [Update] with [::abs(int)] in the guard skips the loop
    and returns the volatility it found. *)
Lemma unit_volatility_A_skipped_int_abs (fuel : nat) :
  exists s', @Update R R_double_int_abs fuel unit_volatility_A = Ret s'
             /\ volatility s' = 1.
Proof.
  rewrite (@Update_unfold R R_double_int_abs fuel unit_volatility_A
             unit_volatility_A_paired unit_volatility_A_games).
  destruct unit_volatility_A_state as (_ & _ & Hv).
  destruct (int_abs_same_inputs unit_volatility_A) as (Ev & Ed & Ea).
  assert (Ha : @Update_a R R_double unit_volatility_A = 0).
  { unfold Update_a. rewrite Hv. real_ops. rewrite Rmult_1_r. apply ln_1. }
  unfold Update_solve. rewrite Ea, Ha.
  rewrite solve_loop_int_exit.
  - eexists. split; [reflexivity|].
    rewrite int_abs_same_commit. unfold Update_commit.
    cbn [volatility]. real_ops.
    replace (0 / Q2R 2.0) with 0 by lra. apply exp_0.
  - change (@lit R R_double_int_abs 0.0) with (Q2R 0.0).
    replace (Q2R 0.0 - 0) with 0 by lra. rewrite Rabs_R0. lra.
Qed.

End Int_abs.

(** ** On the machine

    What the code does in binary64.  [exp] and [log] are any two functions
    with the values of Annex F; the literals and the other operations are
    computed. *)

Section Binary64_facts.

Variables exp64 log64 : PrimFloat.float -> PrimFloat.float.
Hypothesis libm : annex_F exp64 log64.

#[local] Hint Extern 0 (Double PrimFloat.float) =>
  exact (binary64 exp64 log64) : typeclass_instances.

(** [eval64] computes a term in which [exp] and [log] are applied to the
    arguments that Annex F decides. *)
Ltac eval64 :=
  let He0 := fresh in let Hen0 := fresh in let Heninf := fresh in
  let Heinf := fresh in let Henan := fresh in
  let Hl0 := fresh in let Hln0 := fresh in let Hl1 := fresh in
  let Hlinf := fresh in let Hlnan := fresh in
  destruct libm as ((He0 & Hen0 & Heninf & Heinf & Henan)
                    & (Hl0 & Hln0 & Hl1 & Hlinf & Hlnan & _));
  vm_compute in He0, Hen0, Heninf, Heinf, Henan, Hl0, Hln0, Hl1, Hlinf, Hlnan;
  vm_compute;
  repeat (progress rewrite ?He0, ?Hen0, ?Heninf, ?Heinf, ?Henan,
                           ?Hl0, ?Hln0, ?Hl1, ?Hlinf, ?Hlnan;
          vm_compute).

(** The difference of a finite number and itself is [+0]. *)
Lemma binary64_sub_self (x : PrimFloat.float) :
  PrimFloat.is_finite x = true -> PrimFloat.sub x x = PrimFloat.zero.
Proof.
  intros Hfin. apply FloatAxioms.Prim2SF_inj.
  rewrite FloatAxioms.sub_spec.
  change (FloatOps.Prim2SF PrimFloat.zero) with (SpecFloat.S754_zero false).
  unfold PrimFloat.is_finite in Hfin.
  destruct (PrimFloat.is_nan x) eqn:Hnan; [discriminate|].
  destruct (PrimFloat.is_infinity x) eqn:Hinf; [discriminate|].
  assert (Hx : exists sf, FloatOps.Prim2SF x = sf
                          /\ match sf with
                             | SpecFloat.S754_zero _
                             | SpecFloat.S754_finite _ _ _ => True
                             | _ => False
                             end).
  { eexists. split; [reflexivity|]. unfold FloatOps.Prim2SF.
    rewrite Hnan, Hinf.
    destruct (PrimFloat.is_zero x); [exact I|].
    destruct (FloatOps.Z.frexp x) as [r e].
    destruct (SpecFloat.shr_fexp _ _ _ _ _) as [shr e'].
    destruct (SpecFloat.shr_m shr); exact I. }
  destruct Hx as (sf & -> & Hsf).
  destruct sf as [s|s| |s m e]; try contradiction.
  - destruct s; reflexivity.
  - unfold FloatAxioms.SF64sub, SpecFloat.SFsub. cbv zeta.
    match goal with
    | |- SpecFloat.binary_normalize _ _ ?d _ _ = _ =>
        replace d with 0%Z by (symmetry; exact (Z.sub_diag _))
    end.
    reflexivity.
Qed.

(** Equal ratings and a known opponent: [exp] is called at [-0.0]. *)
Lemma binary64_E_equal_strength (mu : PrimFloat.float) :
  PrimFloat.is_finite mu = true -> E mu mu (lit 0) = lit 0.5.
Proof.
  intros Hfin. destruct libm as ((_ & Hen0 & _) & _).
  unfold E. cbn [dsub dneg dmul dadd ddiv dexp binary64].
  rewrite (binary64_sub_self mu Hfin).
  replace (PrimFloat.mul (PrimFloat.opp (g (lit 0))) PrimFloat.zero)
    with PrimFloat.neg_zero by (vm_compute; reflexivity).
  rewrite Hen0. vm_compute. reflexivity.
Qed.

(** [DBL_MAX - (-DBL_MAX)] overflows: [exp] is called at an infinity. *)
Lemma binary64_E_overflow :
  E DBL_MAX (PrimFloat.opp DBL_MAX) (lit 0) = PrimFloat.one
  /\ E (PrimFloat.opp DBL_MAX) DBL_MAX (lit 0) = PrimFloat.zero.
Proof. split; eval64; reflexivity. Qed.

(** [DBL_MAX / 173.7178 * 173.7178] overflows. *)
Lemma binary64_scale_overflow (s : Glicko2 PrimFloat.float) :
  GetRating (SetRating s DBL_MAX) = PrimFloat.infinity
  /\ GetDeviation (SetDeviation s DBL_MAX) = PrimFloat.infinity.
Proof. split; vm_compute; reflexivity. Qed.

(** *** [Update] at volatility [0.0]

    [a = log(0.0 * 0.0)] is minus infinity.  The guard holds at its first
    test ([abs(0.0 - a)] is infinite); the body computes [h1] from
    [x - a], the difference of two infinities, which is a NaN, and with it
    [x_new]; at its second test the guard compares a NaN with [0.0000001],
    which is false, and the loop is left with [x_new] a NaN. *)

Lemma zero_volatility_A_a :
  x_new_at (zero_volatility_A exp64 log64) 0 = PrimFloat.neg_infinity.
Proof. eval64. reflexivity. Qed.

Lemma zero_volatility_A_x_new :
  x_new_at (zero_volatility_A exp64 log64) 1 = PrimFloat.nan.
Proof. eval64. reflexivity. Qed.

Lemma zero_volatility_A_guard_0 :
  ~ guard_fails (zero_volatility_A exp64 log64) 0.
Proof. unfold guard_fails. eval64. discriminate. Qed.

Lemma zero_volatility_A_guard_1 :
  guard_fails (zero_volatility_A exp64 log64) 1.
Proof. unfold guard_fails. eval64. reflexivity. Qed.

Lemma zero_volatility_A_commit :
  Update_commit (zero_volatility_A exp64 log64) PrimFloat.nan
  = mkGlicko2 PrimFloat.nan PrimFloat.nan PrimFloat.nan [] [].
Proof. eval64. reflexivity. Qed.

Lemma zero_volatility_A_Update (fuel : nat) :
  Update (S fuel) (zero_volatility_A exp64 log64)
  = Ret (mkGlicko2 PrimFloat.nan PrimFloat.nan PrimFloat.nan [] []).
Proof.
  rewrite Update_unfold; [|reflexivity|discriminate].
  rewrite <- loop_from_0.
  rewrite (loop_from_step fuel _ 0 zero_volatility_A_guard_0).
  rewrite (loop_from_exit fuel _ 1 zero_volatility_A_guard_1).
  rewrite zero_volatility_A_x_new.
  cbn [mbind outcome_bind]. rewrite zero_volatility_A_commit. reflexivity.
Qed.

End Binary64_facts.

(** A NaN operand gives a NaN. *)
Lemma binary64_add_nan (x : PrimFloat.float) :
  PrimFloat.add x PrimFloat.nan = PrimFloat.nan.
Proof.
  apply FloatAxioms.Prim2SF_inj. rewrite FloatAxioms.add_spec.
  change (FloatOps.Prim2SF PrimFloat.nan) with SpecFloat.S754_nan.
  destruct (FloatOps.Prim2SF x); reflexivity.
Qed.

Lemma binary64_sub_nan (x : PrimFloat.float) :
  PrimFloat.sub x PrimFloat.nan = PrimFloat.nan.
Proof.
  apply FloatAxioms.Prim2SF_inj. rewrite FloatAxioms.sub_spec.
  change (FloatOps.Prim2SF PrimFloat.nan) with SpecFloat.S754_nan.
  destruct (FloatOps.Prim2SF x); reflexivity.
Qed.

Lemma binary64_mul_nan (x : PrimFloat.float) :
  PrimFloat.mul x PrimFloat.nan = PrimFloat.nan.
Proof.
  apply FloatAxioms.Prim2SF_inj. rewrite FloatAxioms.mul_spec.
  change (FloatOps.Prim2SF PrimFloat.nan) with SpecFloat.S754_nan.
  destruct (FloatOps.Prim2SF x); reflexivity.
Qed.

Lemma binary64_nan_mul (x : PrimFloat.float) :
  PrimFloat.mul PrimFloat.nan x = PrimFloat.nan.
Proof.
  apply FloatAxioms.Prim2SF_inj. rewrite FloatAxioms.mul_spec.
  change (FloatOps.Prim2SF PrimFloat.nan) with SpecFloat.S754_nan.
  destruct (FloatOps.Prim2SF x); reflexivity.
Qed.

Lemma binary64_nan_div (x : PrimFloat.float) :
  PrimFloat.div PrimFloat.nan x = PrimFloat.nan.
Proof.
  apply FloatAxioms.Prim2SF_inj. rewrite FloatAxioms.div_spec.
  change (FloatOps.Prim2SF PrimFloat.nan) with SpecFloat.S754_nan.
  destruct (FloatOps.Prim2SF x); reflexivity.
Qed.

(** *** [Update] at the default volatility, against a far weaker opponent

    [outclassing_A] is rated 198500 points above the opponent it has beaten:
    [exp] is called at about [-1137.5] and underflows, [1.0 + exp(...)] is
    [1.0] and [E] is exactly [1.0].  The only term of the variance sum is
    [g * g * 1.0 * (1.0 - 1.0)], so [variance] is [1.0 / 0.0], an infinity,
    and [delta] is [0.0] times an infinity, a NaN.  The loop is entered, its
    body computes [h1] and [x_new] from [delta], and the second test of the
    guard is false on the NaN. *)

Section Binary64_underflow.

Variables exp64 log64 : PrimFloat.float -> PrimFloat.float.
Hypothesis libm : annex_F exp64 log64.
Hypothesis under : exp_underflows exp64.
Hypothesis away : log_of_default_volatility log64.

#[local] Hint Extern 0 (Double PrimFloat.float) =>
  exact (binary64 exp64 log64) : typeclass_instances.

(** [underflow] computes a term and decides the call of [exp] on a computed
    argument below [-746]; [nans] propagates a NaN through the operations on
    the values that stay unknown. *)
Ltac underflow :=
  vm_compute;
  match goal with
  | |- context [exp64 ?x] =>
      lazymatch x with
      | context [log64] => fail
      | _ => let H := fresh in
             destruct (under x ltac:(vm_compute; reflexivity)) as [H|H];
             rewrite H; clear H; vm_compute
      end
  end.

Ltac nans :=
  repeat (progress rewrite ?binary64_nan_div, ?binary64_nan_mul,
                           ?binary64_mul_nan, ?binary64_add_nan,
                           ?binary64_sub_nan).

Lemma outclassing_A_E :
  E (rating (outclassing_A exp64 log64))
    (rating (Glicko2_new (lit 1500) (lit 30) (lit 0.06)))
    (deviation (Glicko2_new (lit 1500) (lit 30) (lit 0.06)))
  = PrimFloat.one.
Proof. underflow; reflexivity. Qed.

Lemma outclassing_A_variance :
  Update_variance (outclassing_A exp64 log64) = PrimFloat.infinity
  /\ Update_delta (outclassing_A exp64 log64) = PrimFloat.nan.
Proof. split; underflow; reflexivity. Qed.

Lemma outclassing_A_x_new :
  x_new_at (outclassing_A exp64 log64) 1 = PrimFloat.nan.
Proof. underflow; nans; reflexivity. Qed.

Lemma outclassing_A_guard_0 : ~ guard_fails (outclassing_A exp64 log64) 0.
Proof.
  unfold guard_fails. vm_compute.
  unfold log_of_default_volatility in away. vm_compute in away.
  rewrite away. discriminate.
Qed.

Lemma outclassing_A_guard_1 : guard_fails (outclassing_A exp64 log64) 1.
Proof.
  unfold guard_fails.
  change (x_at (outclassing_A exp64 log64) 1)
    with (x_new_at (outclassing_A exp64 log64) 0).
  rewrite outclassing_A_x_new.
  cbn [dsub dabs dgt binary64 lit]. rewrite binary64_sub_nan.
  vm_compute. reflexivity.
Qed.

Lemma outclassing_A_commit :
  Update_commit (outclassing_A exp64 log64) PrimFloat.nan
  = mkGlicko2 PrimFloat.nan PrimFloat.nan PrimFloat.nan [] [].
Proof.
  destruct libm as ((_ & _ & _ & _ & Henan) & _). vm_compute in Henan.
  underflow; rewrite ?Henan; vm_compute; reflexivity.
Qed.

Lemma outclassing_A_Update (fuel : nat) :
  Update (S fuel) (outclassing_A exp64 log64)
  = Ret (mkGlicko2 PrimFloat.nan PrimFloat.nan PrimFloat.nan [] []).
Proof.
  rewrite Update_unfold; [|reflexivity|discriminate].
  rewrite <- loop_from_0.
  rewrite (loop_from_step fuel _ 0 outclassing_A_guard_0).
  rewrite (loop_from_exit fuel _ 1 outclassing_A_guard_1).
  rewrite outclassing_A_x_new.
  cbn [mbind outcome_bind]. rewrite outclassing_A_commit. reflexivity.
Qed.

End Binary64_underflow.

(** The assumptions on [exp] and [log] can be met together. *)
Lemma libm_assumptions_met :
  annex_F exp_flushing log_linear
  /\ exp_underflows exp_flushing
  /\ log_of_default_volatility log_linear.
Proof.
  split; [|split].
  - repeat split; try (vm_compute; reflexivity).
    intros x Hx. unfold log_linear.
    destruct (PrimFloat.is_zero x) eqn:Hz.
    + exfalso. rewrite FloatAxioms.ltb_spec in Hx.
      unfold FloatOps.Prim2SF in Hx. rewrite Hz in Hx.
      destruct (PrimFloat.is_nan x); [discriminate|].
      destruct (PrimFloat.get_sign x); discriminate.
    + destruct (PrimFloat.Leibniz.eqb x PrimFloat.infinity) eqn:Hi.
      * apply FloatAxioms.Leibniz.eqb_spec in Hi. subst x. discriminate.
      * rewrite Hx. reflexivity.
  - intros x Hx. unfold exp_flushing. rewrite Hx. left. reflexivity.
  - vm_compute. reflexivity.
Qed.

(** The functions that have the special values and no others are an
    instance of the assumption. *)
Lemma annex_F_special_values : annex_F exp_special_values log_special_values.
Proof.
  repeat split; try (vm_compute; reflexivity).
  intros x Hx. unfold log_special_values.
  rewrite FloatAxioms.ltb_spec in Hx.
  destruct (PrimFloat.is_zero x) eqn:Hz.
  - exfalso. unfold FloatOps.Prim2SF in Hx. rewrite Hz in Hx.
    destruct (PrimFloat.is_nan x); [discriminate|].
    destruct (PrimFloat.get_sign x); discriminate.
  - destruct (PrimFloat.Leibniz.eqb x PrimFloat.one) eqn:H1.
    + apply FloatAxioms.Leibniz.eqb_spec in H1. subst x. discriminate.
    + destruct (PrimFloat.Leibniz.eqb x PrimFloat.infinity) eqn:Hi;
        [|reflexivity].
      apply FloatAxioms.Leibniz.eqb_spec in Hi. subst x. discriminate.
Qed.

(** C9.  Over the real numbers the expected score
    [E(mu, mu_j, phi_j) = 1 / (1 + exp(-g(phi_j) * (mu - mu_j)))] lies strictly
    between 0 and 1 for all arguments (a non-negative [phi_j] is not even
    needed), and [E(mu, mu, 0)] is [0.5] for every [mu].  In binary64
    [E(mu, mu, 0)] is [0.5] for every finite [mu]; the bounds are reached
    there ([binary64_E_reaches_0_and_1]). *)
Theorem expected_score_range :
  (forall mu mu_j phi_j : R,
      E mu mu_j phi_j = (1 / (1 + exp (- g phi_j * (mu - mu_j))))%R
      /\ (0 < E mu mu_j phi_j < 1)%R)
  /\ (forall mu : R, E mu mu 0%R = 0.5%R)
  /\ (forall exp64 log64 : PrimFloat.float -> PrimFloat.float,
        annex_F exp64 log64 ->
        forall mu : PrimFloat.float,
          PrimFloat.is_finite mu = true ->
          E (H := binary64 exp64 log64) mu mu (Q_to_binary64 0)
          = Q_to_binary64 0.5).
Proof.
  split; [|split].
  - intros mu mu_j phi_j. split; [apply E_real|apply E_bounds].
  - apply E_equal_strength.
  - intros exp64 log64 libm mu Hfin.
    apply (binary64_E_equal_strength exp64 log64 libm mu Hfin).
Qed.

(** ** The free store *)

Section Pointer_facts.

Context {D : Type} `{Double D}.

Lemma extends_refl (m : memory D) : extends m m.
Proof. repeat split; auto. Qed.

Lemma extends_trans (m1 m2 m3 : memory D) :
  extends m1 m2 -> extends m2 m3 -> extends m1 m3.
Proof.
  intros (Hn1 & Ho1 & Hc1) (Hn2 & Ho2 & Hc2). repeat split.
  - lia.
  - congruence.
  - intros l Hl. rewrite Hc2 by lia. apply Hc1. exact Hl.
Qed.

Lemma extends_cell (m m' : memory D) (l : nat) (c : Glicko2_impl D) :
  well_formed m -> extends m m' -> cells m !! l = Some c ->
  cells m' !! l = Some c.
Proof.
  intros (Hbelow & _) (_ & _ & Hc) Hl. rewrite Hc; [exact Hl|].
  apply (Hbelow l c Hl).
Qed.

(** A new cell whose vector holds cells that are below it, are no named
    objects and are elements of no other use. *)
Lemma new_impl_well_formed (m : memory D) (c : Glicko2_impl D) :
  well_formed m ->
  (forall l', l' ∈ impl_opponents c ->
     is_Some (cells m !! l')
     /\ (forall k, objects m !! k <> Some l')
     /\ (forall c' l'', cells m !! l' = Some c' -> l'' ∈ impl_opponents c' ->
           (l'' < l')%nat)) ->
  well_formed (new_impl c m).2 /\ extends m (new_impl c m).2.
Proof.
  intros (Hbelow & Hobj & Hinj & Hvec) Hc. split; [|repeat split; simpl; try lia].
  - assert (Hfresh : cells m !! next m = None).
    { destruct (cells m !! next m) as [c0|] eqn:Hn; [|reflexivity].
      pose proof (Hbelow _ _ Hn). lia. }
    split; [|split; [|split]]; simpl.
    + intros l c0 Hl. destruct (decide (l = next m)) as [->|Hne]; [lia|].
      rewrite lookup_insert_ne in Hl by congruence.
      pose proof (Hbelow _ _ Hl). lia.
    + intros k l Hk. destruct (Hobj k l Hk) as [c0 Hc0].
      exists c0. rewrite lookup_insert_ne; [exact Hc0|].
      intros <-. rewrite Hfresh in Hc0. discriminate.
    + exact Hinj.
    + assert (Hold : forall l' c', cells m !! l' = Some c' ->
                 <[next m := c]> (cells m) !! l' = Some c').
      { intros l' c' Hl'. rewrite lookup_insert_ne; [exact Hl'|].
        intros <-. rewrite Hfresh in Hl'. discriminate. }
      assert (Hback : forall l' c', l' <> next m ->
                 <[next m := c]> (cells m) !! l' = Some c' ->
                 cells m !! l' = Some c').
      { intros l' c' Hne Hl'. rewrite lookup_insert_ne in Hl' by congruence.
        exact Hl'. }
      assert (Hchild : forall l',
                 is_Some (cells m !! l')
                 /\ (forall k, objects m !! k <> Some l')
                 /\ (forall c' l'', cells m !! l' = Some c' ->
                       l'' ∈ impl_opponents c' -> (l'' < l')%nat) ->
                 is_Some (<[next m := c]> (cells m) !! l')
                 /\ (forall k, objects m !! k <> Some l')
                 /\ (forall c' l'', <[next m := c]> (cells m) !! l' = Some c' ->
                       l'' ∈ impl_opponents c' -> (l'' < l')%nat)).
      { intros l' ([c' Hc'] & Hroot & Hsmall). split; [|split].
        - exists c'. apply Hold. exact Hc'.
        - exact Hroot.
        - intros c'' l'' Hl' Hin. apply (Hsmall c'' l''); [|exact Hin].
          apply Hback; [|exact Hl']. intros ->. rewrite Hfresh in Hc'.
          discriminate. }
      intros l c0 l' Hl Hin. apply Hchild.
      destruct (decide (l = next m)) as [->|Hne].
      * rewrite lookup_insert_eq in Hl. injection Hl as <-.
        apply Hc. exact Hin.
      * apply (Hvec l c0 l'); [|exact Hin]. apply Hback; assumption.
  - intros l Hl. rewrite lookup_insert_ne by lia. reflexivity.
Qed.

End Pointer_facts.

Section Copy_facts.

Context {D : Type} `{Double D}.

Lemma copied_later (m m1 m2 : memory D) (p : nat) :
  copied m m1 p -> well_formed m2 -> extends m1 m2 ->
  (next m <= p < next m2)%nat
  /\ is_Some (cells m2 !! p)
  /\ (forall k, objects m2 !! k <> Some p)
  /\ (forall c' l'', cells m2 !! p = Some c' -> l'' ∈ impl_opponents c' ->
        (l'' < p)%nat).
Proof.
  intros (Hwf1 & Hext1 & Hp & Hroot & cp & Hcp & Hsmall) Hwf2 Hext2.
  pose proof (extends_cell m1 m2 p cp Hwf1 Hext2 Hcp) as Hcp2.
  destruct Hext2 as (Hn & Ho & _).
  split; [lia|]. split; [eauto|]. split.
  - rewrite Ho. exact Hroot.
  - intros c' l'' Hc'. rewrite Hcp2 in Hc'. injection Hc' as <-. apply Hsmall.
Qed.

Lemma copy_vector_spec (copy : nat -> memory D -> option (nat * memory D))
    (ok : nat -> Prop) :
  (forall l (m : memory D) c, well_formed m -> cells m !! l = Some c -> ok l ->
     (forall l', l' ∈ impl_opponents c -> (l' < l)%nat) ->
     exists p m', copy l m = Some (p, m') /\ copied m m' p) ->
  forall v (m : memory D),
    well_formed m ->
    (forall l, l ∈ v ->
       ok l /\ exists c, cells m !! l = Some c
                         /\ forall l', l' ∈ impl_opponents c -> (l' < l)%nat) ->
    exists ps m',
      copy_vector copy v m = Some (ps, m')
      /\ well_formed m' /\ extends m m'
      /\ forall p, p ∈ ps ->
           (next m <= p < next m')%nat
           /\ is_Some (cells m' !! p)
           /\ (forall k, objects m' !! k <> Some p)
           /\ (forall c' l'', cells m' !! p = Some c' ->
                 l'' ∈ impl_opponents c' -> (l'' < p)%nat).
Proof.
  intros Hcopy. induction v as [|l v IH]; intros m Hwf Hv.
  - exists [], m. split; [reflexivity|]. split; [exact Hwf|].
    split; [apply extends_refl|]. intros p Hp. inversion Hp.
  - destruct (Hv l) as (Hok & c & Hc & Hsmall); [left|].
    destruct (Hcopy l m c Hwf Hc Hok Hsmall) as (p & m1 & Hp & Hcopied).
    pose proof Hcopied as (Hwf1 & Hext1 & Hpn & _).
    destruct (IH m1 Hwf1) as (ps & m2 & Hps & Hwf2 & Hext2 & Hall).
    { intros l0 Hl0. destruct (Hv l0) as (Hok0 & c0 & Hc0 & Hsmall0); [right; exact Hl0|].
      split; [exact Hok0|]. exists c0. split; [|exact Hsmall0].
      apply (extends_cell m m1 l0 c0 Hwf Hext1 Hc0). }
    exists (p :: ps), m2. split; [|split; [exact Hwf2|split]].
    + simpl. rewrite Hp. simpl. rewrite Hps. reflexivity.
    + apply (extends_trans m m1 m2); assumption.
    + intros q Hq. apply elem_of_cons in Hq as [->|Hq].
      * apply (copied_later m m1 m2 p Hcopied Hwf2 Hext2).
      * destruct (Hall q Hq) as (Hqn & Hrest). split; [|exact Hrest].
        destruct Hext1 as (Hn1 & _). lia.
Qed.

(** The copy of a cell whose vector can be copied. *)
Lemma copy_impl_step (d : nat) (src : nat) (m : memory D) (c : Glicko2_impl D) :
  (forall l (m : memory D) c, well_formed m -> cells m !! l = Some c -> (l < d)%nat ->
     (forall l', l' ∈ impl_opponents c -> (l' < l)%nat) ->
     exists p m', copy_impl d l m = Some (p, m') /\ copied m m' p) ->
  well_formed m -> cells m !! src = Some c ->
  (forall l', l' ∈ impl_opponents c -> (l' < d)%nat) ->
  exists p m',
    copy_impl (S d) src m = Some (p, m') /\ copied m m' p
    /\ exists cp, cells m' !! p = Some cp
                  /\ impl_numbers cp = impl_numbers c
                  /\ impl_results cp = impl_results c
                  /\ (forall l0 c0, cells m' !! l0 = Some c0 ->
                        p ∉ impl_opponents c0).
Proof.
  intros Hcopy Hwf Hc Hbound.
  pose proof Hwf as (_ & _ & _ & Hvec).
  destruct (copy_vector_spec (copy_impl d) (fun l => (l < d)%nat) Hcopy
              (impl_opponents c) m Hwf) as (ps & m1 & Hps & Hwf1 & Hext1 & Hall).
  { intros l' Hl'. split; [apply Hbound; exact Hl'|].
    destruct (Hvec src c l' Hc Hl') as ([c' Hc'] & _ & Hsmall).
    exists c'. split; [exact Hc'|]. intros l'' Hl''. apply (Hsmall c' l'' Hc' Hl''). }
  set (cp := mkImpl (impl_rating c) (impl_deviation c) (impl_volatility c)
                    ps (impl_results c)).
  destruct (new_impl_well_formed m1 cp Hwf1) as [Hwf2 Hext2].
  { intros l' Hl'. destruct (Hall l' Hl') as (_ & Hsome & Hroot & Hsmall).
    auto. }
  exists (next m1), (new_impl cp m1).2.
  assert (Hcell : cells (new_impl cp m1).2 !! next m1 = Some cp)
    by (simpl; apply lookup_insert_eq).
  split; [|split].
  - simpl. rewrite Hc. simpl. fold cp. rewrite Hps. reflexivity.
  - split; [exact Hwf2|]. split; [apply (extends_trans m m1); assumption|].
    destruct Hext1 as (Hn1 & Ho1 & _).
    split; [simpl; lia|]. split.
    + intros k Hk. simpl in Hk.
      destruct Hwf1 as (Hbelow & Hobj & _).
      destruct (Hobj k _ Hk) as [c0 Hc0]. pose proof (Hbelow _ _ Hc0). lia.
    + exists cp. split; [exact Hcell|]. intros l'' Hl''.
      destruct (Hall l'' Hl'') as (Hn & _). lia.
  - exists cp. split; [exact Hcell|]. split; [reflexivity|].
    split; [reflexivity|]. intros l0 c0 Hl0 Hin.
    destruct Hwf2 as (Hbelow2 & _ & _ & Hvec2).
    destruct (Hvec2 l0 c0 (next m1) Hl0 Hin) as (_ & _ & Hsmall).
    destruct (decide (l0 = next m1)) as [->|Hne].
    + rewrite Hcell in Hl0. injection Hl0 as <-.
      destruct (Hall (next m1) Hin) as (Hn & _). lia.
    + simpl in Hl0. rewrite lookup_insert_ne in Hl0 by congruence.
      destruct Hwf1 as (Hbelow1 & _ & _ & Hvec1).
      destruct (Hvec1 l0 c0 (next m1) Hl0 Hin) as ([c1 Hc1] & _).
      pose proof (Hbelow1 _ _ Hc1). lia.
Qed.

(** A cell whose vector holds cells below it is copied with a nesting of
    its address, and more. *)
Lemma copy_impl_spec (d : nat) :
  forall l (m : memory D) c, well_formed m -> cells m !! l = Some c -> (l < d)%nat ->
    (forall l', l' ∈ impl_opponents c -> (l' < l)%nat) ->
    exists p m', copy_impl d l m = Some (p, m') /\ copied m m' p.
Proof.
  induction d as [|d IH]; intros l m c Hwf Hc Hl Hsmall; [lia|].
  destruct (copy_impl_step d l m c IH Hwf Hc) as (p & m' & Hp & Hcopied & _).
  { intros l' Hl'. pose proof (Hsmall l' Hl'). lia. }
  exists p, m'. split; assumption.
Qed.

(** The copy constructor returns on every well-formed memory, for every
    cell of it. *)
Lemma copy_object_returns (src : nat) (m : memory D) (c : Glicko2_impl D) :
  well_formed m -> cells m !! src = Some c ->
  exists p m',
    copy_object src m = Some (p, m') /\ copied m m' p
    /\ exists cp, cells m' !! p = Some cp
                  /\ impl_numbers cp = impl_numbers c
                  /\ impl_results cp = impl_results c
                  /\ (forall l0 c0, cells m' !! l0 = Some c0 ->
                        p ∉ impl_opponents c0).
Proof.
  intros Hwf Hc. unfold copy_object.
  apply (copy_impl_step (next m) src m c (copy_impl_spec (next m)) Hwf Hc).
  intros l' Hl'. pose proof Hwf as (Hbelow & _ & _ & Hvec).
  destruct (Hvec src c l' Hc Hl') as ([c' Hc'] & _).
  apply (Hbelow l' c' Hc').
Qed.

End Copy_facts.

Section Statement_facts.

Context {D : Type} `{Double D}.

Lemma empty_memory_well_formed : well_formed (empty_memory : memory D).
Proof.
  repeat split; simpl; intros; try (rewrite lookup_empty in *); discriminate.
Qed.

(** Assigning to the cell of a named object. *)
Lemma write_well_formed (m : memory D) (k l : nat) (c : Glicko2_impl D) :
  well_formed m -> objects m !! k = Some l ->
  (forall l', l' ∈ impl_opponents c ->
     is_Some (cells m !! l')
     /\ (forall k, objects m !! k <> Some l')
     /\ (forall c' l'', cells m !! l' = Some c' -> l'' ∈ impl_opponents c' ->
           (l'' < l')%nat)) ->
  well_formed (write l c m).
Proof.
  intros (Hbelow & Hobj & Hinj & Hvec) Hk Hc.
  assert (Hother : forall l' c', (forall k, objects m !! k <> Some l') ->
             (<[l := c]> (cells m) !! l' = Some c' <-> cells m !! l' = Some c')).
  { intros l' c' Hroot. rewrite lookup_insert_ne; [reflexivity|].
    intros <-. apply (Hroot k Hk). }
  assert (Hchild : forall l',
             is_Some (cells m !! l')
             /\ (forall k, objects m !! k <> Some l')
             /\ (forall c' l'', cells m !! l' = Some c' ->
                   l'' ∈ impl_opponents c' -> (l'' < l')%nat) ->
             is_Some (<[l := c]> (cells m) !! l')
             /\ (forall k, objects m !! k <> Some l')
             /\ (forall c' l'', <[l := c]> (cells m) !! l' = Some c' ->
                   l'' ∈ impl_opponents c' -> (l'' < l')%nat)).
  { intros l' ([c' Hc'] & Hroot & Hsmall). split; [|split].
    - exists c'. apply Hother; assumption.
    - exact Hroot.
    - intros c'' l'' Hl'. apply Hsmall. apply Hother; assumption. }
  destruct (Hobj k l Hk) as [c0 Hc0].
  split; [|split; [|split]]; simpl.
  - intros l0 c1 Hl0. destruct (decide (l0 = l)) as [->|Hne].
    + apply (Hbelow l c0 Hc0).
    + rewrite lookup_insert_ne in Hl0 by congruence. apply (Hbelow l0 c1 Hl0).
  - intros k0 l0 Hk0. destruct (decide (l0 = l)) as [->|Hne].
    + rewrite lookup_insert_eq. eauto.
    + rewrite lookup_insert_ne by congruence. apply (Hobj k0 l0 Hk0).
  - exact Hinj.
  - intros l0 c1 l' Hl0 Hin. apply Hchild.
    destruct (decide (l0 = l)) as [->|Hne].
    + rewrite lookup_insert_eq in Hl0. injection Hl0 as <-. apply Hc. exact Hin.
    + rewrite lookup_insert_ne in Hl0 by congruence.
      apply (Hvec l0 c1 l' Hl0 Hin).
Qed.

(** Naming a cell that is an element of no vector and no named object
    yet. *)
Lemma declare_well_formed (m : memory D) (self p : nat) :
  well_formed m -> is_Some (cells m !! p) ->
  (forall k, objects m !! k <> Some p) ->
  (forall l0 c0, cells m !! l0 = Some c0 -> p ∉ impl_opponents c0) ->
  well_formed (declare self p m).
Proof.
  intros (Hbelow & Hobj & Hinj & Hvec) Hp Hroot Helem.
  split; [exact Hbelow|]. split; [|split]; simpl.
  - intros k l Hk. destruct (decide (k = self)) as [->|Hne].
    + rewrite lookup_insert_eq in Hk. injection Hk as <-. exact Hp.
    + rewrite lookup_insert_ne in Hk by congruence. apply (Hobj k l Hk).
  - intros k k' l Hk Hk'.
    destruct (decide (k = self)) as [->|Hne], (decide (k' = self)) as [->|Hne'];
      try reflexivity.
    + rewrite lookup_insert_eq in Hk. injection Hk as <-.
      rewrite lookup_insert_ne in Hk' by congruence.
      exfalso. apply (Hroot k' Hk').
    + rewrite lookup_insert_eq in Hk'. injection Hk' as <-.
      rewrite lookup_insert_ne in Hk by congruence.
      exfalso. apply (Hroot k Hk).
    + rewrite lookup_insert_ne in Hk, Hk' by congruence.
      apply (Hinj k k' l Hk Hk').
  - intros l c l' Hl Hin. destruct (Hvec l c l' Hl Hin) as (Hsome & Hnot & Hsmall).
    split; [exact Hsome|]. split; [|exact Hsmall].
    intros k Hk. destruct (decide (k = self)) as [->|Hne].
    + rewrite lookup_insert_eq in Hk. injection Hk as <-.
      apply (Helem l c Hl Hin).
    + rewrite lookup_insert_ne in Hk by congruence. apply (Hnot k Hk).
Qed.

Lemma frames_extends (self : nat) (m m' : memory D) :
  well_formed m -> extends m m' -> frames self m m'.
Proof.
  intros Hwf Hext. split.
  - intros k _. destruct Hext as (_ & -> & _). reflexivity.
  - intros l c Hl _. apply (extends_cell m m' l c Hwf Hext Hl).
Qed.

Lemma modify_spec (self : nat) (f : Glicko2_impl D -> Glicko2_impl D)
    (m : memory D) :
  well_formed m ->
  (forall l c l', objects m !! self = Some l -> cells m !! l = Some c ->
     l' ∈ impl_opponents (f c) ->
     is_Some (cells m !! l')
     /\ (forall k, objects m !! k <> Some l')
     /\ (forall c' l'', cells m !! l' = Some c' -> l'' ∈ impl_opponents c' ->
           (l'' < l')%nat)) ->
  well_formed (modify self f m) /\ frames self m (modify self f m)
  /\ next (modify self f m) = next m.
Proof.
  intros Hwf Hf. unfold modify.
  destruct (objects m !! self) as [l|] eqn:Hself;
    [|split; [exact Hwf|split; [split; auto|reflexivity]]].
  destruct (cells m !! l) as [c|] eqn:Hl;
    [|split; [exact Hwf|split; [split; auto|reflexivity]]].
  split; [|split; [|reflexivity]].
  - apply (write_well_formed m self l (f c) Hwf Hself).
    intros l' Hl'. apply (Hf l c l' eq_refl Hl Hl').
  - split; [reflexivity|]. intros l0 c0 Hl0 Hne. simpl.
    rewrite lookup_insert_ne; [exact Hl0|]. congruence.
Qed.

Lemma construct_spec (self : nat) (s : Glicko2 D) (m : memory D) :
  well_formed m ->
  well_formed (construct self s m) /\ frames self m (construct self s m).
Proof.
  intros Hwf. unfold construct.
  set (c := with_numbers s (mkImpl (lit 0.0) (lit 0.0) (lit 0.0) [] [])).
  destruct (new_impl_well_formed m c Hwf) as [Hwf1 Hext1].
  { intros l' Hl'. inversion Hl'. }
  change (new_impl c m) with (next m, (new_impl c m).2). cbv iota beta.
  pose proof Hwf as (Hbelow & Hobj & _ & Hvec).
  split.
  - apply declare_well_formed.
    + exact Hwf1.
    + simpl. rewrite lookup_insert_eq. eauto.
    + simpl. intros k Hk. destruct (Hobj k _ Hk) as [c0 Hc0].
      pose proof (Hbelow _ _ Hc0). lia.
    + simpl. intros l0 c0 Hl0 Hin.
      destruct (decide (l0 = next m)) as [->|Hne].
      * rewrite lookup_insert_eq in Hl0. injection Hl0 as <-. inversion Hin.
      * rewrite lookup_insert_ne in Hl0 by congruence.
        destruct (Hvec l0 c0 (next m) Hl0 Hin) as ([c1 Hc1] & _).
        pose proof (Hbelow _ _ Hc1). lia.
  - split; simpl.
    + intros k Hk. rewrite lookup_insert_ne by congruence. reflexivity.
    + intros l c0 Hl _. rewrite lookup_insert_ne; [exact Hl|].
      intros <-. pose proof (Hbelow _ _ Hl). lia.
Qed.

Lemma push_result_spec (self opponent : nat) (result : RESULT)
    (m m' : memory D) :
  well_formed m -> push_result self opponent result m = Ret m' ->
  well_formed m' /\ frames self m m'.
Proof.
  intros Hwf. unfold push_result.
  destruct (objects m !! self) as [l|] eqn:Hself;
    [|intros [= <-]; split; [exact Hwf|split; auto]].
  destruct (objects m !! opponent) as [lo|] eqn:Hopp;
    [|intros [= <-]; split; [exact Hwf|split; auto]].
  pose proof Hwf as (_ & Hobj & _).
  destruct (Hobj opponent lo Hopp) as [co Hco].
  destruct (copy_object_returns lo m co Hwf Hco)
    as (p & m1 & Hcopy & Hcopied & _).
  rewrite Hcopy. intros [= <-].
  pose proof Hcopied as (Hwf1 & Hext1 & Hp & Hroot & cp & Hcp & Hsmall).
  match goal with
  | |- well_formed (modify self ?f m1) /\ _ =>
      destruct (modify_spec self f m1 Hwf1) as (Hwf2 & Hfr2 & _)
  end.
  { intros l1 c1 l' Hl1 Hc1 Hin. simpl in Hin.
    apply elem_of_app in Hin as [Hin|Hin].
    - destruct Hwf1 as (_ & _ & _ & Hvec1). apply (Hvec1 l1 c1 l' Hc1 Hin).
    - apply list_elem_of_singleton in Hin as ->.
      split; [eauto|]. split; [exact Hroot|].
      intros c' l'' Hc'. rewrite Hcp in Hc'. injection Hc' as <-. apply Hsmall. }
  split; [exact Hwf2|].
  destruct Hfr2 as [Hfo Hfc]. pose proof Hext1 as (_ & Ho1 & _). split.
  - intros k Hk. rewrite (Hfo k Hk), Ho1. reflexivity.
  - intros l0 c0 Hl0 Hne. apply Hfc.
    + apply (extends_cell m m1 l0 c0 Hwf Hext1 Hl0).
    + rewrite Ho1. exact Hne.
Qed.

Lemma p_exec_spec (fuel : nat) (c : stmt D) (m m' : memory D) :
  well_formed m -> p_exec fuel c m = Ret m' ->
  well_formed m' /\ frames (receiver c) m m'.
Proof.
  intros Hwf. pose proof Hwf as (Hbelow & Hobj & Hinj & Hvec).
  assert (Hsame : forall self, frames self m m) by (intros; split; auto).
  assert (Hkeep : forall self (f : Glicko2_impl D -> Glicko2_impl D),
             (forall c, impl_opponents (f c) = impl_opponents c
                        \/ impl_opponents (f c) = []) ->
             well_formed (modify self f m) /\ frames self m (modify self f m)).
  { intros self f Hf. destruct (modify_spec self f m Hwf) as (H1 & H2 & _);
      [|split; assumption].
    intros l c0 l' Hl Hc0 Hin. destruct (Hf c0) as [Heq|Heq]; rewrite Heq in Hin.
    - apply (Hvec l c0 l' Hc0 Hin).
    - inversion Hin. }
  destruct c as [self|self r d v|self rhs|self rhs|self x|self x|self x|self
                 |self opp result|self opp|self opp|self opp|self]; simpl.
  - intros [= <-]. apply construct_spec. exact Hwf.
  - intros [= <-]. apply construct_spec. exact Hwf.
  - destruct (objects m !! rhs) as [lr|] eqn:Hrhs;
      [|intros [= <-]; split; [exact Hwf|apply Hsame]].
    destruct (Hobj rhs lr Hrhs) as [cr Hcr].
    destruct (copy_object_returns lr m cr Hwf Hcr)
      as (p & m1 & Hcopy & Hcopied & cp & Hcp & _ & _ & Helem).
    rewrite Hcopy. intros [= <-].
    destruct Hcopied as (Hwf1 & Hext1 & Hp & Hroot & _).
    split.
    + apply declare_well_formed; eauto.
    + split; simpl.
      * intros k Hk. rewrite lookup_insert_ne by congruence.
        destruct Hext1 as (_ & -> & _). reflexivity.
      * intros l c0 Hl _. apply (extends_cell m m1 l c0 Hwf Hext1 Hl).
  - destruct (Nat.eqb self rhs); [intros [= <-]; split; [exact Hwf|apply Hsame]|].
    destruct (objects m !! self) as [l|] eqn:Hself;
      [|intros [= <-]; split; [exact Hwf|apply Hsame]].
    destruct (objects m !! rhs) as [lr|] eqn:Hrhs;
      [|intros [= <-]; split; [exact Hwf|apply Hsame]].
    destruct (cells m !! lr) as [cr|] eqn:Hcr; [|discriminate].
    destruct (copy_vector_spec (copy_impl (next m)) (fun l => (l < next m)%nat)
                (copy_impl_spec (next m)) (impl_opponents cr) m Hwf)
      as (ps & m1 & Hps & Hwf1 & Hext1 & Hall).
    { intros l' Hl'. destruct (Hvec lr cr l' Hcr Hl') as ([c' Hc'] & _ & Hsmall).
      split; [apply (Hbelow l' c' Hc')|]. exists c'. split; [exact Hc'|].
      intros l'' Hl''. apply (Hsmall c' l'' Hc' Hl''). }
    rewrite Hps. intros [= <-].
    pose proof Hext1 as (_ & Ho1 & _). split.
    + apply (write_well_formed m1 self l); [exact Hwf1|congruence|].
      simpl. intros l' Hl'. destruct (Hall l' Hl') as (_ & Hrest). exact Hrest.
    + split; simpl.
      * intros k _. rewrite Ho1. reflexivity.
      * intros l0 c0 Hl0 Hne. rewrite lookup_insert_ne by congruence.
        apply (extends_cell m m1 l0 c0 Hwf Hext1 Hl0).
  - intros [= <-]. apply Hkeep. intros c0. left. reflexivity.
  - intros [= <-]. apply Hkeep. intros c0. left. reflexivity.
  - intros [= <-]. apply Hkeep. intros c0. left. reflexivity.
  - intros [= <-]. apply Hkeep. intros c0. right. reflexivity.
  - apply push_result_spec. exact Hwf.
  - apply push_result_spec. exact Hwf.
  - apply push_result_spec. exact Hwf.
  - apply push_result_spec. exact Hwf.
  - destruct (objects m !! self) as [l|] eqn:Hself;
      [|intros [= <-]; split; [exact Hwf|apply Hsame]].
    destruct (view m l) as [s|]; [|discriminate].
    destruct (Nat.eqb (length (opponents s)) 0);
      [intros [= <-]; split; [exact Hwf|apply Hsame]|].
    destruct (Update fuel s) as [s'| |]; simpl; try discriminate.
    intros [= <-]. split.
    + apply (write_well_formed m self l); [exact Hwf|exact Hself|].
      simpl. intros l' Hl'. inversion Hl'.
    + split; simpl; [reflexivity|].
      intros l0 c0 Hl0 Hne. rewrite lookup_insert_ne by congruence. exact Hl0.
Qed.

Lemma p_run_app (fuel : nat) (p q : list (stmt D)) (m : memory D) :
  p_run fuel (p ++ q) m = (m' ← p_run fuel p m; p_run fuel q m').
Proof.
  revert m. induction p as [|c p IH]; intros m; simpl.
  - reflexivity.
  - destruct (p_exec fuel c m) as [m1| |]; simpl; [apply IH|reflexivity..].
Qed.

(** Every memory that a program builds from the empty one is well
    formed. *)
Lemma p_run_well_formed (fuel : nat) (p : list (stmt D)) :
  forall m m', well_formed m -> p_run fuel p m = Ret m' -> well_formed m'.
Proof.
  induction p as [|c p IH]; intros m m' Hwf; simpl.
  - intros [= <-]. exact Hwf.
  - destruct (p_exec fuel c m) as [m1| |] eqn:Hc; simpl; try discriminate.
    apply IH. apply (p_exec_spec fuel c m m1 Hwf Hc).
Qed.

(** On a well-formed memory every address that a statement reads holds a
    cell, and the copy constructor returns: a statement is out of bounds only
    where [Update] reads a result that was not recorded. *)
Lemma view_returns (m : memory D) (k l : nat) :
  well_formed m -> objects m !! k = Some l -> is_Some (view m l).
Proof.
  intros (_ & Hobj & _ & Hvec) Hk. destruct (Hobj k l Hk) as [c Hc].
  unfold view. rewrite Hc. simpl.
  destruct (mapM_is_Some_2 (fun l' => impl_numbers <$> cells m !! l')
              (impl_opponents c)) as [snapshots Hs].
  - apply Forall_forall. intros l' Hl'.
    destruct (Hvec l c l' Hc Hl') as ([c' Hc'] & _).
    simpl. rewrite Hc'. simpl. eauto.
  - rewrite Hs. simpl. eauto.
Qed.

Lemma p_exec_in_bounds (fuel : nat) (c : stmt D) (m : memory D) :
  well_formed m -> p_exec fuel c m = OutOfBounds ->
  exists self l s,
    c = Call_Update self /\ objects m !! self = Some l
    /\ view m l = Some s /\ Update fuel s = OutOfBounds.
Proof.
  intros Hwf. pose proof Hwf as (Hbelow & Hobj & _ & Hvec).
  assert (Hpush : forall self opp result,
             push_result self opp result m <> OutOfBounds).
  { intros self opp result. unfold push_result.
    destruct (objects m !! self) as [l|]; [|discriminate].
    destruct (objects m !! opp) as [lo|] eqn:Hopp; [|discriminate].
    destruct (Hobj opp lo Hopp) as [co Hco].
    destruct (copy_object_returns lo m co Hwf Hco) as (p & m1 & -> & _).
    discriminate. }
  destruct c as [self|self r d v|self rhs|self rhs|self x|self x|self x|self
                 |self opp result|self opp|self opp|self opp|self]; simpl;
    try discriminate;
    try (intros Hout; exfalso; apply (Hpush _ _ _ Hout)).
  - destruct (objects m !! rhs) as [lr|] eqn:Hrhs; [|discriminate].
    destruct (Hobj rhs lr Hrhs) as [cr Hcr].
    destruct (copy_object_returns lr m cr Hwf Hcr) as (p & m1 & -> & _).
    discriminate.
  - destruct (Nat.eqb self rhs); [discriminate|].
    destruct (objects m !! self) as [l|]; [|discriminate].
    destruct (objects m !! rhs) as [lr|] eqn:Hrhs; [|discriminate].
    destruct (Hobj rhs lr Hrhs) as [cr Hcr]. rewrite Hcr.
    destruct (copy_vector_spec (copy_impl (next m)) (fun l => (l < next m)%nat)
                (copy_impl_spec (next m)) (impl_opponents cr) m Hwf)
      as (ps & m1 & -> & _); [|discriminate].
    intros l' Hl'. destruct (Hvec lr cr l' Hcr Hl') as ([c' Hc'] & _ & Hsmall).
    split; [apply (Hbelow l' c' Hc')|]. exists c'. split; [exact Hc'|].
    intros l'' Hl''. apply (Hsmall c' l'' Hc' Hl'').
  - destruct (objects m !! self) as [l|] eqn:Hself; [|discriminate].
    destruct (view_returns m self l Hwf Hself) as [s Hs]. rewrite Hs.
    destruct (Nat.eqb (length (opponents s)) 0); [discriminate|].
    destruct (Update fuel s) as [s'| |] eqn:Hu; simpl; try discriminate.
    intros _. exists self, l, s. auto.
Qed.

End Statement_facts.

Section Isolation.

Context {D : Type} `{Double D}.

(** [view] reads the cell at [l] and the cells of its vector. *)
Lemma view_ext (m m' : memory D) (l : nat) (c : Glicko2_impl D) :
  cells m !! l = Some c -> cells m' !! l = Some c ->
  (forall l', l' ∈ impl_opponents c -> cells m' !! l' = cells m !! l') ->
  view m' l = view m l.
Proof.
  intros Hl Hl' Hvec. unfold view. rewrite Hl, Hl'. simpl.
  rewrite (Forall_mapM_ext (fun l' => impl_numbers <$> cells m' !! l')
                           (fun l' => impl_numbers <$> cells m !! l')
                           (impl_opponents c)); [reflexivity|].
  apply Forall_forall. intros l0 Hl0. rewrite (Hvec l0 Hl0). reflexivity.
Qed.

(** Statements with another receiver leave the view of an object as it
    is. *)
Lemma p_run_view (fuel : nat) (k : nat) (p : list (stmt D)) :
  Forall (fun c => receiver c <> k) p ->
  forall m m' l s,
    well_formed m -> objects m !! k = Some l -> view m l = Some s ->
    p_run fuel p m = Ret m' ->
    well_formed m' /\ objects m' !! k = Some l /\ view m' l = Some s.
Proof.
  induction 1 as [|c p Hc _ IH]; intros m m' l s Hwf Hk Hview; simpl.
  - intros [= <-]. auto.
  - destruct (p_exec fuel c m) as [m1| |] eqn:Hexec; simpl; try discriminate.
    destruct (p_exec_spec fuel c m m1 Hwf Hexec) as (Hwf1 & Hfo & Hfc).
    apply (IH m1 m' l s Hwf1).
    + rewrite Hfo by congruence. exact Hk.
    + rewrite <- Hview.
      pose proof Hwf as (_ & _ & Hinj & Hvec).
      unfold view in Hview. destruct (cells m !! l) as [cl|] eqn:Hl;
        [|discriminate].
      assert (Hroot : objects m !! receiver c <> Some l).
      { intros Hr. apply Hc. apply (Hinj _ _ l Hr Hk). }
      apply (view_ext m m1 l cl Hl (Hfc l cl Hl Hroot)).
      intros l' Hl'. destruct (Hvec l cl l' Hl Hl') as ([c' Hc'] & Hnot & _).
      rewrite Hc'. apply (Hfc l' c' Hc'). apply Hnot.
Qed.

Lemma p_run_single (fuel : nat) (c : stmt D) (m : memory D) :
  p_run fuel [c] m = p_exec fuel c m.
Proof. simpl. destruct (p_exec fuel c m); reflexivity. Qed.

(** When [Update] has work to do it leaves the two vectors empty. *)
Lemma Update_Ret_cleared (fuel : nat) (s s' : Glicko2 D) :
  opponents s <> [] -> Update fuel s = Ret s' ->
  s' = mkGlicko2 (rating s') (deviation s') (volatility s') [] [].
Proof.
  intros Hne. unfold Update.
  destruct (Nat.eqb (length (opponents s)) 0) eqn:Hempty.
  - apply Nat.eqb_eq in Hempty. destruct (opponents s); [congruence|discriminate].
  - destruct (for_loop (variance_body s) 0 (length (opponents s)) (lit 0.0))
      as [variance| |]; cbn [mbind outcome_bind]; try discriminate.
    destruct (for_loop (delta_body s) 0 (length (opponents s)) (lit 0.0))
      as [delta| |]; cbn [mbind outcome_bind]; try discriminate.
    destruct (solve_loop _ _ _ _ _ _ _) as [x_new| |];
      cbn [mbind outcome_bind]; try discriminate.
    intros [= <-]. reflexivity.
Qed.

(** [k.Update()] on an object with recorded games, as the caller sees it. *)
Lemma p_observe_Update (fuel : nat) (k l : nat) (m : memory D) (s : Glicko2 D) :
  objects m !! k = Some l -> view m l = Some s -> opponents s <> [] ->
  p_observe k (p_exec fuel (Call_Update k) m)
  = (s' ← Update fuel s; Ret (Some s')).
Proof.
  intros Hk Hview Hne. simpl. rewrite Hk, Hview.
  destruct (opponents s) as [|o os] eqn:Hos; [congruence|]. simpl length.
  change (Nat.eqb (S (length os)) 0) with false. cbv iota.
  destruct (Update fuel s) as [s'| |] eqn:Hu; simpl; try reflexivity.
  unfold p_observe. simpl. rewrite Hk. simpl.
  unfold view. simpl. rewrite lookup_insert_eq. simpl.
  rewrite (Update_Ret_cleared fuel s s') at 4; [reflexivity| |exact Hu].
  rewrite Hos. discriminate.
Qed.

(** The view of the subject once the result is recorded. *)
Lemma push_result_view (self opponent ls lo : nat) (result : RESULT)
    (m m' : memory D) (s : Glicko2 D) (co : Glicko2_impl D) :
  well_formed m ->
  objects m !! self = Some ls -> view m ls = Some s ->
  objects m !! opponent = Some lo -> cells m !! lo = Some co ->
  push_result self opponent result m = Ret m' ->
  view m' ls
  = Some (mkGlicko2 (rating s) (deviation s) (volatility s)
                    (opponents s ++ [impl_numbers co])
                    (results s ++ [score result])).
Proof.
  intros Hwf Hself Hview Hopp Hco. unfold push_result. rewrite Hself, Hopp.
  destruct (copy_object_returns lo m co Hwf Hco)
    as (p & m1 & Hcopy & Hcopied & cp & Hcp & Hnum & _ & _).
  rewrite Hcopy. intros [= <-].
  destruct Hcopied as (Hwf1 & Hext1 & Hp & _ & _).
  pose proof Hwf as (Hbelow & _ & _ & Hvec).
  unfold view in Hview. destruct (cells m !! ls) as [cs|] eqn:Hls; [|discriminate].
  simpl in Hview.
  destruct (mapM (fun l' => impl_numbers <$> cells m !! l') (impl_opponents cs))
    as [snapshots|] eqn:Hsnap; [|discriminate].
  injection Hview as <-. cbn [rating deviation volatility opponents results].
  pose proof (extends_cell m m1 ls cs Hwf Hext1 Hls) as Hls1.
  destruct Hext1 as (_ & Ho1 & Hc1).
  unfold modify. rewrite Ho1, Hself, Hls1.
  unfold view. simpl. rewrite lookup_insert_eq. simpl.
  assert (Hne : p <> ls) by (pose proof (Hbelow ls cs Hls); lia).
  rewrite (proj2 (mapM_Some _ _ (snapshots ++ [impl_numbers co]))); [reflexivity|].
  apply Forall2_app.
  - apply mapM_Some in Hsnap.
    apply Forall2_same_length_lookup_2; [apply (Forall2_length _ _ _ Hsnap)|].
    intros i l' y Hi Hy.
    pose proof (Forall2_lookup_lr _ _ _ _ _ _ Hsnap Hi Hy) as Hly.
    simpl in Hly.
    assert (Hin : l' ∈ impl_opponents cs) by (eapply list_elem_of_lookup_2; eauto).
    destruct (Hvec ls cs l' Hls Hin) as ([c' Hc'] & Hnot & _).
    assert (l' <> ls) by (intros ->; apply (Hnot self Hself)).
    rewrite lookup_insert_ne by congruence.
    rewrite Hc1 by (apply (Hbelow l' c' Hc')). exact Hly.
  - constructor; [|constructor].
    rewrite lookup_insert_ne by congruence. rewrite Hcp. simpl.
    rewrite Hnum. reflexivity.
Qed.

(** C4.  [subject.AddResult(opponent, result)] stores a copy of the
    opponent: a cell of its own, made by the copy constructor.  Let the
    program go on with any statements that write to the opponent (its
    setters, its own [Update()], results added to it, assignments to it, even
    a new declaration of its name) and that return.  Then
    [subject.Update()] leaves in the subject what it leaves when it is
    called right after the result was recorded; this is the update of the
    subject as it was, with one more game: the numbers that the cell of the
    opponent held when the result was recorded, and the score of the
    result; and of those numbers only the rating and the deviation count. *)
Theorem snapshot_isolation (fuel : nat) (m m2 : memory D)
    (subject opponent ls lo : nat) (s : Glicko2 D) (co : Glicko2_impl D)
    (result : RESULT) (mutate_O : list (stmt D)) :
  well_formed m ->
  subject <> opponent ->
  objects m !! subject = Some ls -> view m ls = Some s ->
  objects m !! opponent = Some lo -> cells m !! lo = Some co ->
  Forall (fun c => receiver c = opponent) mutate_O ->
  p_run fuel (Call_AddResult subject opponent result :: mutate_O) m = Ret m2 ->
  p_observe subject
    (p_run fuel (Call_AddResult subject opponent result
                 :: mutate_O ++ [Call_Update subject]) m)
  = p_observe subject
      (p_run fuel [Call_AddResult subject opponent result;
                   Call_Update subject] m)
  /\ p_observe subject
       (p_run fuel (Call_AddResult subject opponent result
                    :: mutate_O ++ [Call_Update subject]) m)
     = (s' ← Update fuel (mkGlicko2 (rating s) (deviation s) (volatility s)
                                    (opponents s ++ [impl_numbers co])
                                    (results s ++ [score result]));
        Ret (Some s'))
  /\ (forall o' : Glicko2 D,
        rating o' = impl_rating co -> deviation o' = impl_deviation co ->
        Update fuel (mkGlicko2 (rating s) (deviation s) (volatility s)
                               (opponents s ++ [o'])
                               (results s ++ [score result]))
        = Update fuel (mkGlicko2 (rating s) (deviation s) (volatility s)
                                 (opponents s ++ [impl_numbers co])
                                 (results s ++ [score result]))).
Proof.
  intros Hwf Hdistinct Hsubject Hview Hopponent Hco Hrecv Hrun.
  set (recorded := mkGlicko2 (rating s) (deviation s) (volatility s)
                             (opponents s ++ [impl_numbers co])
                             (results s ++ [score result])).
  assert (Hgames : opponents recorded <> []).
  { simpl. intros Hnil. apply app_eq_nil in Hnil as [_ Hnil]. discriminate. }
  pose proof Hrun as Hrest. simpl in Hrest.
  destruct (push_result subject opponent result m) as [m1| |] eqn:Hpush;
    simpl in Hrest; try discriminate.
  destruct (push_result_spec subject opponent result m m1 Hwf Hpush)
    as (Hwf1 & Hfo1 & _).
  assert (Hsubject1 : objects m1 !! subject = Some ls).
  { unfold push_result in Hpush. rewrite Hsubject, Hopponent in Hpush.
    destruct (copy_object lo m) as [[p mc]|] eqn:Hcopy; [|discriminate].
    injection Hpush as <-.
    pose proof Hwf as (_ & Hobj & _).
    destruct (copy_object_returns lo m co Hwf Hco)
      as (p' & mc' & Hcopy' & (_ & (_ & Ho & _) & _) & _).
    rewrite Hcopy in Hcopy'. injection Hcopy' as <- <-.
    unfold modify. rewrite Ho, Hsubject.
    destruct (cells mc !! ls); simpl; rewrite Ho; exact Hsubject. }
  pose proof (push_result_view subject opponent ls lo result m m1 s co
                Hwf Hsubject Hview Hopponent Hco Hpush) as Hview1.
  fold recorded in Hview1.
  destruct (p_run_view fuel subject mutate_O) with (m := m1) (m' := m2)
    (l := ls) (s := recorded) as (Hwf2 & Hsubject2 & Hview2); auto.
  { eapply Forall_impl; [exact Hrecv|]. simpl. intros c ->. auto. }
  assert (Hlong : p_observe subject
            (p_run fuel (Call_AddResult subject opponent result
                         :: mutate_O ++ [Call_Update subject]) m)
          = (s' ← Update fuel recorded; Ret (Some s'))).
  { change (Call_AddResult subject opponent result
            :: mutate_O ++ [Call_Update subject])
      with ((Call_AddResult subject opponent result :: mutate_O)
            ++ [Call_Update subject]).
    rewrite p_run_app, Hrun. cbn [mbind outcome_bind].
    rewrite p_run_single.
    apply (p_observe_Update fuel subject ls m2 recorded
             Hsubject2 Hview2 Hgames). }
  assert (Hshort : p_observe subject
            (p_run fuel [Call_AddResult subject opponent result;
                         Call_Update subject] m)
          = (s' ← Update fuel recorded; Ret (Some s'))).
  { change (p_run fuel [Call_AddResult subject opponent result;
                        Call_Update subject] m)
      with (m' ← push_result subject opponent result m;
            p_run fuel [Call_Update subject] m').
    rewrite Hpush. cbn [mbind outcome_bind]. rewrite p_run_single.
    apply (p_observe_Update fuel subject ls m1 recorded
             Hsubject1 Hview1 Hgames). }
  split; [rewrite Hlong, Hshort; reflexivity|].
  split; [exact Hlong|].
  intros o' Hr Hd. apply Update_same_snapshots; try reflexivity.
  simpl. apply Forall2_app.
  - apply Forall2_same_length_lookup_2; [reflexivity|].
    intros i x y Hx Hy. rewrite Hx in Hy. injection Hy as <-. split; reflexivity.
  - constructor; [split; assumption|constructor].
Qed.

End Isolation.

(** ** The rating period that never ends, and the theorems at work *)

Section Instances.

Local Open Scope R_scope.

(** C5, refuted as stated.  Nothing caps the [while] loop: on [cycling_A]
    (rating 1500, deviation 17.37178, volatility 0.06, 600 wins against
    [B(1500, 0, 0.06)]) [Update] is still in the loop after every number of
    iterations, so it never returns. *)
Lemma cycling_A_Update_never_returns :
  (forall fuel, Update fuel cycling_A = Timeout)
  /\ ~ (exists fuel s', Update fuel cycling_A = Ret s').
Proof.
  assert (Hrun : forall fuel, Update fuel cycling_A = Timeout).
  { intros fuel.
    rewrite (Update_unfold fuel cycling_A cycling_A_paired cycling_A_games).
    rewrite cycling_A_loop_never_ends. reflexivity. }
  split; [exact Hrun|].
  intros (fuel & s' & Hret). rewrite Hrun in Hret. discriminate.
Qed.

(** C6, refuted as stated.  On [cycling_A] the solver has not converged
    after 100 iterations, nor after any other number, and [Update] reports
    nothing: for no budget does it come back to the caller, with or without
    the object it was given. *)
Lemma cycling_A_no_failure_reported :
  Update_solve 100 cycling_A = Timeout
  /\ (forall bound, Update_solve bound cycling_A = Timeout)
  /\ (forall fuel s', Update fuel cycling_A <> Ret s').
Proof.
  split; [apply cycling_A_loop_never_ends|].
  split; [apply cycling_A_loop_never_ends|].
  intros fuel s'.
  rewrite (Update_unfold fuel cycling_A cycling_A_paired cycling_A_games).
  rewrite cycling_A_loop_never_ends. discriminate.
Qed.

(** C1, refuted as stated.  [cycling_A] has recorded games and [Update]
    commits nothing to it: for no budget does it return the object with the
    values of the claim, whatever the new volatility is taken to be. *)
Lemma cycling_A_commits_no_values :
  paired cycling_A /\ opponents cycling_A <> []
  /\ (forall (fuel : nat) (sigma' : R),
        Update fuel cycling_A
        <> Ret (mkGlicko2 (Spec.mu' cycling_A sigma')
                          (Spec.phi' cycling_A sigma') sigma' [] [])).
Proof.
  split; [exact cycling_A_paired|]. split; [exact cycling_A_games|].
  intros fuel sigma'.
  rewrite (Update_unfold fuel cycling_A cycling_A_paired cycling_A_games).
  rewrite cycling_A_loop_never_ends. discriminate.
Qed.

(** C7, refuted as stated.  [zero_volatility_A] is
    [A(1500.0, 200.0, 0.0)] after [A.AddWin(B)] with [B(1500.0, 30.0, 0.06)]:
    one recorded game, a finite positive deviation, a finite rating and a
    finite volatility.  In binary64, for every budget of one iteration or
    more, [Update] returns with a NaN in rating, deviation and volatility.
    So it does on [outclassing_A], which is [A(200000.0, 200.0, 0.06)] after
    [A.AddWin(B)] with the same [B], when [exp] underflows below [-746] and
    [log(0.06 * 0.06)] is not within [0.0000001] of zero. *)
Lemma binary64_Update_commits_NaN :
  (forall exp64 log64 : PrimFloat.float -> PrimFloat.float,
      paired (zero_volatility_A exp64 log64)
      /\ length (opponents (zero_volatility_A exp64 log64)) = 1%nat
      /\ PrimFloat.is_finite (rating (zero_volatility_A exp64 log64)) = true
      /\ PrimFloat.is_finite (deviation (zero_volatility_A exp64 log64)) = true
      /\ PrimFloat.ltb PrimFloat.zero
                       (deviation (zero_volatility_A exp64 log64)) = true
      /\ volatility (zero_volatility_A exp64 log64) = PrimFloat.zero)
  /\ (forall exp64 log64 : PrimFloat.float -> PrimFloat.float,
        annex_F exp64 log64 ->
        forall fuel : nat,
          Update (H := binary64 exp64 log64) (S fuel)
                 (zero_volatility_A exp64 log64)
          = Ret (mkGlicko2 PrimFloat.nan PrimFloat.nan PrimFloat.nan [] []))
  /\ (forall exp64 log64 : PrimFloat.float -> PrimFloat.float,
        paired (outclassing_A exp64 log64)
        /\ length (opponents (outclassing_A exp64 log64)) = 1%nat
        /\ PrimFloat.is_finite (rating (outclassing_A exp64 log64)) = true
        /\ PrimFloat.is_finite (deviation (outclassing_A exp64 log64)) = true
        /\ PrimFloat.ltb PrimFloat.zero
                         (deviation (outclassing_A exp64 log64)) = true
        /\ volatility (outclassing_A exp64 log64) = Q_to_binary64 0.06)
  /\ (forall exp64 log64 : PrimFloat.float -> PrimFloat.float,
        annex_F exp64 log64 ->
        exp_underflows exp64 ->
        log_of_default_volatility log64 ->
        forall fuel : nat,
          Update (H := binary64 exp64 log64) (S fuel)
                 (outclassing_A exp64 log64)
          = Ret (mkGlicko2 PrimFloat.nan PrimFloat.nan PrimFloat.nan [] [])).
Proof.
  split; [|split; [|split]].
  - intros exp64 log64. repeat split; vm_compute; reflexivity.
  - intros exp64 log64 libm fuel.
    apply (zero_volatility_A_Update exp64 log64 libm fuel).
  - intros exp64 log64. repeat split; vm_compute; reflexivity.
  - intros exp64 log64 libm under away fuel.
    apply (outclassing_A_Update exp64 log64 libm under away fuel).
Qed.

(** C8, refuted as stated.  [DBL_MAX] is finite; in binary64 a rating or a
    deviation set to it reads back as plus infinity. *)
Lemma binary64_round_trip_overflows :
  PrimFloat.is_finite DBL_MAX = true
  /\ (forall (exp64 log64 : PrimFloat.float -> PrimFloat.float)
             (s : Glicko2 PrimFloat.float),
        GetRating (H := binary64 exp64 log64)
                  (SetRating (H := binary64 exp64 log64) s DBL_MAX)
        = PrimFloat.infinity)
  /\ (forall (exp64 log64 : PrimFloat.float -> PrimFloat.float)
             (s : Glicko2 PrimFloat.float),
        GetDeviation (H := binary64 exp64 log64)
                     (SetDeviation (H := binary64 exp64 log64) s DBL_MAX)
        = PrimFloat.infinity).
Proof.
  split; [vm_compute; reflexivity|].
  split; intros exp64 log64 s;
    apply (binary64_scale_overflow exp64 log64 s).
Qed.

Lemma scale_round_trip_witness :
  Rabs (GetRating (H := rounded rounding_away)
                  (SetRating (H := rounded rounding_away)
                             (Glicko2_default (H := R_double)) 1464.06)
        - 1464.06)
  <= / 2 ^ 53 * (5 * Rabs 1464.06 + 9600)
  /\ Rabs (GetDeviation (H := rounded rounding_away)
                        (SetDeviation (H := rounded rounding_away)
                                      (Glicko2_default (H := R_double)) 151.52)
           - 151.52)
     <= 3 * / 2 ^ 53 * Rabs 151.52.
Proof.
  destruct scale_round_trip as [_ Hrounded].
  apply (Hrounded rounding_away (/ 2 ^ 53)).
  - split; [apply Rlt_le, Rinv_0_lt_compat|]; lra.
  - exact rounding_away_error.
Defined.

(** C9, refuted as stated.  [DBL_MAX] and [-DBL_MAX] are finite; in
    binary64 the expected score of the one against the other, of known
    strength, is exactly [1.0], and the other way round exactly [0.0].  And
    where [exp] underflows below [-746], the expected score of
    [A(200000.0, 200.0, 0.06)] against [B(1500.0, 30.0, 0.06)] is exactly
    [1.0]. *)
Lemma binary64_E_reaches_0_and_1 :
  (PrimFloat.is_finite DBL_MAX = true
   /\ PrimFloat.is_finite (PrimFloat.opp DBL_MAX) = true)
  /\ (forall exp64 log64 : PrimFloat.float -> PrimFloat.float,
        annex_F exp64 log64 ->
        E (H := binary64 exp64 log64)
          DBL_MAX (PrimFloat.opp DBL_MAX) (Q_to_binary64 0)
        = PrimFloat.one
        /\ E (H := binary64 exp64 log64)
             (PrimFloat.opp DBL_MAX) DBL_MAX (Q_to_binary64 0)
           = PrimFloat.zero)
  /\ (forall exp64 log64 : PrimFloat.float -> PrimFloat.float,
        exp_underflows exp64 ->
        let A := Glicko2_new (H := binary64 exp64 log64)
                   (Q_to_binary64 200000) (Q_to_binary64 200)
                   (Q_to_binary64 0.06) in
        let B := Glicko2_new (H := binary64 exp64 log64)
                   (Q_to_binary64 1500) (Q_to_binary64 30)
                   (Q_to_binary64 0.06) in
        PrimFloat.is_finite (rating A) = true
        /\ PrimFloat.is_finite (rating B) = true
        /\ PrimFloat.is_finite (deviation B) = true
        /\ PrimFloat.leb PrimFloat.zero (deviation B) = true
        /\ E (H := binary64 exp64 log64) (rating A) (rating B) (deviation B)
           = PrimFloat.one).
Proof.
  split; [split; vm_compute; reflexivity|]. split.
  - intros exp64 log64 libm. apply (binary64_E_overflow exp64 log64 libm).
  - intros exp64 log64 under A B.
    repeat split; try (vm_compute; reflexivity).
    apply (outclassing_A_E exp64 log64 under).
Qed.

Lemma expected_score_range_witness :
  E (H := binary64 exp_special_values log_special_values)
    (Q_to_binary64 1500) (Q_to_binary64 1500) (Q_to_binary64 0)
  = Q_to_binary64 0.5.
Proof.
  destruct expected_score_range as (_ & _ & Hmachine).
  apply (Hmachine _ _ annex_F_special_values). reflexivity.
Defined.

(** On [cycling_A] the guard of the loop holds at every one of its tests. *)
Lemma cycling_A_guard_always_holds (k : nat) : ~ guard_fails cycling_A k.
Proof.
  intros Hg.
  destruct (loop_from_converges cycling_A k 0 Hg) as (x_new & Hx).
  rewrite loop_from_0, cycling_A_loop_never_ends in Hx. discriminate.
Qed.

Lemma Update_without_results_witness :
  Update 0 (Glicko2_default : Glicko2 R) = Ret Glicko2_default
  /\ (forall s', Update 0 (Glicko2_default : Glicko2 R) = Ret s' ->
        rating s' = rating (Glicko2_default : Glicko2 R)
        /\ deviation s' = deviation (Glicko2_default : Glicko2 R)
        /\ volatility s' = volatility (Glicko2_default : Glicko2 R)
        /\ opponents s' = []
        /\ results s' = results (Glicko2_default : Glicko2 R)).
Proof.
  apply (Update_without_results 0 (Glicko2_default : Glicko2 R)).
  reflexivity.
Defined.

Lemma Update_terminates_iff_witness :
  (exists fuel s', Update fuel steady_A = Ret s')
  <-> (exists k, guard_fails steady_A k).
Proof.
  apply (Update_terminates_iff steady_A).
  - reflexivity.
  - discriminate.
Defined.

Lemma Update_all_or_nothing_witness :
  (Update_solve 1 steady_A = Timeout -> Update 1 steady_A = Timeout)
  /\ (forall x_new, Update_solve 1 steady_A = Ret x_new ->
        Update 1 steady_A = Ret (Update_commit steady_A x_new)
        /\ opponents (Update_commit steady_A x_new) = []
        /\ results (Update_commit steady_A x_new) = [])
  /\ Update 1 steady_A <> OutOfBounds.
Proof.
  apply (Update_all_or_nothing 1 steady_A).
  - reflexivity.
  - discriminate.
Defined.

Lemma Update_commits_spec_values_witness :
  Update_variance steady_A = Spec.v steady_A
  /\ Update_delta steady_A = Spec.Delta steady_A
  /\ Update 1 steady_A
     = Ret (mkGlicko2 (Spec.mu' steady_A (exp (Update_a steady_A / 2)))
                      (Spec.phi' steady_A (exp (Update_a steady_A / 2)))
                      (exp (Update_a steady_A / 2)) [] []).
Proof.
  apply (Update_commits_spec_values 1 steady_A (Update_a steady_A)).
  - reflexivity.
  - discriminate.
  - exact steady_A_within_reals.
  - exact steady_A_solve.
Defined.

Lemma Update_deviation_positive_witness :
  (forall j, 0 < Spec.E_j steady_A j * (1 - Spec.E_j steady_A j))
  /\ 0 < variance_sum steady_A
  /\ exists s', Update 1 steady_A = Ret s'
                /\ 0 < deviation s' /\ 0 < volatility s'.
Proof.
  apply (Update_deviation_positive 1 steady_A (Update_a steady_A)).
  - reflexivity.
  - discriminate.
  - exact steady_A_within_reals.
  - exact steady_A_solve.
Defined.

(** [Glicko2 A(1500.0, 277.94848, 0.8), B(1500.0, 0.0, 0.06);], four times
    [A.AddWin(B);], then [A.AddResult(B, WIN);], then [B.SetRating(2000.0);
    B.SetDeviation(10.0); B.AddWin(A); B.ClearResults(); B.Update();], then
    [A.Update();], run in the free store with a budget of one iteration:
    [A] is updated as [steady_A] is, to rating [8/5], deviation [4/5] and
    volatility [4/5]. *)
Lemma snapshot_isolation_witness :
  p_observe 0
    (p_run 1 ([New_with 0 1500 277.94848 0.8; New_with 1 1500 0 0.06;
               Call_AddWin 0 1; Call_AddWin 0 1; Call_AddWin 0 1;
               Call_AddWin 0 1]
              ++ Call_AddResult 0 1 WIN
                 :: [Call_SetRating 1 2000; Call_SetDeviation 1 10;
                     Call_AddWin 1 0; Call_ClearResults 1; Call_Update 1]
                 ++ [Call_Update 0])
           empty_memory)
  = Ret (Some (mkGlicko2 (8 / 5) (4 / 5) (4 / 5) [] [])).
Proof.
  set (declarations := [New_with 0 1500 277.94848 0.8; New_with 1 1500 0 0.06;
                        Call_AddWin 0 1; Call_AddWin 0 1; Call_AddWin 0 1;
                        Call_AddWin 0 1] : list (stmt R)).
  set (mutate_B := [Call_SetRating 1 2000; Call_SetDeviation 1 10;
                    Call_AddWin 1 0; Call_ClearResults 1; Call_Update 1]
                   : list (stmt R)).
  assert (Hm : exists m, p_run 1 declarations empty_memory = Ret m
                    /\ well_formed m
                    /\ objects m !! 0%nat = Some 0%nat
                    /\ view m 0%nat = Some (Nat.iter 4 (fun s => AddWin s opponent_B)
                        (Glicko2_new 1500 277.94848 0.8))
                    /\ objects m !! 1%nat = Some 1%nat
                    /\ cells m !! 1%nat = Some (with_numbers opponent_B (mkImpl 0 0 0 [] []))
                    /\ exists m2, p_run 1 (Call_AddResult 0 1 WIN :: mutate_B) m = Ret m2).
  { eexists. split; [vm_compute; reflexivity|].
    split.
    - eapply (p_run_well_formed 1 declarations empty_memory);
        [apply empty_memory_well_formed|vm_compute; reflexivity].
    - repeat split; try (vm_compute; reflexivity).
      eexists. vm_compute. reflexivity. }
  destruct Hm as (m & Hm & Hwf & H0 & Hview & H1 & HB & m2 & Hrun).
  rewrite p_run_app, Hm. cbn [mbind outcome_bind].
  destruct (snapshot_isolation 1 m m2 0%nat 1%nat 0%nat 1%nat
              (Nat.iter 4 (fun s => AddWin s opponent_B)
                        (Glicko2_new 1500 277.94848 0.8))
              (with_numbers opponent_B (mkImpl 0 0 0 [] [])) WIN mutate_B)
    as (_ & Hobserved & _); try assumption.
  - lia.
  - repeat constructor.
  - rewrite Hobserved.
    change (mkGlicko2 _ _ _ _ _) with steady_A at 1.
    rewrite steady_A_Update. reflexivity.
Defined.


(** [Glicko2 A, B(1400.0, 30.0, 0.06); A.AddWin(B); A.AddDraw(B);
    B.AddLoss(A); B.ClearResults(); B.Update();] leaves [A] with two
    opponents and two results. *)
Lemma paired_log_invariant_witness :
  let A := AddDraw (AddWin Glicko2_default (Glicko2_new 1400 30 0.06))
                   (Glicko2_new 1400 30 0.06 : Glicko2 R) in
  length (opponents A) = length (results A)
  /\ (forall i, (i < length (opponents A))%nat -> is_Some (results A !! i))
  /\ (forall fuel', Update fuel' A <> OutOfBounds).
Proof.
  intros A.
  eapply (paired_log_invariant 0
            [New_default 0; New_with 1 1400 30 0.06;
             Call_AddWin 0 1; Call_AddDraw 0 1; Call_AddLoss 1 0;
             Call_ClearResults 1; Call_Update 1]
            _ 0%nat A).
  - reflexivity.
  - reflexivity.
Defined.

End Instances.

(** * Further properties of the code *)

(** ** The weighting [g] and the expected score [E] *)

Section Pairwise.

Local Open Scope R_scope.

Lemma g_sqrt_arg_pos (phi : R) :
  0 < 1 + 3 * phi * phi / 9.86960440108935861883.
Proof.
  assert (0 <= 3 * phi * phi / 9.86960440108935861883).
  { apply Rmult_le_pos; [nra|]. apply Rlt_le, Rinv_0_lt_compat. lra. }
  lra.
Qed.

(** X1.  [g] over the real numbers: [g(0) = 1]; [g] takes its values in
    [(0, 1]]; it does not see the sign of the deviation; and it is strictly
    decreasing on the non-negative deviations. *)
Theorem g_shape :
  g 0 = 1
  /\ (forall phi : R, 0 < g phi <= 1)
  /\ (forall phi : R, g (- phi) = g phi)
  /\ (forall phi phi' : R, 0 <= phi < phi' -> g phi' < g phi).
Proof.
  split; [exact g_0|]. split; [|split].
  - intros phi. split; [apply g_pos|].
    rewrite g_real. pose proof (g_sqrt_arg_pos phi) as Hpos.
    assert (H1 : 1 <= sqrt (1 + 3 * phi * phi / 9.86960440108935861883)).
    { rewrite <- sqrt_1 at 1. apply sqrt_le_1_alt.
      assert (0 <= 3 * phi * phi / 9.86960440108935861883).
      { apply Rmult_le_pos; [nra|]. apply Rlt_le, Rinv_0_lt_compat. lra. }
      lra. }
    apply (Rmult_le_reg_r (sqrt (1 + 3 * phi * phi / 9.86960440108935861883)));
      [lra|].
    unfold Rdiv. rewrite Rmult_assoc, Rinv_l by lra. lra.
  - intros phi. rewrite !g_real. f_equal. f_equal. f_equal. f_equal. ring.
  - intros phi phi' [H0 Hlt]. rewrite !g_real.
    pose proof (g_sqrt_arg_pos phi) as Hp. pose proof (g_sqrt_arg_pos phi') as Hp'.
    assert (Harg : 1 + 3 * phi * phi / 9.86960440108935861883
                   < 1 + 3 * phi' * phi' / 9.86960440108935861883).
    { apply Rplus_lt_compat_l. apply Rmult_lt_compat_r;
        [apply Rinv_0_lt_compat; lra|nra]. }
    assert (Hs : sqrt (1 + 3 * phi * phi / 9.86960440108935861883)
                 < sqrt (1 + 3 * phi' * phi' / 9.86960440108935861883)).
    { apply sqrt_lt_1_alt. lra. }
    assert (Hs0 : 0 < sqrt (1 + 3 * phi * phi / 9.86960440108935861883))
      by (apply sqrt_lt_R0; exact Hp).
    unfold Rdiv. rewrite !Rmult_1_l.
    apply Rinv_lt_contravar; [|exact Hs].
    apply Rmult_lt_0_compat; lra.
Qed.

Lemma E_complement (mu mu_j phi_j : R) :
  E mu mu_j phi_j + E mu_j mu phi_j = 1.
Proof.
  rewrite !E_real.
  replace (- g phi_j * (mu_j - mu)) with (- (- g phi_j * (mu - mu_j))) by ring.
  set (t := - g phi_j * (mu - mu_j)).
  pose proof (exp_pos t) as Ht. pose proof (exp_pos (- t)) as Hn.
  assert (Hinv : exp t * exp (- t) = 1).
  { rewrite <- exp_plus. replace (t + - t) with 0 by lra. apply exp_0. }
  set (a := exp t) in *. set (b := exp (- t)) in *.
  assert (Hsum : 1 / (1 + a) + 1 / (1 + b) = (2 + a + b) / ((1 + a) * (1 + b)))
    by (field; lra).
  rewrite Hsum.
  replace ((1 + a) * (1 + b)) with (2 + a + b) by nra.
  field. lra.
Qed.

Lemma E_increasing (mu mu' mu_j phi_j : R) :
  mu < mu' -> E mu mu_j phi_j < E mu' mu_j phi_j.
Proof.
  intros Hlt. rewrite !E_real.
  pose proof (g_pos phi_j) as Hg.
  assert (Hexp : exp (- g phi_j * (mu' - mu_j)) < exp (- g phi_j * (mu - mu_j))).
  { apply exp_increasing. nra. }
  pose proof (exp_pos (- g phi_j * (mu' - mu_j))) as Hp.
  unfold Rdiv. rewrite !Rmult_1_l.
  apply Rinv_lt_contravar; [|lra].
  apply Rmult_lt_0_compat; lra.
Qed.

(** X2.  [E] over the real numbers: the expected scores of two players
    against each other, computed with the same deviation, add up to 1; the
    expected score grows strictly with the player's own rating; and it is
    above [0.5] exactly when the player is rated above the opponent. *)
Theorem E_shape (mu mu_j phi_j : R) :
  E mu mu_j phi_j + E mu_j mu phi_j = 1
  /\ (forall mu', mu < mu' -> E mu mu_j phi_j < E mu' mu_j phi_j)
  /\ (0.5 < E mu mu_j phi_j <-> mu_j < mu).
Proof.
  split; [apply E_complement|]. split.
  - intros mu'. apply E_increasing.
  - assert (Hhalf : E mu_j mu_j phi_j = 0.5).
    { rewrite E_real. replace (- g phi_j * (mu_j - mu_j)) with 0 by ring.
      rewrite exp_0. lra. }
    split.
    + intros Hgt. destruct (Rlt_le_dec mu_j mu) as [Hlt|Hle]; [exact Hlt|].
      exfalso. destruct Hle as [Hlt| ->]; [|lra].
      pose proof (E_increasing mu mu_j mu_j phi_j Hlt). lra.
    + intros Hlt. pose proof (E_increasing mu_j mu mu_j phi_j Hlt). lra.
Qed.

End Pairwise.

(** ** The members of one object, for every arithmetic *)

Section Members.

Context {D : Type} `{Double D}.
Local Open Scope dbl_scope.

(** X3.  The setters write one field each: the other two numbers and both
    vectors stay as they are, two different setters can be called in either
    order, and of two calls of the same setter the second one wins. *)
Theorem setters_write_one_field (s : Glicko2 D) (x y : D) :
  (deviation (SetRating s x) = deviation s
   /\ volatility (SetRating s x) = volatility s
   /\ opponents (SetRating s x) = opponents s
   /\ results (SetRating s x) = results s)
  /\ (rating (SetDeviation s x) = rating s
      /\ volatility (SetDeviation s x) = volatility s
      /\ opponents (SetDeviation s x) = opponents s
      /\ results (SetDeviation s x) = results s)
  /\ (rating (SetVolatility s x) = rating s
      /\ deviation (SetVolatility s x) = deviation s
      /\ opponents (SetVolatility s x) = opponents s
      /\ results (SetVolatility s x) = results s
      /\ GetVolatility (SetVolatility s x) = x)
  /\ (SetRating (SetDeviation s y) x = SetDeviation (SetRating s x) y
      /\ SetRating (SetVolatility s y) x = SetVolatility (SetRating s x) y
      /\ SetDeviation (SetVolatility s y) x = SetVolatility (SetDeviation s x) y)
  /\ (SetRating (SetRating s x) y = SetRating s y
      /\ SetDeviation (SetDeviation s x) y = SetDeviation s y
      /\ SetVolatility (SetVolatility s x) y = SetVolatility s y).
Proof. repeat split; reflexivity. Qed.

(** X4.  [AddResult] computes nothing: rating, deviation and volatility are
    unchanged.  It appends at the end of both vectors, the opponent exactly
    as it is at the call (its own pending vectors included) and the score of
    the result; the entries recorded before keep their places.  [AddWin],
    [AddLoss] and [AddDraw] are [AddResult] with [WIN], [LOSS], [DRAW]. *)
Theorem AddResult_appends (s opponent : Glicko2 D) (result : RESULT) :
  (rating (AddResult s opponent result) = rating s
   /\ deviation (AddResult s opponent result) = deviation s
   /\ volatility (AddResult s opponent result) = volatility s)
  /\ opponents (AddResult s opponent result) = opponents s ++ [opponent]
  /\ results (AddResult s opponent result) = results s ++ [score result]
  /\ (forall i, (i < length (opponents s))%nat ->
        opponents (AddResult s opponent result) !! i = opponents s !! i)
  /\ (forall i, (i < length (results s))%nat ->
        results (AddResult s opponent result) !! i = results s !! i)
  /\ (AddWin s opponent = AddResult s opponent WIN
      /\ AddLoss s opponent = AddResult s opponent LOSS
      /\ AddDraw s opponent = AddResult s opponent DRAW).
Proof.
  split; [repeat split; reflexivity|].
  split; [simpl; rewrite Glicko2_copy_same; reflexivity|].
  split; [reflexivity|].
  split; [|split; [|repeat split; reflexivity]].
  - intros i Hi. simpl. apply lookup_app_l. exact Hi.
  - intros i Hi. simpl. apply lookup_app_l. exact Hi.
Qed.

(** A result of [Update] has no opponents left. *)
Lemma Update_Ret_opponents (fuel : nat) (s s' : Glicko2 D) :
  Update fuel s = Ret s' -> opponents s' = [].
Proof.
  unfold Update. destruct (Nat.eqb (length (opponents s)) 0) eqn:Hempty.
  - intros [= <-]. apply Nat.eqb_eq in Hempty.
    destruct (opponents s); [reflexivity|discriminate].
  - destruct (for_loop (variance_body s) 0 (length (opponents s)) (lit 0.0))
      as [variance| |]; cbn [mbind outcome_bind]; try discriminate.
    destruct (for_loop (delta_body s) 0 (length (opponents s)) (lit 0.0))
      as [delta| |]; cbn [mbind outcome_bind]; try discriminate.
    destruct (solve_loop _ _ _ _ _ _ _) as [x_new| |];
      cbn [mbind outcome_bind]; try discriminate.
    intros [= <-]. reflexivity.
Qed.

(** X5.  [ClearResults] empties both vectors and keeps the three numbers;
    calling it twice is calling it once; it discards a result that was
    added; and [Update] right after it returns at once with the object as
    [ClearResults] left it. *)
Theorem ClearResults_discards (fuel : nat) (s opponent : Glicko2 D)
    (result : RESULT) :
  (rating (ClearResults s) = rating s
   /\ deviation (ClearResults s) = deviation s
   /\ volatility (ClearResults s) = volatility s
   /\ opponents (ClearResults s) = []
   /\ results (ClearResults s) = [])
  /\ ClearResults (ClearResults s) = ClearResults s
  /\ ClearResults (AddResult s opponent result) = ClearResults s
  /\ Update fuel (ClearResults (AddResult s opponent result))
     = Ret (ClearResults s).
Proof. repeat split; reflexivity. Qed.

(** X6.  Recorded results are applied once: the object a call of [Update]
    returns has no opponents left, and every further [Update] on it returns
    at once and changes nothing. *)
Theorem Update_applies_results_once (fuel : nat) (s s' : Glicko2 D) :
  Update fuel s = Ret s' ->
  opponents s' = [] /\ (forall fuel', Update fuel' s' = Ret s').
Proof.
  intros Hu. pose proof (Update_Ret_opponents fuel s s' Hu) as Ho.
  split; [exact Ho|]. intros fuel'. apply Update_bail. exact Ho.
Qed.

(** X7.  [Update] reads the rating and the deviation of each stored
    opponent and nothing else: two objects with the same three numbers and
    the same results, whose opponents agree entry by entry on rating and
    deviation, are updated to the same values for every budget, whatever
    the volatilities and the pending vectors of the opponents are. *)
Theorem Update_reads_rating_and_deviation (fuel : nat) (s s' : Glicko2 D) :
  rating s = rating s' -> deviation s = deviation s' ->
  volatility s = volatility s' -> results s = results s' ->
  Forall2 same_snapshot (opponents s) (opponents s') ->
  Update fuel s = Update fuel s'.
Proof. apply Update_same_snapshots. Qed.

End Members.

(** ** Several objects, for every arithmetic *)

Section Objects.

Context {D : Type} `{Double D}.

Lemma alter_const_insert (h : gmap nat (Glicko2 D)) (k : nat)
    (a b : Glicko2 D) :
  h !! k = Some a -> alter (fun _ => b) k h = <[k := b]> h.
Proof.
  intros Hk. apply map_eq. intros i.
  destruct (decide (k = i)) as [->|Hne].
  - rewrite lookup_alter_eq, lookup_insert_eq, Hk. reflexivity.
  - rewrite lookup_alter_ne, lookup_insert_ne by exact Hne. reflexivity.
Qed.

(** X9.  Copies are values.  [Glicko2 self(rhs);] and, for two different
    objects, [self = rhs;] leave in [self] the five fields of [rhs], the
    recorded opponents and results included, and leave every other object,
    [rhs] among them, as it was; [self = self;] changes nothing. *)
Theorem copies_are_values (fuel : nat) (self rhs : nat) (a b : Glicko2 D)
    (h : gmap nat (Glicko2 D)) :
  h !! rhs = Some b ->
  exec fuel (New_copy self rhs) h = Ret (<[self := b]> h)
  /\ (h !! self = Some a -> self <> rhs ->
      exec fuel (Assign self rhs) h = Ret (<[self := b]> h)
      /\ <[self := b]> h !! self = Some b
      /\ <[self := b]> h !! rhs = Some b)
  /\ exec fuel (Assign rhs rhs) h = Ret h.
Proof.
  intros Hb. split; [|split].
  - simpl. rewrite Hb, Glicko2_copy_same. reflexivity.
  - intros Ha Hne. split; [|split].
    + simpl. apply Nat.eqb_neq in Hne. rewrite Hne.
      unfold call_with. rewrite Hb, Glicko2_copy_same.
      rewrite (alter_const_insert h self a b Ha). reflexivity.
    + apply lookup_insert_eq.
    + rewrite lookup_insert_ne by exact Hne. exact Hb.
  - simpl. rewrite Nat.eqb_refl. reflexivity.
Qed.

End Objects.

(** ** The [while] loop, for every arithmetic *)

Section First_exit.

Context {D : Type} `{Double D}.

Lemma loop_from_first_exit (s : Glicko2 D) (n : nat) :
  forall k fuel,
    guard_fails s (k + n) ->
    (forall j, (j < n)%nat -> ~ guard_fails s (k + j)) ->
    ((n <= fuel)%nat -> loop_from fuel s k = Ret (x_new_at s (k + n)))
    /\ ((fuel < n)%nat -> loop_from fuel s k = Timeout).
Proof.
  induction n as [|n IH]; intros k fuel Hexit Hbefore.
  - rewrite Nat.add_0_r in *. split; [|lia].
    intros _. apply loop_from_exit. exact Hexit.
  - assert (Hk : ~ guard_fails s k).
    { specialize (Hbefore 0%nat). rewrite Nat.add_0_r in Hbefore.
      apply Hbefore. lia. }
    destruct fuel as [|fuel].
    + split; [lia|]. intros _. apply loop_from_timeout. exact Hk.
    + rewrite (loop_from_step fuel s k Hk).
      replace (k + S n)%nat with (S k + n)%nat in * by lia.
      destruct (IH (S k) fuel Hexit) as [Hret Hout].
      { intros j Hj. replace (S k + j)%nat with (k + S j)%nat by lia.
        apply Hbefore. lia. }
      split; intros Hf; [apply Hret|apply Hout]; lia.
Qed.

(** X10.  What [Update] returns is fixed by the first test at which the
    guard of the [while] loop is false.  If that is test number [k]
    (counting from 0), the loop body has run [k] times: a budget of [k]
    iterations or more gives the object with the values computed from the
    [k]-th value of [x_new], the same for every such budget, and a smaller
    budget finds the loop still running. *)
Theorem Update_result_at_first_exit (s : Glicko2 D) (k fuel : nat) :
  paired s -> opponents s <> [] ->
  guard_fails s k ->
  (forall j, (j < k)%nat -> ~ guard_fails s j) ->
  ((k <= fuel)%nat -> Update fuel s = Ret (Update_commit s (x_new_at s k)))
  /\ ((fuel < k)%nat -> Update fuel s = Timeout).
Proof.
  intros Hp Hne Hexit Hbefore.
  destruct (loop_from_first_exit s k 0 fuel Hexit Hbefore) as [Hret Hout].
  rewrite loop_from_0 in Hret, Hout.
  rewrite (Update_unfold fuel s Hp Hne).
  split; intros Hf.
  - rewrite (Hret Hf). reflexivity.
  - rewrite (Hout Hf). reflexivity.
Qed.

End First_exit.

(** ** Constructors, getters and the comparison, over the real numbers *)

Section Public_values.

Local Open Scope R_scope.

(** X11.  The constructor with three arguments builds the object whose
    getters return these arguments and whose vectors are empty; the default
    constructor builds the same object as the arguments 1500, 350 and 0.06
    do.  Writing back what a getter returns leaves an object as it is. *)
Theorem constructors_and_write_back (s : Glicko2 R) (r d v : R) :
  (GetRating (Glicko2_new r d v) = r
   /\ GetDeviation (Glicko2_new r d v) = d
   /\ GetVolatility (Glicko2_new r d v) = v
   /\ opponents (Glicko2_new r d v) = []
   /\ results (Glicko2_new r d v) = [])
  /\ Glicko2_default = Glicko2_new 1500 350 0.06
  /\ (SetRating s (GetRating s) = s
      /\ SetDeviation s (GetDeviation s) = s
      /\ SetVolatility s (GetVolatility s) = s).
Proof.
  split; [|split].
  - unfold GetRating, GetDeviation, GetVolatility. simpl. real_ops.
    repeat split; lra.
  - unfold Glicko2_default, Glicko2_new, SetVolatility, SetDeviation, SetRating.
    simpl. real_ops. f_equal; lra.
  - destruct s as [mu phi sigma o rs].
    unfold SetRating, SetDeviation, SetVolatility, GetRating, GetDeviation,
      GetVolatility. simpl. real_ops.
    repeat split; f_equal; lra.
Qed.

Lemma less_than_real (s t : Glicko2 R) :
  less_than s t = true <-> rating s < rating t.
Proof.
  unfold less_than. real_ops.
  destruct (Rlt_dec (rating s) (rating t)) as [Hlt|Hge].
  - split; [intros _; exact Hlt|reflexivity].
  - split; [discriminate|]. intros Hlt. contradiction.
Qed.

Lemma less_than_false (s t : Glicko2 R) :
  less_than s t = false <-> rating t <= rating s.
Proof.
  pose proof (less_than_real s t) as Ht.
  destruct (less_than s t).
  - split; [discriminate|]. intros Hle. destruct Ht as [Ht _].
    specialize (Ht eq_refl). lra.
  - split; [|reflexivity]. intros _.
    destruct (Rle_dec (rating t) (rating s)) as [Hle|Hn]; [exact Hle|].
    exfalso. destruct Ht as [_ Ht]. assert (rating s < rating t) by lra.
    specialize (Ht H). discriminate.
Qed.

(** X12.  [operator<] over the real numbers is the strict order of the
    public ratings: it holds exactly when [GetRating] of the left object is
    below [GetRating] of the right one.  It is irreflexive and transitive;
    deviation, volatility and recorded results play no part in it, so two
    objects neither of which is less than the other have the same rating
    and may differ in everything else. *)
Theorem less_than_orders_by_rating (s t u : Glicko2 R) :
  (less_than s t = true <-> GetRating s < GetRating t)
  /\ less_than s s = false
  /\ (less_than s t = true -> less_than t u = true -> less_than s u = true)
  /\ (less_than s t = false -> less_than t s = false ->
      GetRating s = GetRating t)
  /\ (forall s' t', rating s' = rating s -> rating t' = rating t ->
        less_than s' t' = less_than s t).
Proof.
  unfold GetRating. real_ops.
  split; [|split; [|split; [|split]]].
  - rewrite less_than_real. split; intros Hlt; lra.
  - apply less_than_false. lra.
  - rewrite !less_than_real. lra.
  - rewrite !less_than_false. intros H1 H2.
    replace (rating s) with (rating t) by lra. reflexivity.
  - intros s' t' Hs Ht. unfold less_than. rewrite Hs, Ht. reflexivity.
Qed.

End Public_values.

(** ** The rating update over the real numbers *)

Section Update_real.

Local Open Scope R_scope.

Lemma big_sum_perm {A : Type} (f : A -> R) (l l' : list A) :
  l ≡ₚ l' -> Spec.big_sum f l = Spec.big_sum f l'.
Proof.
  unfold Spec.big_sum.
  induction 1 as [|x l l' _ IH|x y l|l l' l'' _ IH1 _ IH2]; cbn [foldr].
  - reflexivity.
  - rewrite IH. reflexivity.
  - lra.
  - rewrite IH1. exact IH2.
Qed.

Lemma big_sum_fmap {A B : Type} (f : B -> R) (m : A -> B) (l : list A) :
  Spec.big_sum f (m <$> l) = Spec.big_sum (fun j => f (m j)) l.
Proof.
  induction l as [|j l IH]; [reflexivity|].
  rewrite fmap_cons. unfold Spec.big_sum in *. cbn [foldr]. rewrite IH.
  reflexivity.
Qed.

Lemma big_sum_pos_Forall {A : Type} (f : A -> R) (l : list A) :
  l <> [] -> Forall (fun j => 0 < f j) l -> 0 < Spec.big_sum f l.
Proof.
  intros Hne Hall. destruct Hall as [|j l Hj Hl]; [congruence|].
  unfold Spec.big_sum. cbn [foldr].
  assert (0 <= foldr (fun j acc => f j + acc) 0 l).
  { clear Hne Hj. induction Hl as [|j' l Hj' _ IH]; cbn [foldr];
      cbv beta in *; lra. }
  cbv beta in *. lra.
Qed.

Lemma sums_of_permuted_games (s s' : Glicko2 R) :
  rating s = rating s' -> paired s -> paired s' ->
  games s ≡ₚ games s' ->
  variance_sum s = variance_sum s' /\ score_sum s = score_sum s'.
Proof.
  intros Hr Hp Hp' Hperm. split.
  - rewrite (variance_sum_real s Hp), (variance_sum_real s' Hp').
    rewrite (big_sum_perm _ _ _ Hperm).
    apply big_sum_ext. intros j. unfold Spec.E_j. rewrite Hr. reflexivity.
  - rewrite !score_sum_real. unfold Spec.surprise.
    rewrite (big_sum_perm _ _ _ Hperm).
    apply big_sum_ext. intros j. unfold Spec.E_j. rewrite Hr. reflexivity.
Qed.

(** X13.  Over the real numbers the order in which the results were added
    does not matter: two objects with the same rating, deviation and
    volatility whose recorded games (opponent next to score) are the same
    up to their order are updated to the same object, for every budget. *)
Theorem Update_order_independent (fuel : nat) (s s' : Glicko2 R) :
  rating s = rating s' -> deviation s = deviation s' ->
  volatility s = volatility s' ->
  paired s -> paired s' ->
  games s ≡ₚ games s' ->
  Update fuel s = Update fuel s'.
Proof.
  intros Hr Hd Hv Hp Hp' Hperm.
  pose proof (Permutation_length Hperm) as Hlen.
  rewrite (games_length s Hp), (games_length s' Hp') in Hlen.
  destruct (opponents s) as [|o os] eqn:Ho.
  - destruct (opponents s') as [|o' os'] eqn:Ho'; [|discriminate].
    rewrite (Update_bail fuel s Ho), (Update_bail fuel s' Ho').
    unfold paired in Hp, Hp'. rewrite Ho in Hp. rewrite Ho' in Hp'.
    destruct s as [mu phi sigma l rs], s' as [mu' phi' sigma' l' rs'].
    simpl in *. subst.
    destruct rs; [|discriminate]. destruct rs'; [|discriminate]. reflexivity.
  - destruct (opponents s') as [|o' os'] eqn:Ho'; [discriminate|].
    rewrite (Update_unfold fuel s Hp) by (rewrite Ho; discriminate).
    rewrite (Update_unfold fuel s' Hp') by (rewrite Ho'; discriminate).
    destruct (sums_of_permuted_games s s' Hr Hp Hp' Hperm) as [Hvar Hsc].
    unfold Update_solve, Update_commit, Update_delta, Update_variance, Update_a.
    rewrite Hvar, Hsc, Hr, Hd, Hv. reflexivity.
Qed.

Lemma surprise_of_wins (s : Glicko2 R) :
  opponents s <> [] -> paired s -> all_wins s -> 0 < Spec.surprise s.
Proof.
  intros Hne Hp Hw. unfold Spec.surprise.
  apply big_sum_pos_Forall.
  - intros Hg. apply Hne. apply length_zero_iff_nil.
    rewrite <- (games_length s Hp), Hg. reflexivity.
  - apply Forall_forall. intros [o r] Hin.
    unfold games in Hin. apply elem_of_zip_r in Hin.
    unfold all_wins in Hw. rewrite Forall_forall in Hw.
    rewrite (Hw r Hin).
    unfold Spec.g_j, Spec.score_j, Spec.E_j. cbn [fst snd].
    pose proof (g_pos (deviation o)) as Hg.
    pose proof (E_bounds (rating s) (rating o) (deviation o)) as [_ H1].
    apply Rmult_lt_0_compat; lra.
Qed.

Lemma surprise_of_losses (s : Glicko2 R) :
  opponents s <> [] -> paired s -> all_losses s -> Spec.surprise s < 0.
Proof.
  intros Hne Hp Hl.
  assert (Hneg : 0 < Spec.big_sum
            (fun j => - (Spec.g_j j * (Spec.score_j j - Spec.E_j s j)))
            (games s)).
  { apply big_sum_pos_Forall.
    - intros Hg. apply Hne. apply length_zero_iff_nil.
      rewrite <- (games_length s Hp), Hg. reflexivity.
    - apply Forall_forall. intros [o r] Hin.
      unfold games in Hin. apply elem_of_zip_r in Hin.
      unfold all_losses in Hl. rewrite Forall_forall in Hl.
      rewrite (Hl r Hin).
      unfold Spec.g_j, Spec.score_j, Spec.E_j. cbn [fst snd].
      pose proof (g_pos (deviation o)) as Hg.
      pose proof (E_bounds (rating s) (rating o) (deviation o)) as [H0 _].
      assert (0 < g (deviation o) * E (rating s) (rating o) (deviation o))
        by (apply Rmult_lt_0_compat; lra).
      lra. }
  assert (Hopp : forall l : list (Glicko2 R * R),
            Spec.big_sum
              (fun j => - (Spec.g_j j * (Spec.score_j j - Spec.E_j s j))) l
            = - Spec.big_sum
                (fun j => Spec.g_j j * (Spec.score_j j - Spec.E_j s j)) l).
  { unfold Spec.big_sum. induction l as [|j l IH]; cbn [foldr]; [lra|].
    rewrite IH. lra. }
  rewrite Hopp in Hneg. unfold Spec.surprise. lra.
Qed.

(** X14.  Over the real numbers, when the run stays within the real
    numbers (the volatility is not zero and no iteration divides by
    [h2 = 0]) and the [while] loop ends: a period of wins only raises the
    rating and a period of losses only lowers it, strictly, whoever the
    opponents were and however strong; the same holds of the value
    [GetRating] returns. *)
Theorem Update_rating_direction (fuel : nat) (s : Glicko2 R) (x_new : R) :
  paired s -> opponents s <> [] ->
  within_reals s ->
  Update_solve fuel s = Ret x_new ->
  exists s', Update fuel s = Ret s'
    /\ (all_wins s -> rating s < rating s' /\ GetRating s < GetRating s')
    /\ (all_losses s -> rating s' < rating s /\ GetRating s' < GetRating s).
Proof.
  intros Hp Hne _ Hx. exists (Update_commit s x_new).
  split; [apply Update_returns; assumption|].
  destruct (Update_commit_positive s x_new Hne) as [Hdev _].
  assert (Hmove : rating (Update_commit s x_new)
                  = rating s + deviation (Update_commit s x_new) ^ 2
                               * Spec.surprise s).
  { rewrite (Update_commit_real s x_new Hp). reflexivity. }
  assert (Hsq : 0 < deviation (Update_commit s x_new) ^ 2) by nra.
  unfold GetRating. real_ops.
  split; intros Hall.
  - pose proof (surprise_of_wins s Hne Hp Hall) as Hs.
    assert (0 < deviation (Update_commit s x_new) ^ 2 * Spec.surprise s)
      by (apply Rmult_lt_0_compat; assumption).
    lra.
  - pose proof (surprise_of_losses s Hne Hp Hall) as Hs.
    assert (0 < deviation (Update_commit s x_new) ^ 2 * (- Spec.surprise s))
      by (apply Rmult_lt_0_compat; lra).
    lra.
Qed.

(** X15.  Over the real numbers, when the run stays within the real
    numbers (the volatility is not zero and no iteration divides by
    [h2 = 0]) and the [while] loop ends, the new deviation is below the
    deviation inflated by the new volatility,
    [sqrt(deviation^2 + volatility'^2)], and below the square root of the
    variance the first loop computed: its square is below
    [deviation^2 + volatility'^2] and below [variance]. *)
Theorem Update_deviation_shrinks (fuel : nat) (s : Glicko2 R) (x_new : R) :
  paired s -> opponents s <> [] ->
  within_reals s ->
  Update_solve fuel s = Ret x_new ->
  exists s', Update fuel s = Ret s'
    /\ deviation s' ^ 2 < deviation s ^ 2 + volatility s' ^ 2
    /\ deviation s' ^ 2 < Update_variance s.
Proof.
  intros Hp Hne _ Hx. exists (Update_commit s x_new).
  split; [apply Update_returns; assumption|].
  pose proof (Update_variance_pos s Hne) as Hv.
  unfold Update_commit. cbn [deviation volatility]. real_ops.
  replace (Q2R 1.0) with 1 by lra.
  set (sigma' := exp (x_new / Q2R 2.0)).
  assert (Hs : 0 < sigma') by apply exp_pos.
  assert (HP : 0 < deviation s * deviation s + sigma' * sigma') by nra.
  rewrite sqrt_sqrt by lra.
  set (P := deviation s * deviation s + sigma' * sigma') in *.
  set (v := Update_variance s) in *.
  assert (HX : 0 < 1 / P + 1 / v).
  { apply Rplus_lt_0_compat; apply Rdiv_lt_0_compat; lra. }
  set (X := 1 / P + 1 / v) in *.
  assert (Hsq : (1 / sqrt X) ^ 2 = / X).
  { pose proof (sqrt_lt_R0 X HX) as Hpos.
    replace ((1 / sqrt X) ^ 2) with (/ (sqrt X * sqrt X))
      by (field; lra).
    rewrite sqrt_sqrt by lra. reflexivity. }
  rewrite Hsq.
  assert (HPX : P * X = 1 + P / v) by (unfold X; field; lra).
  assert (HvX : v * X = v / P + 1) by (unfold X; field; lra).
  assert (HPv : 0 < P / v) by (apply Rdiv_lt_0_compat; lra).
  assert (HvP : 0 < v / P) by (apply Rdiv_lt_0_compat; lra).
  assert (HiX : 0 < / X) by (apply Rinv_0_lt_compat; exact HX).
  assert (Hone : X * / X = 1) by (apply Rinv_r; lra).
  replace (deviation s ^ 2 + sigma' ^ 2) with P by (unfold P; ring).
  split.
  - assert (/ X * 1 < / X * (P * X)) by (apply Rmult_lt_compat_l; lra).
    replace (/ X * (P * X)) with (P * (X * / X)) in H by ring.
    rewrite Hone in H. lra.
  - assert (/ X * 1 < / X * (v * X)) by (apply Rmult_lt_compat_l; lra).
    replace (/ X * (v * X)) with (v * (X * / X)) in H by ring.
    rewrite Hone in H. lra.
Qed.

Lemma E_shift (c mu mu_j phi_j : R) :
  E (mu + c) (mu_j + c) phi_j = E mu mu_j phi_j.
Proof.
  rewrite !E_real. f_equal. f_equal. f_equal. ring.
Qed.

Lemma shift_ratings_paired (c : R) (s : Glicko2 R) :
  paired s -> paired (shift_ratings c s).
Proof.
  unfold paired. simpl. rewrite length_fmap. auto.
Qed.

Lemma shift_ratings_sums (c : R) (s : Glicko2 R) :
  paired s ->
  variance_sum (shift_ratings c s) = variance_sum s
  /\ score_sum (shift_ratings c s) = score_sum s.
Proof.
  intros Hp. pose proof (shift_ratings_paired c s Hp) as Hp'.
  assert (Hg : games (shift_ratings c s)
               = (fun j => (shift_opponent c j.1, j.2)) <$> games s).
  { unfold games, shift_ratings. cbn [opponents results].
    generalize (results s). generalize (opponents s).
    induction l as [|o l IH]; intros [|r rs]; try reflexivity.
    rewrite fmap_cons. cbn [zip_with]. rewrite fmap_cons, IH.
    reflexivity. }
  split.
  - rewrite (variance_sum_real _ Hp'), (variance_sum_real s Hp), Hg.
    rewrite big_sum_fmap. apply big_sum_ext. intros [o r].
    unfold Spec.g_j, Spec.E_j. cbn [fst snd shift_opponent shift_ratings
      rating deviation].
    rewrite E_shift. reflexivity.
  - rewrite !score_sum_real. unfold Spec.surprise. rewrite Hg.
    rewrite big_sum_fmap. apply big_sum_ext. intros [o r].
    unfold Spec.g_j, Spec.E_j, Spec.score_j.
    cbn [fst snd shift_opponent shift_ratings rating deviation].
    rewrite E_shift. reflexivity.
Qed.

(** X16.  Over the real numbers only differences of ratings count: adding
    the same amount to the rating of the object and to the rating of every
    stored opponent adds that amount to the rating [Update] returns and
    changes neither the new deviation nor the new volatility nor the number
    of iterations. *)
Theorem Update_translation_invariant (fuel : nat) (c : R) (s : Glicko2 R) :
  paired s ->
  Update fuel (shift_ratings c s) = shift_ratings c <$> Update fuel s.
Proof.
  intros Hp. pose proof (shift_ratings_paired c s Hp) as Hp'.
  destruct (opponents s) as [|o os] eqn:Ho.
  - rewrite (Update_bail fuel s Ho).
    rewrite (Update_bail fuel (shift_ratings c s))
      by (simpl; rewrite Ho; reflexivity).
    reflexivity.
  - rewrite (Update_unfold fuel s Hp) by (rewrite Ho; discriminate).
    rewrite (Update_unfold fuel _ Hp')
      by (simpl; rewrite Ho; discriminate).
    destruct (shift_ratings_sums c s Hp) as [Hvar Hsc].
    assert (Hsolve : Update_solve fuel (shift_ratings c s) = Update_solve fuel s).
    { unfold Update_solve, Update_delta, Update_variance, Update_a.
      rewrite Hvar, Hsc. reflexivity. }
    rewrite Hsolve.
    destruct (Update_solve fuel s) as [x_new| |]; try reflexivity.
    cbn [mbind outcome_bind fmap outcome_fmap]. f_equal.
    unfold Update_commit, Update_variance. rewrite Hvar, Hsc.
    unfold shift_ratings. cbn [rating deviation volatility opponents results].
    real_ops. f_equal. ring.
Qed.

End Update_real.

(** ** The further properties at work *)

Section Further_instances.

Local Open Scope R_scope.

Lemma g_shape_witness : g 1 < g 0.
Proof.
  destruct g_shape as (_ & _ & _ & Hdec). apply (Hdec 0 1). lra.
Defined.

Lemma E_shape_witness : E 0 0 0 < E 1 0 0.
Proof.
  destruct (E_shape 0 0 0) as (_ & Hinc & _). apply (Hinc 1). lra.
Defined.

Lemma AddResult_appends_witness :
  opponents (AddResult (Glicko2_default : Glicko2 R)
               (AddWin Glicko2_default Glicko2_default) LOSS) !! 0%nat
  = Some (AddWin (Glicko2_default : Glicko2 R) Glicko2_default).
Proof.
  destruct (AddResult_appends (Glicko2_default : Glicko2 R)
              (AddWin Glicko2_default Glicko2_default) LOSS)
    as (_ & Ho & _).
  rewrite Ho. reflexivity.
Defined.

Lemma Update_applies_results_once_witness :
  opponents (mkGlicko2 (8 / 5) (4 / 5) (4 / 5) [] [] : Glicko2 R) = []
  /\ (forall fuel',
        Update fuel' (mkGlicko2 (8 / 5) (4 / 5) (4 / 5) [] [])
        = Ret (mkGlicko2 (8 / 5) (4 / 5) (4 / 5) [] [])).
Proof.
  apply (Update_applies_results_once 1 steady_A). exact steady_A_Update.
Defined.

(** [B] and [B'] have the same rating and deviation; [B'] has another
    volatility and a pending result. *)
Lemma Update_reads_rating_and_deviation_witness :
  Update 3 (AddWin (Glicko2_default : Glicko2 R) (Glicko2_new 1400 30 0.06))
  = Update 3 (AddWin (Glicko2_default : Glicko2 R)
                (AddLoss (Glicko2_new 1400 30 0.9) Glicko2_default)).
Proof.
  apply (Update_reads_rating_and_deviation 3); try reflexivity.
  repeat constructor.
Defined.

(** [Glicko2 A(B);] *)
Lemma copies_are_values_witness :
  exec 0 (New_copy 0 1)
       (<[1%nat := AddWin (Glicko2_new 1400 30 0.06) Glicko2_default]> ∅
        : gmap nat (Glicko2 R))
  = Ret (<[0%nat := AddWin (Glicko2_new 1400 30 0.06) Glicko2_default]>
           (<[1%nat := AddWin (Glicko2_new 1400 30 0.06) Glicko2_default]> ∅)).
Proof.
  apply (copies_are_values 0 0%nat 1%nat Glicko2_default
           (AddWin (Glicko2_new 1400 30 0.06) Glicko2_default)).
  reflexivity.
Defined.

Lemma Update_result_at_first_exit_witness :
  ((1 <= 4)%nat ->
   Update 4 steady_A = Ret (Update_commit steady_A (x_new_at steady_A 1)))
  /\ ((4 < 1)%nat -> Update 4 steady_A = Timeout).
Proof.
  apply (Update_result_at_first_exit steady_A 1 4).
  - reflexivity.
  - discriminate.
  - exact steady_A_guard_1.
  - exact steady_A_guard_0.
Defined.

Lemma less_than_orders_by_rating_witness :
  less_than (Glicko2_new 1400 30 0.06 : Glicko2 R) (Glicko2_new 1400 30 0.06)
  = false.
Proof.
  destruct (less_than_orders_by_rating (Glicko2_new 1400 30 0.06)
              (Glicko2_new 1400 30 0.06) (Glicko2_new 1400 30 0.06))
    as (_ & Hirr & _).
  exact Hirr.
Defined.

(** [A.AddLoss(B); A.AddWin(C);] against [A.AddWin(C); A.AddLoss(B);] *)
Lemma Update_order_independent_witness :
  Update 3 (AddWin (AddLoss (Glicko2_default : Glicko2 R)
                      (Glicko2_new 1400 30 0.06))
              (Glicko2_new 1550 100 0.06))
  = Update 3 (AddLoss (AddWin (Glicko2_default : Glicko2 R)
                         (Glicko2_new 1550 100 0.06))
                (Glicko2_new 1400 30 0.06)).
Proof.
  apply (Update_order_independent 3); try reflexivity.
  apply perm_swap.
Defined.

Lemma Update_rating_direction_witness :
  exists s', Update 1 steady_A = Ret s'
    /\ (all_wins steady_A ->
        rating steady_A < rating s' /\ GetRating steady_A < GetRating s')
    /\ (all_losses steady_A ->
        rating s' < rating steady_A /\ GetRating s' < GetRating steady_A).
Proof.
  apply (Update_rating_direction 1 steady_A (Update_a steady_A)).
  - reflexivity.
  - discriminate.
  - exact steady_A_within_reals.
  - exact steady_A_solve.
Defined.

Lemma Update_deviation_shrinks_witness :
  exists s', Update 1 steady_A = Ret s'
    /\ deviation s' ^ 2 < deviation steady_A ^ 2 + volatility s' ^ 2
    /\ deviation s' ^ 2 < Update_variance steady_A.
Proof.
  apply (Update_deviation_shrinks 1 steady_A (Update_a steady_A)).
  - reflexivity.
  - discriminate.
  - exact steady_A_within_reals.
  - exact steady_A_solve.
Defined.

Lemma Update_translation_invariant_witness :
  Update 1 (shift_ratings 100 steady_A)
  = shift_ratings 100 <$> Update 1 steady_A.
Proof.
  apply (Update_translation_invariant 1 100 steady_A). reflexivity.
Defined.

End Further_instances.
